(** * pr-utils: the [create-staging-pr] command

    A shallow embedding of the function [createStagingPR] of
    [commands/create-staging-pr.ts] and the properties of branch resolution,
    commit collection and publication that its specification states.  Line
    numbers are those of [src/src/index.ts], where the function stands at
    lines 65-403.

    The command is one asynchronous function that talks to git (through
    simple-git), to the GitHub API (through Octokit) and to the console.  It
    is embedded as a procedure in a small state-and-exception monad: the
    answers of the collaborators are read from an environment record, every
    call and every line of output is appended to a trace, and the two arrays
    the function mutates live in a store. *)

From Stdlib Require Import Ascii String ZArith Lia.
From stdpp Require Import base gmap sets list strings pretty sorting.

Open Scope string_scope.
Open Scope list_scope.
Open Scope nat_scope.

(** * JavaScript strings

    Strings are sequences of 8-bit code units ([string] of the standard
    library); the operations below are the [String.prototype] methods the
    command uses, restricted to that range. *)

Module JsString.

Definition chr (n : nat) : ascii := Ascii.ascii_of_nat n.
Definition str1 (c : ascii) : string := String c EmptyString.

Definition nl : ascii := chr 10.
Definition comma : ascii := chr 44.
Definition pipe : ascii := chr 124.
Definition slash : ascii := chr 47.
Definition dquote : string := str1 (chr 34).

(** White space and line terminators of ECMAScript below code unit 256:
    TAB, LF, VT, FF, CR, SP and NBSP. *)
Definition isSpace (c : ascii) : bool :=
  let n := Ascii.nat_of_ascii c in
  ((9 <=? n) && (n <=? 13)) || (n =? 32) || (n =? 160).

Fixpoint trimStart (s : string) : string :=
  match s with
  | EmptyString => EmptyString
  | String c s' => if isSpace c then trimStart s' else s
  end.

(** [trimEnd s] removes trailing white space; the recursion returns the
    empty string for a suffix made of white space only. *)
Fixpoint trimEnd (s : string) : string :=
  match s with
  | EmptyString => EmptyString
  | String c s' =>
      match trimEnd s' with
      | EmptyString => if isSpace c then EmptyString else str1 c
      | t => String c t
      end
  end.

(** [s.trim()] *)
Definition trim (s : string) : string := trimEnd (trimStart s).

(** A string is truthy when it is not empty. *)
Definition truthy (s : string) : bool :=
  match s with EmptyString => false | _ => true end.

(** [s.split(c)] for a separator of one character: always at least one
    piece, the pieces contain no separator. *)
Fixpoint split (sep : ascii) (s : string) : list string :=
  match s with
  | EmptyString => [EmptyString]
  | String c s' =>
      if Ascii.eqb c sep then EmptyString :: split sep s'
      else match split sep s' with
           | [] => [str1 c]
           | p :: ps => String c p :: ps
           end
  end.

(** [s.startsWith(p)] *)
Definition startsWith (s p : string) : bool := String.prefix p s.

Fixpoint drop (n : nat) (s : string) : string :=
  match n, s with
  | O, _ => s
  | S n', String _ s' => drop n' s'
  | S _, EmptyString => EmptyString
  end.

(** [s.replace(pat, rep)] with a string pattern: only the first occurrence
    of [pat] is replaced (the replacements used by the command contain no
    [$], so no substitution pattern is involved). *)
Fixpoint replace (pat rep s : string) : string :=
  if String.prefix pat s then rep +:+ drop (String.length pat) s
  else match s with
       | EmptyString => EmptyString
       | String c s' => String c (replace pat rep s')
       end.

(** [s.substring(0, n)] *)
Definition substring0 (n : nat) (s : string) : string := String.substring 0 n s.

(** [l.join(sep)] *)
Definition join (sep : string) (l : list string) : string := String.concat sep l.

(** [l.includes(x)] *)
Definition includes (l : list string) (x : string) : bool := bool_decide (x ∈ l).

Definition contains (c : ascii) (s : string) : bool :=
  bool_decide (c ∈ list_ascii_of_string s).

End JsString.

Import JsString.

(** * Data model *)

(** The fields of a log entry as simple-git returns them
    ([DefaultLogFields]; [body] and [author_email] are never read by the
    command and are left out).  [author_date] is the optional property the
    sort comparator falls back to. *)
Record LogLine := mkLogLine {
  ll_hash : string;
  ll_date : string;
  ll_message : string;
  ll_refs : string;
  ll_author_name : string;
  ll_author_date : option string
}.

(** A collected commit: the log fields plus the branch it was first
    collected from. *)
Record Commit := mkCommit {
  hash : string;
  message : string;
  author_name : string;
  date : string;
  refs : string;
  author_date : option string;
  branch : string
}.

(** [{ ...commit, branch: branch }] *)
Definition tagBranch (b : string) (l : LogLine) : Commit :=
  {| hash := ll_hash l; message := ll_message l;
     author_name := ll_author_name l; date := ll_date l; refs := ll_refs l;
     author_date := ll_author_date l; branch := b |}.

(** [CreateStagingPROptions].  A flag that commander leaves undefined is
    falsy and is modelled as [false]; an optional string is [None] when it
    is undefined. *)
Record Options := mkOptions {
  featureBranch : option string;
  stagingBranch : string;
  developBranch : string;
  dryRun : bool;
  includeMerges : bool;
  firstParent : bool;
  includeSubBranches : bool;
  subBranchPattern : option string;
  branches : option string
}.

(** Truthiness of an optional string: defined and not empty. *)
Definition given (o : option string) : bool :=
  match o with Some s => truthy s | None => false end.

(** * Collaborators *)

(** The result of a call that may throw; [Raised] carries the rendering of
    the error in a template string. *)
Inductive Try (A : Type) : Type :=
| Done (a : A)
| Raised (err : string).
Arguments Done {A} a.
Arguments Raised {A} err.

(** The payload of [octokit.rest.pulls.create]. *)
Record PullRequest := mkPullRequest {
  pr_owner : string;
  pr_repo : string;
  pr_title : string;
  pr_head : string;
  pr_base : string;
  pr_body : string
}.

(** Everything the command does to the outside world, in the order it does
    it. *)
Inductive Event : Type :=
| GitBranch (args : list string)
| GitStatus
| GitFetch
| GitRaw (args : list string)
| GitLog (from to : string)
| GitCheckout (args : list string)
| GitPush (remote name : string)
| GitGetConfig (key : string)
| PullsCreate (pr : PullRequest)
| ConsoleLog (text : string)
| ConsoleWarn (text : string)
| ConsoleError (text : string)
| SpinnerStart (text : string)
| SpinnerSucceed (text : string)
| SpinnerFail (text : string).

(** The answers of git, of the GitHub API and of the JavaScript runtime.
    Each answer is a function of the arguments of the call: what the
    repository holds does not change between two calls of one run.
    [dateTime] is [new Date(text).getTime()] with [None] for [NaN],
    [regExpTest p t] is [new RegExp(p).test(t)], [now] is [Date.now()]. *)
Record Env := mkEnv {
  currentBranch : Try string;
  statusIsClean : Try bool;
  fetch : Try unit;
  branchAll : Try (list string);
  branchRemote : Try (list string);
  raw : list string -> Try string;
  log : string -> string -> Try (list LogLine);
  checkout : list string -> Try unit;
  push : string -> string -> Try unit;
  getConfig : string -> Try (option string);
  pullsCreate : PullRequest -> Try (Z * string);
  githubToken : option string;
  now : Z;
  dateTime : string -> option Z;
  regExpTest : string -> string -> Try bool
}.

(** * The store and the procedure monad *)

(** The two array objects of the function: [allCommits] (also reachable as
    [featureCommits.all]) and the array created by the spread expression
    [[...featureCommits.all]]; the set [commitHashes]; and the trace. *)
Record Store := mkStore {
  allCommits : list Commit;
  spreadCopy : list Commit;
  commitHashes : gset string;
  trace : list Event
}.

Definition initial : Store :=
  {| allCommits := []; spreadCopy := []; commitHashes := ∅; trace := [] |}.

Inductive Array : Type := AllCommits | SpreadCopy.

Definition getArray (a : Array) (s : Store) : list Commit :=
  match a with AllCommits => allCommits s | SpreadCopy => spreadCopy s end.

Definition setArray (a : Array) (v : list Commit) (s : Store) : Store :=
  match a with
  | AllCommits => {| allCommits := v; spreadCopy := spreadCopy s;
                     commitHashes := commitHashes s; trace := trace s |}
  | SpreadCopy => {| allCommits := allCommits s; spreadCopy := v;
                     commitHashes := commitHashes s; trace := trace s |}
  end.

Definition addHash (h : string) (s : Store) : Store :=
  {| allCommits := allCommits s; spreadCopy := spreadCopy s;
     commitHashes := {[h]} ∪ commitHashes s; trace := trace s |}.

Definition record (e : Event) (s : Store) : Store :=
  {| allCommits := allCommits s; spreadCopy := spreadCopy s;
     commitHashes := commitHashes s; trace := trace s ++ [e] |}.

(** How a procedure ends: with a value, with an exception in flight, or by
    [process.exit]. *)
Inductive Outcome (A : Type) : Type :=
| Value (a : A)
| Thrown (err : string)
| Exited (code : Z).
Arguments Value {A} a.
Arguments Thrown {A} err.
Arguments Exited {A} code.

Definition Proc (A : Type) : Type := Store -> Outcome A * Store.

Definition ret {A} (a : A) : Proc A := fun s => (Value a, s).

Definition bind {A B} (m : Proc A) (k : A -> Proc B) : Proc B :=
  fun s =>
    match m s with
    | (Value a, s') => k a s'
    | (Thrown e, s') => (Thrown e, s')
    | (Exited c, s') => (Exited c, s')
    end.

Declare Scope proc_scope.
Delimit Scope proc_scope with proc.
Notation "x <- m ;; k" := (bind m (fun x => k))
  (at level 100, m at next level, right associativity) : proc_scope.
Notation "m ;; k" := (bind m (fun _ => k))
  (at level 100, right associativity) : proc_scope.
Open Scope proc_scope.

(** [throw] *)
Definition throw {A} (e : string) : Proc A := fun s => (Thrown e, s).

(** [process.exit(code)] *)
Definition exit {A} (code : Z) : Proc A := fun s => (Exited code, s).

(** [try { m } catch (error) { h error }]: an exit is not caught. *)
Definition tryCatch {A} (m : Proc A) (h : string -> Proc A) : Proc A :=
  fun s =>
    match m s with
    | (Thrown e, s') => h e s'
    | r => r
    end.

Definition emit (e : Event) : Proc unit := fun s => (Value tt, record e s).

(** A value computed by the runtime that may throw. *)
Definition lift {A} (r : Try A) : Proc A :=
  match r with Done a => ret a | Raised e => throw e end.

(** An awaited call: it is recorded, then it returns or throws. *)
Definition call {A} (e : Event) (r : Try A) : Proc A := emit e ;; lift r.

(** [for (const x of l) { f x }] and [l.forEach((x, index) => f index x)] *)
Fixpoint forOf {A} (l : list A) (f : A -> Proc unit) : Proc unit :=
  match l with
  | [] => ret tt
  | x :: l' => f x ;; forOf l' f
  end.

Fixpoint forEachFrom {A} (index : nat) (l : list A) (f : nat -> A -> Proc unit)
  : Proc unit :=
  match l with
  | [] => ret tt
  | x :: l' => f index x ;; forEachFrom (S index) l' f
  end.

(** [l.filter(p)] for a predicate that may throw. *)
Fixpoint filterTry {A} (p : A -> Try bool) (l : list A) : Try (list A) :=
  match l with
  | [] => Done []
  | x :: l' =>
      match p x with
      | Raised e => Raised e
      | Done keep =>
          match filterTry p l' with
          | Raised e => Raised e
          | Done r => Done (if keep then x :: r else r)
          end
      end
  end.

(** Array objects. *)
Definition readArray (a : Array) : Proc (list Commit) :=
  fun s => (Value (getArray a s), s).

(** [a.push(c)] *)
Definition pushArray (a : Array) (c : Commit) : Proc unit :=
  fun s => (Value tt, setArray a (getArray a s ++ [c]) s).

(** [[...a]]: a new array with the elements of [a]. *)
Definition spreadArray (a : Array) : Proc Array :=
  fun s => (Value SpreadCopy, setArray SpreadCopy (getArray a s) s).

(** [a.reverse()]: reverses [a] in place and returns it. *)
Definition reverseArray (a : Array) : Proc Array :=
  fun s => (Value a, setArray a (rev (getArray a s)) s).

(** [commitHashes.has(h)] and [commitHashes.add(h)] *)
Definition hasHash (h : string) : Proc bool :=
  fun s => (Value (bool_decide (h ∈ commitHashes s)), s).

Definition addCommitHash (h : string) : Proc unit :=
  fun s => (Value tt, addHash h s).

(** * [Array.prototype.sort]

    ECMAScript requires the sort to be stable, and turns a comparator result
    of [NaN] into [+0].  For a comparator that orders the elements
    consistently every conforming engine returns the same array (see
    [stable_sorted_unique] below); it is computed here by stable insertion.
    For a comparator that is not consistent the standard leaves the order to
    the engine, and only the fact that the result is a rearrangement of the
    array is relied on; the one exception is an array all of whose
    comparisons are [NaN], which node's stable sort leaves as it is, like
    the insertion below (see [arraySort_incomparable]). *)

Section ArraySort.
Context {A : Type} (compareFn : A -> A -> option Z).

(** The comparator as the sort reads it: [None] is [NaN]. *)
Definition sortCompare (a b : A) : Z := default 0%Z (compareFn a b).

Fixpoint insertSorted (x : A) (l : list A) : list A :=
  match l with
  | [] => [x]
  | y :: l' =>
      if (0 <? sortCompare x y)%Z then y :: insertSorted x l'
      else x :: y :: l'
  end.

Fixpoint arraySort (l : list A) : list A :=
  match l with
  | [] => []
  | x :: l' => insertSorted x (arraySort l')
  end.
End ArraySort.

(** A comparator that subtracts keys, as the comparator of the command
    does; a missing key is [NaN]. *)
Definition byKey {A : Type} (key : A -> option Z) (a b : A) : option Z :=
  match key a, key b with
  | Some x, Some y => Some (x - y)%Z
  | _, _ => None
  end.

(** [a] is not later than [b]; both keys are numbers. *)
Definition keyLe {A : Type} (key : A -> option Z) (a b : A) : Prop :=
  match key a, key b with
  | Some x, Some y => (x ≤ y)%Z
  | _, _ => False
  end.

(** * The remote URL pattern

    [/github\.com[:/]([^/]+)\/([^.]+)/]: the first place where the text
    [github.com] is followed by [:] or [/], a non-empty run of characters
    other than [/], a [/], and a non-empty run of characters other than
    [.].  Both runs are greedy and the characters they may give back cannot
    match what follows, so no backtracking is needed. *)

Fixpoint span (p : ascii -> bool) (s : string) : string * string :=
  match s with
  | EmptyString => (EmptyString, EmptyString)
  | String c s' =>
      if p c then let (a, b) := span p s' in (String c a, b)
      else (EmptyString, s)
  end.

Definition matchRemoteHere (s : string) : option (string * string) :=
  if String.prefix "github.com" s then
    match drop 10 s with
    | String c r =>
        if Ascii.eqb c (chr 58) || Ascii.eqb c slash then
          match span (fun x => negb (Ascii.eqb x slash)) r with
          | (String o os, String _ r2) =>
              match span (fun x => negb (Ascii.eqb x (chr 46))) r2 with
              | (String p ps, _) => Some (String o os, String p ps)
              | _ => None
              end
          | _ => None
          end
        else None
    | EmptyString => None
    end
  else None.

Fixpoint matchRemote (s : string) : option (string * string) :=
  match matchRemoteHere s with
  | Some r => Some r
  | None =>
      match s with
      | EmptyString => None
      | String _ s' => matchRemote s'
      end
  end.

(** * The command *)

Section CreateStagingPR.
Context (env : Env) (options : Options).

Definition check_mark : string :=
  String (chr 226) (String (chr 156) (String (chr 133) EmptyString)).

(** [options.branches.split(',').map(b => b.trim())] *)
Definition manualBranches (text : string) : list string :=
  map trim (split comma text).

(** Lines 70-83: the branch the rest of the run knows as
    [options.featureBranch]. *)
Definition resolveFeatureBranch : Proc string :=
  if given (branches options) then
    let manual := manualBranches (default EmptyString (branches options)) in
    emit (ConsoleLog ("Using manually specified branches: " +:+ join ", " manual)) ;;
    if negb (given (featureBranch options)) then
      ret (default EmptyString (head manual))
    else ret (default EmptyString (featureBranch options))
  else if negb (given (featureBranch options)) then
    current <- call (GitBranch []) (currentBranch env) ;;
    emit (ConsoleLog ("Using current branch: " +:+ current)) ;;
    ret current
  else ret (default EmptyString (featureBranch options)).

(** Lines 89-93: the message of the configuration error. *)
Definition configurationError : Event :=
  ConsoleError "Feature branch cannot be the same as staging or develop branch".

(** Lines 85-95. *)
Definition rejectProtected (feature : string) : Proc unit :=
  if String.eqb feature (stagingBranch options)
     || String.eqb feature (developBranch options)
  then
    emit configurationError ;;
    exit 1
  else ret tt.

(** Lines 97-107. *)
Definition checkStatus : Proc unit :=
  emit (SpinnerStart "Checking repository status...") ;;
  clean <- call GitStatus (statusIsClean env) ;;
  (if negb clean then
     emit (SpinnerFail
             "Working directory is not clean. Please commit or stash your changes.") ;;
     exit 1
   else ret tt) ;;
  emit (SpinnerSucceed "Repository status is clean").

(** Lines 109-111. *)
Definition fetchLatest : Proc unit :=
  emit (SpinnerStart "Fetching latest changes...") ;;
  call GitFetch (fetch env) ;;
  emit (SpinnerSucceed "Fetched latest changes").

Definition hasBranch (all : list string) (name : string) : bool :=
  includes all name || includes all ("remotes/origin/" +:+ name).

(** Lines 113-139. *)
Definition checkBranchesExist (feature : string) : Proc unit :=
  emit (SpinnerStart "Checking if branches exist...") ;;
  all <- call (GitBranch ["-a"]) (branchAll env) ;;
  (if negb (hasBranch all feature) then
     emit (SpinnerFail ("Feature branch '" +:+ feature +:+ "' not found")) ;;
     exit 1
   else ret tt) ;;
  (if negb (hasBranch all (stagingBranch options)) then
     emit (SpinnerFail
             ("Staging branch '" +:+ stagingBranch options +:+ "' not found")) ;;
     exit 1
   else ret tt) ;;
  (if negb (hasBranch all (developBranch options)) then
     emit (SpinnerFail
             ("Develop branch '" +:+ developBranch options +:+ "' not found")) ;;
     exit 1
   else ret tt) ;;
  emit (SpinnerSucceed "All required branches exist").

(** Lines 161-167: the filter callback of the sub-branch search. *)
Definition isSubBranch (feature pattern b : string) : Try bool :=
  if negb (String.eqb b feature) then
    if startsWith b (replace "*" EmptyString pattern) then Done true
    else regExpTest env (replace "*" ".*" pattern) b
  else Done false.

(** Lines 150-174. *)
Definition findSubBranches (feature : string) : Proc (list string) :=
  if includeSubBranches options then
    emit (SpinnerStart "Finding sub-branches...") ;;
    let pattern :=
      if given (subBranchPattern options)
      then default EmptyString (subBranchPattern options)
      else feature +:+ "*" in
    all <- call (GitBranch ["-r"]) (branchRemote env) ;;
    subBranches <-
      lift (filterTry (isSubBranch feature pattern)
              (map (replace "origin/" EmptyString)
                 (filter (fun b => startsWith b "origin/" = true) all))) ;;
    (if 0 <? length subBranches then
       emit (SpinnerSucceed
               ("Found " +:+ pretty (length subBranches) +:+ " sub-branches: "
                +:+ join ", " subBranches))
     else emit (SpinnerSucceed "No sub-branches found")) ;;
    ret subBranches
  else ret [].

(** Lines 141-177: [branchesToProcess]. *)
Definition determineBranches (feature : string) : Proc (list string) :=
  if given (branches options) then
    let branchesToProcess :=
      manualBranches (default EmptyString (branches options)) in
    emit (ConsoleLog
            ("Processing " +:+ pretty (length branchesToProcess)
             +:+ " manually specified branches")) ;;
    ret branchesToProcess
  else
    subBranches <- findSubBranches feature ;;
    ret (feature :: subBranches).

(** Lines 183-192. *)
Definition additionalArgs : list string :=
  (if negb (includeMerges options) then ["--no-merges"] else [])
  ++ (if firstParent options then ["--first-parent"] else []).

(** Lines 203-210. *)
Definition gitArgs (b : string) : list string :=
  ["log";
   "origin/" +:+ stagingBranch options +:+ "..origin/" +:+ b;
   "--oneline";
   "--format=%H|%s|%an|%ad|%d";
   "--date=iso"] ++ additionalArgs.

(** Lines 217-227: one line of the formatted log.  A missing or empty
    field becomes the empty string; the first piece always exists. *)
Definition parseLine (b line : string) : Commit :=
  let fields := split pipe line in
  {| hash := nth 0 fields EmptyString;
     message := nth 1 fields EmptyString;
     author_name := nth 2 fields EmptyString;
     date := nth 3 fields EmptyString;
     refs := nth 4 fields EmptyString;
     author_date := None;
     branch := b |}.

(** Lines 213-227. *)
Definition parseRawOutput (b rawOutput : string) : list Commit :=
  map (parseLine b)
    (filter (fun line => truthy (trim line) = true)
       (split nl (trim rawOutput))).

(** Lines 200-239: [branchCommits]. *)
Definition getBranchCommits (b : string) : Proc (list Commit) :=
  if 0 <? length additionalArgs then
    rawOutput <- call (GitRaw (gitArgs b)) (raw env (gitArgs b)) ;;
    ret (parseRawOutput b rawOutput)
  else
    logResult <-
      call (GitLog ("origin/" +:+ stagingBranch options) ("origin/" +:+ b))
        (log env ("origin/" +:+ stagingBranch options) ("origin/" +:+ b)) ;;
    ret (map (tagBranch b) logResult).

(** Lines 241-247. *)
Definition addUnique (branchCommits : list Commit) : Proc unit :=
  forOf branchCommits (fun commit =>
    seen <- hasHash (hash commit) ;;
    if negb seen then
      addCommitHash (hash commit) ;;
      pushArray AllCommits commit
    else ret tt).

(** Lines 198-251. *)
Definition collectCommits (branchesToProcess : list string) : Proc unit :=
  forOf branchesToProcess (fun b =>
    tryCatch
      (branchCommits <- getBranchCommits b ;;
       addUnique branchCommits)
      (fun error =>
         emit (ConsoleWarn
                 ("Warning: Could not get commits from branch " +:+ b
                  +:+ ": " +:+ error)))).

(** Lines 255-256: [new Date(a.date || a.author_date || 0).getTime()];
    [None] is [NaN]. *)
Definition getTime (c : Commit) : option Z :=
  if truthy (date c) then dateTime env (date c)
  else match author_date c with
       | Some d => if truthy d then dateTime env d else Some 0%Z
       | None => Some 0%Z
       end.

(** Lines 254-258: the comparator. *)
Definition byDate (a b : Commit) : option Z :=
  match getTime a, getTime b with
  | Some dateA, Some dateB => Some (dateA - dateB)%Z
  | _, _ => None
  end.

(** [a.sort(compareFn)]: sorts [a] in place and returns it. *)
Definition sortArray (a : Array) (compareFn : Commit -> Commit -> option Z)
  : Proc Array :=
  fun s => (Value a, setArray a (arraySort compareFn (getArray a s)) s).

Definition sortCommits : Proc unit := sortArray AllCommits byDate ;; ret tt.

(** Lines 266-268: the message of the empty changeset error. *)
Definition emptyChangesetError (feature : string) : Event :=
  SpinnerFail
    ("No commits found in " +:+ feature +:+ " that are not in "
     +:+ stagingBranch options).

(** Lines 260-272; [featureCommits.all] is the array [allCommits]
    itself. *)
Definition requireCommits (feature : string) : Proc unit :=
  all <- readArray AllCommits ;;
  let total := length all in
  (if total =? 0 then
     emit (emptyChangesetError feature) ;;
     exit 1
   else ret tt) ;;
  emit (SpinnerSucceed
          ("Found " +:+ pretty total +:+ " commits to cherry-pick")).

(** Lines 277-279 and 377-379. *)
Definition branchInfo (feature : string) (commit : Commit) : string :=
  if truthy (branch commit) && negb (String.eqb (branch commit) feature)
  then " [" +:+ branch commit +:+ "]"
  else EmptyString.

Definition commitLine (feature : string) (index : nat) (commit : Commit)
  : string :=
  pretty (index + 1) +:+ ". " +:+ substring0 7 (hash commit) +:+ " - "
  +:+ message commit +:+ branchInfo feature commit.

(** Lines 280-284: one line of the display. *)
Definition displayLine (feature : string) (index : nat) (commit : Commit)
  : Event :=
  ConsoleLog ("  " +:+ commitLine feature index commit).

(** Lines 274-285. *)
Definition displayCommits (feature : string) : Proc unit :=
  emit (ConsoleLog "Commits to be cherry-picked (newest first):") ;;
  copy <- spreadArray AllCommits ;;
  reversed <- reverseArray copy ;;
  shown <- readArray reversed ;;
  forEachFrom 0 shown (fun index commit =>
    emit (displayLine feature index commit)).

(** Line 292. *)
Definition stagingPRBranchName (feature : string) : string :=
  "staging-pr-" +:+ replace "/" "-" feature +:+ "-" +:+ pretty (now env).

(** Lines 310-323: one round of the cherry-pick loop. *)
Definition cherryPick (commit : Commit) : Proc unit :=
  tryCatch
    (call (GitRaw ["cherry-pick"; hash commit])
       (raw env ["cherry-pick"; hash commit]) ;;
     ret tt)
    (fun error =>
       emit (SpinnerFail
               ("Failed to cherry-pick commit " +:+ hash commit +:+ ": "
                +:+ error)) ;;
       emit (ConsoleLog
               "You may need to resolve conflicts manually and continue with:") ;;
       emit (ConsoleLog "  git cherry-pick --continue") ;;
       emit (ConsoleLog "Or abort with:") ;;
       emit (ConsoleLog "  git cherry-pick --abort") ;;
       exit 1).

(** Lines 304-326. *)
Definition cherryPickAll : Proc unit :=
  emit (SpinnerStart "Cherry-picking commits...") ;;
  all <- readArray AllCommits ;;
  emit (ConsoleLog
          ("Cherry-picking " +:+ pretty (length all)
           +:+ " commits in chronological order...")) ;;
  forOf all cherryPick ;;
  emit (SpinnerSucceed "All commits cherry-picked successfully").

(** Lines 369-384. *)
Definition branchList (feature : string) (branchesToProcess : list string)
  : string :=
  if 1 <? length branchesToProcess then join ", " branchesToProcess
  else feature.

Definition prBody (feature : string) (branchesToProcess : list string)
    (all : list Commit) : string :=
  "Cherry-picked changes from " +:+ branchList feature branchesToProcess
  +:+ " to staging" +:+ str1 nl +:+ str1 nl
  +:+ "## Commits included:" +:+ str1 nl
  +:+ join (str1 nl) (imap (commitLine feature) all)
  +:+ str1 nl +:+ str1 nl +:+ "---" +:+ str1 nl
  +:+ "*Generated by pr-utils*".

(** Lines 332-398. *)
Definition requestPR (feature : string) (branchesToProcess : list string)
    (stagingPRBranch : string) : Proc unit :=
  if negb (given (githubToken env)) then
    emit (ConsoleLog
            (str1 nl +:+ "GITHUB_TOKEN not found. Please create PR manually:")) ;;
    emit (ConsoleLog
            ("  gh pr create --base " +:+ stagingBranch options +:+ " --head "
             +:+ stagingPRBranch +:+ " --title " +:+ dquote
             +:+ "Cherry-pick changes from " +:+ feature +:+ " to staging"
             +:+ dquote +:+ " --body " +:+ dquote
             +:+ "Cherry-picked commits from " +:+ feature +:+ dquote))
  else
    remoteUrl <- call (GitGetConfig "remote.origin.url")
                   (getConfig env "remote.origin.url") ;;
    match remoteUrl ≫= matchRemote with
    | None =>
        emit (ConsoleLog "Could not parse GitHub repository from remote URL") ;;
        emit (ConsoleLog
                ("Please create PR manually from branch '" +:+ stagingPRBranch
                 +:+ "' to '" +:+ stagingBranch options +:+ "'"))
    | Some (owner, repo) =>
        let repoName := replace ".git" EmptyString repo in
        emit (SpinnerStart "Creating GitHub PR...") ;;
        all <- readArray AllCommits ;;
        let request :=
          {| pr_owner := owner;
             pr_repo := repoName;
             pr_title := "Cherry-pick changes from "
                         +:+ branchList feature branchesToProcess
                         +:+ " to staging";
             pr_head := stagingPRBranch;
             pr_base := stagingBranch options;
             pr_body := prBody feature branchesToProcess all |} in
        pr <- call (PullsCreate request) (pullsCreate env request) ;;
        emit (SpinnerSucceed
                ("Created PR #" +:+ pretty (fst pr) +:+ ": " +:+ snd pr)) ;;
        emit (ConsoleLog
                (str1 nl +:+ check_mark +:+ " Successfully created staging PR!")) ;;
        emit (ConsoleLog ("   PR URL: " +:+ snd pr))
    end.

(** Lines 292-398: what a run that is not a dry run does with the
    changeset. *)
Definition publish (feature : string) (branchesToProcess : list string)
  : Proc unit :=
  let stagingPRBranch := stagingPRBranchName feature in
  emit (SpinnerStart
          ("Creating new branch '" +:+ stagingPRBranch +:+ "' from "
           +:+ stagingBranch options +:+ "...")) ;;
  call (GitCheckout ["-b"; stagingPRBranch; "origin/" +:+ stagingBranch options])
    (checkout env ["-b"; stagingPRBranch; "origin/" +:+ stagingBranch options]) ;;
  emit (SpinnerSucceed ("Created branch '" +:+ stagingPRBranch +:+ "'")) ;;
  cherryPickAll ;;
  emit (SpinnerStart
          ("Pushing branch '" +:+ stagingPRBranch +:+ "' to origin...")) ;;
  call (GitPush "origin" stagingPRBranch) (push env "origin" stagingPRBranch) ;;
  emit (SpinnerSucceed
          ("Pushed branch '" +:+ stagingPRBranch +:+ "' to origin")) ;;
  requestPR feature branchesToProcess stagingPRBranch.

(** Lines 179-181. *)
Definition gettingCommits (feature : string) (branchesToProcess : list string)
  : Event :=
  SpinnerStart
    ("Getting commits from "
     +:+ (if 1 <? length branchesToProcess
          then pretty (length branchesToProcess) +:+ " branches"
          else feature)
     +:+ " that are not in " +:+ stagingBranch options +:+ "...").

(** Lines 179-285: collection, ordering and display of the changeset. *)
Definition assemble (feature : string) (branchesToProcess : list string)
  : Proc unit :=
  emit (gettingCommits feature branchesToProcess) ;;
  collectCommits branchesToProcess ;;
  sortCommits ;;
  requireCommits feature ;;
  displayCommits feature.

(** Line 288. *)
Definition dryRunCompleted : Event :=
  ConsoleLog (str1 nl +:+ "Dry run completed. No changes were made.").

(** Lines 287-290 and what follows them. *)
Definition finish (feature : string) (branchesToProcess : list string)
  : Proc unit :=
  if dryRun options then emit dryRunCompleted
  else publish feature branchesToProcess.

(** Lines 70-177: the primary feature branch and [branchesToProcess]. *)
Definition resolveBranches : Proc (string * list string) :=
  feature <- resolveFeatureBranch ;;
  rejectProtected feature ;;
  checkStatus ;;
  fetchLatest ;;
  checkBranchesExist feature ;;
  branchesToProcess <- determineBranches feature ;;
  ret (feature, branchesToProcess).

(** Lines 70-285: everything that comes before the dry-run decision. *)
Definition plan : Proc (string * list string) :=
  resolved <- resolveBranches ;;
  assemble (fst resolved) (snd resolved) ;;
  ret resolved.

(** The body of the [try] block. *)
Definition body : Proc unit :=
  planned <- plan ;;
  finish (fst planned) (snd planned).

(** Lines 65-403. *)
Definition createStagingPR : Proc unit :=
  tryCatch body (fun error =>
    emit (SpinnerFail ("Error: " +:+ error)) ;;
    exit 1).

End CreateStagingPR.

(** * Observations on a run *)

Definition result {A : Type} (m : Proc A) (s : Store) : Outcome A := fst (m s).
Definition after {A : Type} (m : Proc A) (s : Store) : Store := snd (m s).

(** [steps R m]: whatever the store, [m] leaves it in a store related to it
    by [R]. *)
Definition steps {A : Type} (R : relation Store) (m : Proc A) : Prop :=
  ∀ s, R s (after m s).

(** The trace only grows, by events that satisfy [P]. *)
Definition emits (P : Event -> Prop) : relation Store :=
  λ s s', ∃ es, trace s' = trace s ++ es ∧ Forall P es.

(** The calls that change the repository or the hosting service: creating
    the branch, cherry-picking, pushing and requesting the pull request. *)
Definition createsBranch (e : Event) : bool :=
  match e with GitCheckout _ => true | _ => false end.

Definition pickedHash (e : Event) : option string :=
  match e with
  | GitRaw [verb; h] => if String.eqb verb "cherry-pick" then Some h else None
  | _ => None
  end.

Definition cherryPicks (e : Event) : bool :=
  match e with
  | GitRaw (verb :: _) => String.eqb verb "cherry-pick"
  | _ => false
  end.

Definition pushes (e : Event) : bool :=
  match e with GitPush _ _ => true | _ => false end.

Definition requestsPR (e : Event) : bool :=
  match e with PullsCreate _ => true | _ => false end.

Definition publishes (e : Event) : bool :=
  createsBranch e || cherryPicks e || pushes e || requestsPR e.

(** The calls that reach the remote. *)
Definition usesNetwork (e : Event) : bool :=
  match e with
  | GitFetch | GitPush _ _ | PullsCreate _ => true
  | _ => false
  end.

Definition isWarning (e : Event) : bool :=
  match e with ConsoleWarn _ => true | _ => false end.

(** The calls that ask git for a log. *)
Definition isLogQuery (e : Event) : bool :=
  match e with
  | GitRaw (verb :: _) => String.eqb verb "log"
  | GitLog _ _ => true
  | _ => false
  end.

(** The hashes handed to [git cherry-pick], in order. *)
Definition picked (es : list Event) : list string := omap pickedHash es.

(** * The collection loop, read as functions of the store *)

Section Collected.
Context (env : Env) (options : Options).

(** The call that asks git for the commits of branch [b]. *)
Definition logQuery (b : string) : Event :=
  if 0 <? length (additionalArgs options) then GitRaw (gitArgs options b)
  else GitLog ("origin/" +:+ stagingBranch options) ("origin/" +:+ b).

(** What [getBranchCommits] yields for branch [b]: git's answer as the
    command reads it, or the error of the call. *)
Definition branchLog (b : string) : Try (list Commit) :=
  if 0 <? length (additionalArgs options) then
    match raw env (gitArgs options b) with
    | Done rawOutput => Done (parseRawOutput b rawOutput)
    | Raised e => Raised e
    end
  else
    match log env ("origin/" +:+ stagingBranch options) ("origin/" +:+ b) with
    | Done logResult => Done (map (tagBranch b) logResult)
    | Raised e => Raised e
    end.

(** The store after [addUnique]. *)
Fixpoint mergeInto (branchCommits : list Commit) (s : Store) : Store :=
  match branchCommits with
  | [] => s
  | commit :: rest =>
      mergeInto rest
        (if bool_decide (hash commit ∈ commitHashes s) then s
         else setArray AllCommits (allCommits s ++ [commit])
                (addHash (hash commit) s))
  end.

Definition warning (b error : string) : Event :=
  ConsoleWarn
    ("Warning: Could not get commits from branch " +:+ b +:+ ": " +:+ error).

(** The store after one round of the loop over [branchesToProcess]. *)
Definition collectedFrom (b : string) (s : Store) : Store :=
  match branchLog b with
  | Done branchCommits => mergeInto branchCommits (record (logQuery b) s)
  | Raised e => record (warning b e) (record (logQuery b) s)
  end.

(** The store after [collectCommits]. *)
Fixpoint collected (branchesToProcess : list string) (s : Store) : Store :=
  match branchesToProcess with
  | [] => s
  | b :: rest => collected rest (collectedFrom b s)
  end.

End Collected.

(** The store after [sortCommits]. *)
Definition sortedStore (env : Env) (s : Store) : Store :=
  setArray AllCommits (arraySort (byDate env) (allCommits s)) s.

(** The store after the loop of [assemble] started in [s]. *)
Definition merged (env : Env) (options : Options) (feature : string)
    (branchesToProcess : list string) (s : Store) : Store :=
  collected env options branchesToProcess
    (record (gettingCommits options feature branchesToProcess) s).

(** The lines of the display for the array [all]. *)
Definition display (feature : string) (all : list Commit) : list Event :=
  ConsoleLog "Commits to be cherry-picked (newest first):"
  :: imap (displayLine feature) (rev all).

(** Neither the array [allCommits] nor the set [commitHashes] is written. *)
Definition untouched : relation Store :=
  λ s s', allCommits s' = allCommits s ∧ commitHashes s' = commitHashes s.

(** No hash is handed to [git cherry-pick] and [allCommits] is not
    written. *)
Definition silent : relation Store :=
  λ s s', picked (trace s') = picked (trace s) ∧ allCommits s' = allCommits s.


(** [logged es s]: the store [s] after the events [es]. *)
Definition logged (es : list Event) (s : Store) : Store :=
  {| allCommits := allCommits s; spreadCopy := spreadCopy s;
     commitHashes := commitHashes s; trace := trace s ++ es |}.

(** The hashes of the array are those of the set, and none occurs twice. *)
Definition hashesAgree (s : Store) : Prop :=
  NoDup (hash <$> allCommits s)
  ∧ ∀ h, h ∈ commitHashes s ↔ h ∈ hash <$> allCommits s.

(** [getBranchCommits] yields the commits [cs] for branch [b], or throws
    [e]. *)
Definition reports (env : Env) (options : Options) (b : string)
    (cs : list Commit) : Prop :=
  ∀ s, result (getBranchCommits env options b) s = Value cs.


(** The commit [c] of the changeset was first seen on the branch it is
    tagged with: that branch reported it, and no branch processed before it
    reported a commit with the same hash. *)
Definition firstSeen (env : Env) (options : Options)
    (branchesToProcess : list string) (c : Commit) : Prop :=
  ∃ before later branchCommits,
    branchesToProcess = before ++ branch c :: later
    ∧ reports env options (branch c) branchCommits
    ∧ c ∈ branchCommits
    ∧ ∀ b cs, b ∈ before → reports env options b cs →
        hash c ∉ hash <$> cs.

(** * A model of the collaborators

    The properties below hold for every environment.  To run the command on
    examples, this module answers the calls from a small commit graph, the
    way git does for the options the command passes. *)

Module Git.

Record Object := mkObject {
  oid : string;
  parents : list string;
  subject : string;
  authorName : string;
  authorDate : string;   (* as [--date=iso] prints it *)
  decoration : string    (* the ref names of [%D], empty when there is none *)
}.

(** [objects] lists the commits in the order in which [git log] prints
    them; [heads] and [remotes] map branch names to commit ids. *)
Record Repo := mkRepo {
  objects : list Object;
  heads : list (string * string);
  remotes : list (string * string);
  checkedOut : string;
  clean : bool;
  originUrl : option string
}.

Definition assoc (name : string) (l : list (string * string)) : option string :=
  snd <$> List.find (λ r, String.eqb (fst r) name) l.

Definition object (repo : Repo) (id : string) : option Object :=
  List.find (λ o, String.eqb (oid o) id) (objects repo).

(** [origin/x] names a remote-tracking branch, anything else a local one. *)
Definition revParse (repo : Repo) (name : string) : option string :=
  if String.prefix "origin/" name then assoc (drop 7 name) (remotes repo)
  else assoc name (heads repo).

Definition parentsOf (repo : Repo) (firstParent : bool) (id : string)
  : list string :=
  match object repo id with
  | Some o => if firstParent then take 1 (parents o) else parents o
  | None => []
  end.

Fixpoint walk (fuel : nat) (repo : Repo) (firstParent : bool)
    (todo seen : list string) : list string :=
  match fuel with
  | O => seen
  | S fuel' =>
      match todo with
      | [] => seen
      | id :: rest =>
          if bool_decide (id ∈ seen) then walk fuel' repo firstParent rest seen
          else walk fuel' repo firstParent
                 (parentsOf repo firstParent id ++ rest) (id :: seen)
      end
  end.

(** Every round takes one id off [todo], and ids are put on it once per
    edge of the graph. *)
Definition enough (repo : Repo) : nat :=
  2 + length (objects repo)
  + foldr (λ o n, length (parents o) + n) 0 (objects repo).

(** The ids reachable from [id]. *)
Definition reachable (repo : Repo) (firstParent : bool) (id : string)
  : list string :=
  walk (enough repo) repo firstParent [id] [].

(** [git log exclude..include]: what is reachable from [include] and not
    from [exclude]; [--first-parent] narrows the walk from [include],
    [--no-merges] drops the commits with more than one parent. *)
Definition logRange (repo : Repo) (noMerges firstParent : bool)
    (exclude include : string) : list Object :=
  filter (λ o,
      oid o ∈ reachable repo firstParent include
      ∧ ¬ (oid o ∈ reachable repo false exclude)
      ∧ (noMerges = true → length (parents o) ≤ 1))
    (objects repo).

(** [git log a...b]: what is reachable from one of the two and not from
    the other. *)
Definition logSymmetric (repo : Repo) (a b : string) : list Object :=
  filter (λ o,
      (oid o ∈ reachable repo false a ∧ ¬ (oid o ∈ reachable repo false b))
      ∨ (oid o ∈ reachable repo false b ∧ ¬ (oid o ∈ reachable repo false a)))
    (objects repo).

(** [%d] *)
Definition decorated (o : Object) : string :=
  if truthy (decoration o) then " (" +:+ decoration o +:+ ")" else EmptyString.

(** [--format=%H|%s|%an|%ad|%d], one line per commit. *)
Definition formatted (o : Object) : string :=
  oid o +:+ "|" +:+ subject o +:+ "|" +:+ authorName o +:+ "|"
  +:+ authorDate o +:+ "|" +:+ decorated o +:+ str1 nl.

Definition printed (l : list Object) : string := String.concat EmptyString (map formatted l).

(** The two sides of the first [..] of a revision range. *)
Fixpoint cutRange (s : string) : option (string * string) :=
  match s with
  | EmptyString => None
  | String c s' =>
      if String.prefix ".." s then Some (EmptyString, drop 2 s)
      else match cutRange s' with
           | Some (a, b) => Some (String c a, b)
           | None => None
           end
  end.

(** The first line of what git says about a revision it does not know; the
    error of simple-git carries the further lines of git's output as
    well. *)
Definition badRevision (range : string) : string :=
  "Error: fatal: ambiguous argument '" +:+ range
  +:+ "': unknown revision or path not in the working tree.".

(** [git.raw]: the log the command asks for, and [cherry-pick]. *)
Definition runRaw (repo : Repo) (args : list string) : Try string :=
  match args with
  | [verb; id] =>
      if String.eqb verb "cherry-pick" then
        match object repo id with
        | Some _ => Done EmptyString
        | None => Raised ("Error: fatal: bad object " +:+ id)
        end
      else Raised ("Error: git: unsupported " +:+ verb)
  | verb :: range :: _ :: _ :: _ :: flags =>
      if String.eqb verb "log" then
        match cutRange range with
        | Some (a, b) =>
            match revParse repo a, revParse repo b with
            | Some exclude, Some include =>
                Done (printed
                        (logRange repo (includes flags "--no-merges")
                           (includes flags "--first-parent") exclude include))
            | _, _ => Raised (badRevision range)
            end
        | None => Raised (badRevision range)
        end
      else Raised ("Error: git: unsupported " +:+ verb)
  | _ => Raised "Error: git: unsupported"
  end.

(** [%aI] from the text of [--date=iso]:
    [2024-01-02 10:00:00 +0700] becomes [2024-01-02T10:00:00+07:00]. *)
Definition strictIso (d : string) : string :=
  String.substring 0 10 d +:+ "T" +:+ String.substring 11 8 d
  +:+ String.substring 20 3 d +:+ ":" +:+ String.substring 23 2 d.

Definition logLine (o : Object) : LogLine :=
  {| ll_hash := oid o; ll_date := strictIso (authorDate o);
     ll_message := subject o; ll_refs := decoration o;
     ll_author_name := authorName o; ll_author_date := None |}.

(** [git.log({ from, to })]: simple-git joins [from] and [to] with the
    symmetric range operator unless [symmetric: false] is passed, which the
    command does not do. *)
Definition runLog (repo : Repo) (from to : string) : Try (list LogLine) :=
  match revParse repo from, revParse repo to with
  | Some a, Some b => Done (map logLine (logSymmetric repo a b))
  | _, _ => Raised (badRevision (from +:+ "..." +:+ to))
  end.

(** ** Dates *)

Definition digit (c : ascii) : option Z :=
  let n := Ascii.nat_of_ascii c in
  if (48 <=? n) && (n <=? 57) then Some (Z.of_nat (n - 48)) else None.

Fixpoint number (acc : Z) (s : string) : option Z :=
  match s with
  | EmptyString => Some acc
  | String c s' =>
      match digit c with
      | Some d => number (10 * acc + d)%Z s'
      | None => None
      end
  end.

Definition field (start len : nat) (s : string) : option Z :=
  let t := String.substring start len s in
  if String.length t =? len then number 0 t else None.

(** Days from 1970-01-01 to the given day of the proleptic Gregorian
    calendar. *)
Definition daysFromCivil (y m d : Z) : Z :=
  let y' := (if m <=? 2 then y - 1 else y)%Z in
  let era := (y' / 400)%Z in
  let yoe := (y' - era * 400)%Z in
  let mp := (if m <=? 2 then m + 9 else m - 3)%Z in
  let doy := ((153 * mp + 2) / 5 + d - 1)%Z in
  let doe := (yoe * 365 + yoe / 4 - yoe / 100 + doy)%Z in
  (era * 146097 + doe - 719468)%Z.

Definition sign (s : string) : option Z :=
  if String.eqb s "+" then Some 1%Z
  else if String.eqb s "-" then Some (-1)%Z else None.

(** [new Date(text).getTime()] for the two formats above; any other text is
    taken to be an invalid date, although node reads a date from some texts
    of other shapes.  The samples use dates of the two formats, and texts
    without a digit, which node does not read as a date either. *)
Definition parseDate (text : string) : option Z :=
  let strict := String.eqb (String.substring 10 1 text) "T" in
  let zone := if strict then 19 else 20 in
  if negb ((String.length text =? 25)
           && String.eqb (String.substring 4 1 text) "-"
           && String.eqb (String.substring 7 1 text) "-"
           && String.eqb (String.substring 13 1 text) ":"
           && String.eqb (String.substring 16 1 text) ":")
  then None
  else
    y ← field 0 4 text; mo ← field 5 2 text; d ← field 8 2 text;
    h ← field 11 2 text; mi ← field 14 2 text; sec ← field 17 2 text;
    sg ← sign (String.substring zone 1 text);
    zh ← field (zone + 1) 2 text; zm ← field 23 2 text;
    Some ((((daysFromCivil y mo d * 24 + h) * 60 + mi) * 60 + sec
           - sg * (zh * 60 + zm) * 60) * 1000)%Z.

(** ** The environment *)

Definition hasSubstring (p s : string) : bool :=
  match String.index 0 p s with Some _ => true | None => false end.

(** [new RegExp(pattern).test(text)] for a pattern made of literal
    characters followed by [.*]: the characters are compared as they are,
    so this is the test of a real [RegExp] only for patterns without a
    character that a regular expression reads specially ([.], brackets and
    the like), as the patterns of the samples are. *)
Definition testRegExp (pattern text : string) : Try bool :=
  let n := String.length pattern in
  if String.eqb (String.substring (n - 2) 2 pattern) ".*"
  then Done (hasSubstring (String.substring 0 (n - 2) pattern) text)
  else Done (hasSubstring pattern text).

Definition env (repo : Repo) (token : option string) (clock : Z) : Env :=
  {| currentBranch := Done (checkedOut repo);
     statusIsClean := Done (clean repo);
     fetch := Done tt;
     branchAll := Done (map fst (heads repo)
                        ++ map (λ r, "remotes/origin/" +:+ fst r) (remotes repo));
     branchRemote := Done (map (λ r, "origin/" +:+ fst r) (remotes repo));
     raw := runRaw repo;
     log := runLog repo;
     checkout := λ _, Done tt;
     push := λ _ _, Done tt;
     getConfig := λ _, Done (originUrl repo);
     pullsCreate := λ pr, Done (1%Z, "https://github.com/" +:+ pr_owner pr
                                     +:+ "/" +:+ pr_repo pr +:+ "/pull/1");
     githubToken := token;
     now := clock;
     dateTime := parseDate;
     regExpTest := testRegExp |}.

End Git.

(** * The earlier revision of the command

    The first version of [create-staging-pr.ts], [src/unnamed/part_000],
    took its commits from one branch with a single call (its lines
    84-87). *)

Module Legacy.

Definition getFeatureCommits (env : Env) (options : Options) (feature : string)
  : Proc (list LogLine) :=
  call (GitLog ("origin/" +:+ developBranch options) ("origin/" +:+ feature))
    (log env ("origin/" +:+ developBranch options) ("origin/" +:+ feature)).

End Legacy.

(** * Sample repositories and invocations *)

Module Samples.
Import Git.

Definition defaults : Options :=
  {| featureBranch := None; stagingBranch := "staging";
     developBranch := "develop"; dryRun := false; includeMerges := false;
     firstParent := false; includeSubBranches := false;
     subBranchPattern := None; branches := None |}.

Definition commit (id : string) (ps : list string) (text date : string)
  : Object :=
  {| oid := id; parents := ps; subject := text; authorName := "Dev";
     authorDate := date; decoration := EmptyString |}.

Definition commitA : Object := commit "a0a0a0a0a0a0" [] "initial" "2024-01-01 09:00:00 +0000".
Definition commitB : Object := commit "b1b1b1b1b1b1" ["a0a0a0a0a0a0"] "add parser" "2024-01-02 09:00:00 +0000".
Definition commitC : Object := commit "c2c2c2c2c2c2" ["b1b1b1b1b1b1"] "add printer" "2024-01-03 09:00:00 +0000".

(** Staging holds [commitA]; the feature branch holds [commitA], [commitB] and [commitC]. *)
Definition linear : Repo :=
  {| objects := [commitC; commitB; commitA];
     heads := [("feat/x", "c2c2c2c2c2c2")];
     remotes := [("staging", "a0a0a0a0a0a0"); ("develop", "a0a0a0a0a0a0");
                 ("feat/x", "c2c2c2c2c2c2")];
     checkedOut := "feat/x"; clean := true;
     originUrl := Some "git@github.com:gifaeriyanto/pr-utils.git" |}.

Definition commitH1 : Object := commit "1111111111aa" ["a0a0a0a0a0a0"] "shared work" "2024-02-01 10:00:00 +0700".
Definition commitH2 : Object := commit "2222222222bb" ["1111111111aa"] "more work" "2024-02-02 10:00:00 +0700".

(** [featX] holds [commitH1]; [featY] holds [commitH1] and [commitH2]. *)
Definition shared : Repo :=
  {| objects := [commitH2; commitH1; commitA];
     heads := [];
     remotes := [("staging", "a0a0a0a0a0a0"); ("develop", "a0a0a0a0a0a0");
                 ("featX", "1111111111aa"); ("featY", "2222222222bb")];
     checkedOut := "main"; clean := true;
     originUrl := Some "https://github.com/gifaeriyanto/pr-utils" |}.

Definition explicitXY : Options :=
  {| featureBranch := None; stagingBranch := "staging";
     developBranch := "develop"; dryRun := false; includeMerges := false;
     firstParent := false; includeSubBranches := false;
     subBranchPattern := None; branches := Some "featX, featY" |}.

(** An explicit list together with a feature branch option. *)
Definition explicitWithFeature : Options :=
  {| featureBranch := Some "featY"; stagingBranch := "staging";
     developBranch := "develop"; dryRun := false; includeMerges := false;
     firstParent := false; includeSubBranches := false;
     subBranchPattern := None; branches := Some "featX, featY" |}.

(** One of the listed branches does not exist on the remote. *)
Definition explicitMissing : Options :=
  {| featureBranch := None; stagingBranch := "staging";
     developBranch := "develop"; dryRun := false; includeMerges := false;
     firstParent := false; includeSubBranches := false;
     subBranchPattern := None; branches := Some "featX,gone,featY" |}.

Definition commitD : Object := commit "d3d3d3d3d3d3" ["a0a0a0a0a0a0"] "develop work" "2024-01-02 12:00:00 +0000".
Definition commitM : Object :=
  commit "e4e4e4e4e4e4" ["b1b1b1b1b1b1"; "d3d3d3d3d3d3"]
    "Merge branch 'develop' into feat/x" "2024-01-04 09:00:00 +0000".

(** The feature branch ends in a merge commit [commitM] of [commitB] and [commitD]. *)
Definition withMerge : Repo :=
  {| objects := [commitM; commitD; commitB; commitA];
     heads := [("feat/x", "e4e4e4e4e4e4")];
     remotes := [("staging", "a0a0a0a0a0a0"); ("develop", "d3d3d3d3d3d3");
                 ("feat/x", "e4e4e4e4e4e4")];
     checkedOut := "feat/x"; clean := true;
     originUrl := Some "git@github.com:gifaeriyanto/pr-utils.git" |}.

Definition commitP : Object := commit "f5f5f5f5f5f5" ["b1b1b1b1b1b1"] "parse a|b alternatives" "2024-01-03 08:00:00 +0000".

(** The newest commit of the feature branch has a [|] in its subject. *)
Definition withPipe : Repo :=
  {| objects := [commitP; commitB; commitA];
     heads := [("feat/x", "f5f5f5f5f5f5")];
     remotes := [("staging", "a0a0a0a0a0a0"); ("develop", "a0a0a0a0a0a0");
                 ("feat/x", "f5f5f5f5f5f5")];
     checkedOut := "feat/x"; clean := true;
     originUrl := Some "git@github.com:gifaeriyanto/pr-utils.git" |}.

Definition commitS : Object := commit "5a5a5a5a5a5a" ["a0a0a0a0a0a0"] "hotfix on staging" "2024-01-05 09:00:00 +0000".

(** Staging has moved on to [commitS] since the feature branch left it at [commitA]. *)
Definition diverged : Repo :=
  {| objects := [commitS; commitB; commitA];
     heads := [("feat/x", "b1b1b1b1b1b1")];
     remotes := [("staging", "5a5a5a5a5a5a"); ("develop", "a0a0a0a0a0a0");
                 ("feat/x", "b1b1b1b1b1b1")];
     checkedOut := "feat/x"; clean := true;
     originUrl := Some "git@github.com:gifaeriyanto/pr-utils.git" |}.

Definition withMerges : Options :=
  {| featureBranch := None; stagingBranch := "staging";
     developBranch := "develop"; dryRun := true; includeMerges := true;
     firstParent := false; includeSubBranches := false;
     subBranchPattern := None; branches := None |}.

(** The feature branch has nothing that staging lacks. *)
Definition upToDate : Repo :=
  {| objects := [commitA];
     heads := [("feat/x", "a0a0a0a0a0a0")];
     remotes := [("staging", "a0a0a0a0a0a0"); ("develop", "a0a0a0a0a0a0");
                 ("feat/x", "a0a0a0a0a0a0")];
     checkedOut := "feat/x"; clean := true;
     originUrl := Some "git@github.com:gifaeriyanto/pr-utils.git" |}.

(** Two branches that start with the name of the feature branch. *)
Definition withSubBranches : Repo :=
  {| objects := [commitC; commitB; commitA];
     heads := [("feat/x", "b1b1b1b1b1b1")];
     remotes := [("staging", "a0a0a0a0a0a0"); ("develop", "a0a0a0a0a0a0");
                 ("feat/x", "b1b1b1b1b1b1"); ("feat/x-ui", "c2c2c2c2c2c2");
                 ("fix/y", "a0a0a0a0a0a0")];
     checkedOut := "feat/x"; clean := true;
     originUrl := Some "git@github.com:gifaeriyanto/pr-utils.git" |}.

Definition subBranches : Options :=
  {| featureBranch := Some "feat/x"; stagingBranch := "staging";
     developBranch := "develop"; dryRun := true; includeMerges := false;
     firstParent := false; includeSubBranches := true;
     subBranchPattern := None; branches := None |}.

Definition dry : Options :=
  {| featureBranch := Some "feat/x"; stagingBranch := "staging";
     developBranch := "develop"; dryRun := true; includeMerges := false;
     firstParent := false; includeSubBranches := false;
     subBranchPattern := None; branches := None |}.

Definition onStaging : Options :=
  {| featureBranch := Some "staging"; stagingBranch := "staging";
     developBranch := "develop"; dryRun := false; includeMerges := false;
     firstParent := false; includeSubBranches := false;
     subBranchPattern := None; branches := None |}.

Definition clock : Z := 1700000000000.

End Samples.

(** * Further observations *)

(** The events that report a failure, and the lines printed to the
    console. *)
Definition isFailure (e : Event) : bool :=
  match e with ConsoleError _ | SpinnerFail _ => true | _ => false end.

Definition isConsoleLog (e : Event) : bool :=
  match e with ConsoleLog _ => true | _ => false end.

(** The trace ends with the report of a failure, followed by nothing but
    lines printed to the console. *)
Definition endsWithReport (es : list Event) : Prop :=
  ∃ es1 e es2,
    es = es1 ++ e :: es2 ∧ isFailure e = true
    ∧ Forall (λ x, isConsoleLog x = true) es2.

(** Every [process.exit] of [m] has code 1 and comes after the report of a
    failure. *)
Definition exitsWithOne {A : Type} (m : Proc A) : Prop :=
  ∀ s c, result m s = Exited c → c = 1%Z ∧ endsWithReport (trace (after m s)).

(** The events of a trace that change the repository or the hosting
    service. *)
Definition published (es : list Event) : list Event :=
  filter (λ e, publishes e = true) es.

Definition dot : ascii := chr 46.
Definition dash : ascii := chr 45.

(** The time at which the commit [id] of a sample repository was authored,
    as git holds it. *)
Definition authoredTime (repo : Git.Repo) (id : string) : option Z :=
  Git.object repo id ≫= λ o, Git.parseDate (Git.authorDate o).

(** * The publication, read as events *)

(** The call of line 310 for a commit, and whether git applies it. *)
Definition pickEvent (commit : Commit) : Event :=
  GitRaw ["cherry-pick"; hash commit].

Definition applies (env : Env) (commit : Commit) : Prop :=
  ∃ out, raw env ["cherry-pick"; hash commit] = Done out.

(** Lines 313-321: what is reported when a cherry-pick fails. *)
Definition conflictReport (commit : Commit) (error : string) : list Event :=
  [SpinnerFail
     ("Failed to cherry-pick commit " +:+ hash commit +:+ ": " +:+ error);
   ConsoleLog "You may need to resolve conflicts manually and continue with:";
   ConsoleLog "  git cherry-pick --continue";
   ConsoleLog "Or abort with:";
   ConsoleLog "  git cherry-pick --abort"].

Section Publication.
Context (env : Env) (options : Options).

(** Lines 298-301 and 329. *)
Definition branchCreation (feature : string) : Event :=
  GitCheckout ["-b"; stagingPRBranchName env feature;
               "origin/" +:+ stagingBranch options].

Definition branchPush (feature : string) : Event :=
  GitPush "origin" (stagingPRBranchName env feature).

(** Lines 361-393: the request sent for the repository [owner]/[repo]. *)
Definition pullRequest (feature : string) (branchesToProcess : list string)
    (owner repo : string) (all : list Commit) : PullRequest :=
  {| pr_owner := owner;
     pr_repo := replace ".git" EmptyString repo;
     pr_title := "Cherry-pick changes from "
                 +:+ branchList feature branchesToProcess +:+ " to staging";
     pr_head := stagingPRBranchName env feature;
     pr_base := stagingBranch options;
     pr_body := prBody feature branchesToProcess all |}.

(** The calls of lines 297-330 for the changeset [all]: the branch, the
    commits in the order of the array, the push. *)
Definition publication (feature : string) (all : list Commit) : list Event :=
  branchCreation feature :: map pickEvent all ++ [branchPush feature].

(** Lines 334-341: what is printed when there is no token. *)
Definition manualInstructions (feature : string) : list Event :=
  [ConsoleLog
     (str1 nl +:+ "GITHUB_TOKEN not found. Please create PR manually:");
   ConsoleLog
     ("  gh pr create --base " +:+ stagingBranch options +:+ " --head "
      +:+ stagingPRBranchName env feature +:+ " --title " +:+ dquote
      +:+ "Cherry-pick changes from " +:+ feature +:+ " to staging"
      +:+ dquote +:+ " --body " +:+ dquote
      +:+ "Cherry-picked commits from " +:+ feature +:+ dquote)].

(** Lines 349-356: what is printed when the URL of [origin] is not one of
    GitHub. *)
Definition unparsedRemote (feature : string) : list Event :=
  [ConsoleLog "Could not parse GitHub repository from remote URL";
   ConsoleLog
     ("Please create PR manually from branch '"
      +:+ stagingPRBranchName env feature +:+ "' to '"
      +:+ stagingBranch options +:+ "'")].

End Publication.

(** The options with the flag [--dry-run] set or not. *)
Definition withDryRun (flag : bool) (options : Options) : Options :=
  {| featureBranch := featureBranch options;
     stagingBranch := stagingBranch options;
     developBranch := developBranch options;
     dryRun := flag;
     includeMerges := includeMerges options;
     firstParent := firstParent options;
     includeSubBranches := includeSubBranches options;
     subBranchPattern := subBranchPattern options;
     branches := branches options |}.

(** Events that neither publish nor read the configuration of git. *)
Definition quiet (es : list Event) : Prop :=
  Forall (λ e, publishes e = false ∧ ∀ key, e ≠ GitGetConfig key) es.

(** Lines 117-137: the report of a branch that is not in the list of
    branches, and the three branches in the order they are looked up. *)
Definition notFound (kind name : string) : Event :=
  SpinnerFail (kind +:+ " branch '" +:+ name +:+ "' not found").

Definition requiredBranches (options : Options) (feature : string)
  : list (string * string) :=
  [("Feature", feature); ("Staging", stagingBranch options);
   ("Develop", developBranch options)].

(** * The formatted log

    What [git log --format=%H|%s|%an|%ad|%d] prints for a commit, and for a
    list of commits: one line each. *)
Definition formatCommit (commit : Commit) : string :=
  hash commit +:+ "|" +:+ message commit +:+ "|" +:+ author_name commit
  +:+ "|" +:+ date commit +:+ "|" +:+ refs commit.

Definition formatLog (commits : list Commit) : string :=
  foldr (λ commit out, formatCommit commit +:+ String nl out) EmptyString
    commits.

(** A commit whose fields can be told apart in the formatted log: no field
    has a [|] or a line break, the hash starts with a character that is not
    white space and the decoration does not end with white space. *)
Definition plainField (s : string) : Prop :=
  contains pipe s = false ∧ contains nl s = false.

Definition readable (commit : Commit) : Prop :=
  plainField (hash commit) ∧ plainField (message commit)
  ∧ plainField (author_name commit) ∧ plainField (date commit)
  ∧ plainField (refs commit)
  ∧ (∃ c h, hash commit = String c h ∧ isSpace c = false)
  ∧ trimEnd (refs commit) = refs commit
  ∧ author_date commit = None.

(** * The earlier revision of the command, in full

    [src/unnamed/part_000]: one feature branch, the range taken from the
    develop branch, no sort.  Its lines 24-78 and 112 are the same as in the
    later revision and are embedded by the same definitions;
    [featureCommits.total] is the length of [featureCommits.all].  The array
    [featureCommits.all] is only read: both reversals work on a copy made by
    a spread expression that nothing else can reach. *)

Module FirstRevision.
Section Command.
Context (env : Env) (options : Options).

(** Lines 18-22. *)
Definition resolveFeatureBranch : Proc string :=
  if negb (given (featureBranch options)) then
    current <- call (GitBranch []) (currentBranch env) ;;
    emit (ConsoleLog ("Using current branch: " +:+ current)) ;;
    ret current
  else ret (default EmptyString (featureBranch options)).

(** Lines 80-82. *)
Definition gettingCommits (feature : string) : Event :=
  SpinnerStart
    ("Getting commits from " +:+ feature +:+ " that are not in "
     +:+ developBranch options +:+ "...").

(** Lines 89-96. *)
Definition requireCommits (feature : string) (all : list LogLine)
  : Proc unit :=
  (if length all =? 0 then
     emit (SpinnerFail
             ("No commits found in " +:+ feature +:+ " that are not in "
              +:+ developBranch options)) ;;
     exit 1
   else ret tt) ;;
  emit (SpinnerSucceed
          ("Found " +:+ pretty (length all) +:+ " commits to cherry-pick")).

Definition commitLine (index : nat) (commit : LogLine) : string :=
  pretty (index + 1) +:+ ". " +:+ substring0 7 (ll_hash commit) +:+ " - "
  +:+ ll_message commit.

(** Lines 98-105. *)
Definition displayCommits (all : list LogLine) : Proc unit :=
  emit (ConsoleLog "Commits to be cherry-picked:") ;;
  forEachFrom 0 (rev all) (fun index commit =>
    emit (ConsoleLog ("  " +:+ commitLine index commit))).

(** Lines 128-141: one round of the cherry-pick loop. *)
Definition cherryPick (commit : LogLine) : Proc unit :=
  tryCatch
    (call (GitRaw ["cherry-pick"; ll_hash commit])
       (raw env ["cherry-pick"; ll_hash commit]) ;;
     ret tt)
    (fun error =>
       emit (SpinnerFail
               ("Failed to cherry-pick commit " +:+ ll_hash commit +:+ ": "
                +:+ error)) ;;
       emit (ConsoleLog
               "You may need to resolve conflicts manually and continue with:") ;;
       emit (ConsoleLog "  git cherry-pick --continue") ;;
       emit (ConsoleLog "Or abort with:") ;;
       emit (ConsoleLog "  git cherry-pick --abort") ;;
       exit 1).

(** Lines 187-192. *)
Definition prBody (feature : string) (all : list LogLine) : string :=
  "Cherry-picked changes from " +:+ feature +:+ " to staging"
  +:+ str1 nl +:+ str1 nl
  +:+ "## Commits included:" +:+ str1 nl
  +:+ join (str1 nl) (imap commitLine all)
  +:+ str1 nl +:+ str1 nl +:+ "---" +:+ str1 nl
  +:+ "*Generated by pr-utils*".

(** Lines 150-206. *)
Definition requestPR (feature stagingPRBranch : string) (all : list LogLine)
  : Proc unit :=
  if negb (given (githubToken env)) then
    emit (ConsoleLog
            (str1 nl +:+ "GITHUB_TOKEN not found. Please create PR manually:")) ;;
    emit (ConsoleLog
            ("  gh pr create --base " +:+ stagingBranch options +:+ " --head "
             +:+ stagingPRBranch +:+ " --title " +:+ dquote
             +:+ "Cherry-pick changes from " +:+ feature +:+ " to staging"
             +:+ dquote +:+ " --body " +:+ dquote
             +:+ "Cherry-picked commits from " +:+ feature +:+ dquote))
  else
    remoteUrl <- call (GitGetConfig "remote.origin.url")
                   (getConfig env "remote.origin.url") ;;
    match remoteUrl ≫= matchRemote with
    | None =>
        emit (ConsoleLog "Could not parse GitHub repository from remote URL") ;;
        emit (ConsoleLog
                ("Please create PR manually from branch '" +:+ stagingPRBranch
                 +:+ "' to '" +:+ stagingBranch options +:+ "'"))
    | Some (owner, repo) =>
        let repoName := replace ".git" EmptyString repo in
        emit (SpinnerStart "Creating GitHub PR...") ;;
        let request :=
          {| pr_owner := owner;
             pr_repo := repoName;
             pr_title := "Cherry-pick changes from " +:+ feature
                         +:+ " to staging";
             pr_head := stagingPRBranch;
             pr_base := stagingBranch options;
             pr_body := prBody feature all |} in
        pr <- call (PullsCreate request) (pullsCreate env request) ;;
        emit (SpinnerSucceed
                ("Created PR #" +:+ pretty (fst pr) +:+ ": " +:+ snd pr)) ;;
        emit (ConsoleLog
                (str1 nl +:+ check_mark +:+ " Successfully created staging PR!")) ;;
        emit (ConsoleLog ("   PR URL: " +:+ snd pr))
    end.

(** Lines 112-206. *)
Definition publish (feature : string) (all : list LogLine) : Proc unit :=
  let stagingPRBranch := stagingPRBranchName env feature in
  emit (SpinnerStart
          ("Creating new branch '" +:+ stagingPRBranch +:+ "' from "
           +:+ stagingBranch options +:+ "...")) ;;
  call (GitCheckout ["-b"; stagingPRBranch; "origin/" +:+ stagingBranch options])
    (checkout env ["-b"; stagingPRBranch; "origin/" +:+ stagingBranch options]) ;;
  emit (SpinnerSucceed ("Created branch '" +:+ stagingPRBranch +:+ "'")) ;;
  emit (SpinnerStart "Cherry-picking commits...") ;;
  let commitsToPickReversed := rev all in
  forOf commitsToPickReversed cherryPick ;;
  emit (SpinnerSucceed "All commits cherry-picked successfully") ;;
  emit (SpinnerStart
          ("Pushing branch '" +:+ stagingPRBranch +:+ "' to origin...")) ;;
  call (GitPush "origin" stagingPRBranch) (push env "origin" stagingPRBranch) ;;
  emit (SpinnerSucceed
          ("Pushed branch '" +:+ stagingPRBranch +:+ "' to origin")) ;;
  requestPR feature stagingPRBranch all.

(** Lines 80-206: what follows the checks, for the feature branch they
    were made for. *)
Definition proceed (feature : string) : Proc unit :=
  emit (gettingCommits feature) ;;
  all <- Legacy.getFeatureCommits env options feature ;;
  requireCommits feature all ;;
  displayCommits all ;;
  if dryRun options then emit dryRunCompleted
  else publish feature all.

(** Lines 13-212. *)
Definition createStagingPR : Proc unit :=
  tryCatch
    (feature <- resolveFeatureBranch ;;
     rejectProtected options feature ;;
     checkStatus env ;;
     fetchLatest env ;;
     checkBranchesExist env options feature ;;
     proceed feature)
    (fun error =>
       emit (SpinnerFail ("Error: " +:+ error)) ;;
       exit 1).

End Command.
End FirstRevision.

(** [m] hands a prefix of [hashes] to [git cherry-pick], in this order, and
    all of them when it returns. *)
Definition picksPrefix (hashes : list string) (m : Proc unit) : Prop :=
  ∀ s, ∃ n,
    picked (trace (after m s)) = picked (trace s) ++ take n hashes
    ∧ (result m s = Value tt → n = length hashes).

(** Two stores hold the same changeset. *)
Definition sameChangeset (s1 s2 : Store) : Prop :=
  allCommits s1 = allCommits s2 ∧ commitHashes s1 = commitHashes s2.

(** * Sample failures *)

Module Faults.
Import Git Samples.

(** The record the command builds from the formatted log for a commit
    whose subject has no [|]. *)
Definition read (o : Object) (b : string) : Commit :=
  {| hash := oid o; message := subject o; author_name := authorName o;
     date := authorDate o; refs := decorated o; author_date := None;
     branch := b |}.

(** An environment in which git does not apply the commit [id]. *)
Definition conflictAt (id : string) (env : Env) : Env :=
  {| currentBranch := currentBranch env;
     statusIsClean := statusIsClean env;
     fetch := fetch env;
     branchAll := branchAll env;
     branchRemote := branchRemote env;
     raw := λ args,
       if bool_decide (args = ["cherry-pick"; id])
       then Raised "Error: CONFLICT (content): Merge conflict in parser.ts"
       else raw env args;
     log := log env;
     checkout := checkout env;
     push := push env;
     getConfig := getConfig env;
     pullsCreate := pullsCreate env;
     githubToken := githubToken env;
     now := now env;
     dateTime := dateTime env;
     regExpTest := regExpTest env |}.

(** [linear] with a change that is not committed. *)
Definition dirty : Repo :=
  {| objects := objects linear; heads := heads linear;
     remotes := remotes linear; checkedOut := checkedOut linear;
     clean := false; originUrl := originUrl linear |}.

(** The staging branch is called [release], which [linear] does not have. *)
Definition toRelease : Options :=
  {| featureBranch := None; stagingBranch := "release";
     developBranch := "develop"; dryRun := false; includeMerges := false;
     firstParent := false; includeSubBranches := false;
     subBranchPattern := None; branches := None |}.

End Faults.

(** * Facts about strings *)

Lemma split_cons_sep sep s :
  split sep (String sep s) = EmptyString :: split sep s.
Proof. simpl. by rewrite Ascii.eqb_refl. Qed.

Lemma split_nonempty sep s : split sep s ≠ [].
Proof.
  induction s as [|c s IH]; simpl; [done|].
  destruct (Ascii.eqb c sep); [done|]. by destruct (split sep s).
Qed.

Lemma contains_cons c d s :
  contains c (String d s) = false → d ≠ c ∧ contains c s = false.
Proof.
  unfold contains. simpl. rewrite !bool_decide_eq_false.
  intros H. split; intros ?; apply H; subst; [left | by right].
Qed.

(** Splitting [a ++ sep ++ b] when [a] holds no separator. *)
Lemma split_app sep a b :
  contains sep a = false →
  split sep (a +:+ String sep b) = a :: split sep b.
Proof.
  induction a as [|c a IH]; intros Ha.
  - apply split_cons_sep.
  - apply contains_cons in Ha as [Hc Ha]. simpl.
    destruct (Ascii.eqb_spec c sep) as [->|_]; [done|].
    change (append a (String sep b)) with (a +:+ String sep b).
    by rewrite IH.
Qed.

Lemma append_assoc (a b c : string) : (a +:+ b) +:+ c = a +:+ b +:+ c.
Proof.
  induction a as [|x a IH]; [done|].
  change (String x (a +:+ b) +:+ c = String x (a +:+ b +:+ c)).
  change (String x ((a +:+ b) +:+ c) = String x (a +:+ b +:+ c)).
  by rewrite IH.
Qed.

Lemma append_pipe (a : string) : "|" +:+ a = String pipe a.
Proof. reflexivity. Qed.

(** Splitting distributes over a separator, whatever stands before it. *)
Lemma split_sep sep a b :
  split sep (a +:+ String sep b) = split sep a ++ split sep b.
Proof.
  induction a as [|c a IH]; [apply split_cons_sep|].
  simpl. change (append a (String sep b)) with (a +:+ String sep b).
  rewrite IH. destruct (Ascii.eqb c sep); [done|].
  pose proof (split_nonempty sep a). by destruct (split sep a).
Qed.

(** Only the first occurrence of the pattern is replaced. *)
Lemma replace_first c rep a b :
  contains c a = false →
  replace (str1 c) rep (a +:+ String c b) = a +:+ rep +:+ b.
Proof.
  induction a as [|d a IH]; intros Ha.
  - change (EmptyString +:+ String c b) with (String c b).
    cbn [replace]. unfold str1. cbn [String.prefix].
    destruct (ascii_dec c c); [|done]. by destruct b.
  - apply contains_cons in Ha as [Hd Ha].
    change (String d a +:+ String c b) with (String d (a +:+ String c b)).
    cbn [replace]. unfold str1 at 1. cbn [String.prefix].
    destruct (ascii_dec c d) as [->|_]; [done|].
    change (String d a +:+ rep +:+ b) with (String d (a +:+ rep +:+ b)).
    f_equal. by apply IH.
Qed.


(** * Facts about the sort *)

Section SortFacts.
Context {A : Type} (key : A -> option Z).

Lemma sortCompare_pos x y :
  (0 < sortCompare (byKey key) x y)%Z →
  ∃ a b, key x = Some a ∧ key y = Some b ∧ (b < a)%Z.
Proof.
  unfold sortCompare, byKey.
  destruct (key x) as [a|], (key y) as [b|]; simpl; try lia.
  intros. exists a, b. repeat split; lia.
Qed.

Lemma insertSorted_perm (cmp : A -> A -> option Z) x l :
  insertSorted cmp x l ≡ₚ x :: l.
Proof.
  induction l as [|y l IH]; simpl; [done|].
  destruct (0 <? sortCompare cmp x y)%Z; [|done].
  rewrite IH. apply Permutation_swap.
Qed.

(** The sort rearranges the array, whatever the comparator answers. *)
Lemma arraySort_perm (cmp : A -> A -> option Z) l : arraySort cmp l ≡ₚ l.
Proof.
  induction l as [|x l IH]; simpl; [done|].
  by rewrite insertSorted_perm, IH.
Qed.

Lemma insertSorted_stable (k : option Z) x l :
  filter (λ a, key a = k) (insertSorted (byKey key) x l)
  = filter (λ a, key a = k) (x :: l).
Proof.
  induction l as [|y l IH]; simpl; [done|].
  destruct (0 <? sortCompare (byKey key) x y)%Z eqn:Hc; [|done].
  apply Z.ltb_lt, sortCompare_pos in Hc as (a & b & Ha & Hb & Hlt).
  rewrite filter_cons, IH, !filter_cons.
  destruct (decide (key y = k)), (decide (key x = k)); try done.
  exfalso. assert (a = b) by congruence. lia.
Qed.

(** Stability: the elements with one and the same key keep their order. *)
Lemma arraySort_stable (k : option Z) l :
  filter (λ a, key a = k) (arraySort (byKey key) l) = filter (λ a, key a = k) l.
Proof.
  induction l as [|x l IH]; simpl; [done|].
  rewrite insertSorted_stable, !filter_cons, IH. done.
Qed.

Lemma keyLe_trans a b c : (keyLe key) a b → (keyLe key) b c → (keyLe key) a c.
Proof.
  unfold keyLe. destruct (key a), (key b), (key c); try done. lia.
Qed.

Lemma insertSorted_sorted x l :
  is_Some (key x) → Forall (λ a, is_Some (key a)) l →
  StronglySorted (keyLe key) l → StronglySorted (keyLe key) (insertSorted (byKey key) x l).
Proof.
  intros [kx Hx] Hl Hs. induction Hs as [|y l Hs IH Hy]; simpl.
  - repeat constructor.
  - apply Forall_cons in Hl as [[ky Hky] Hl].
    destruct (0 <? sortCompare (byKey key) x y)%Z eqn:Hc.
    + apply Z.ltb_lt, sortCompare_pos in Hc as (a & b & Ha & Hb & Hlt).
      constructor; [by apply IH|].
      rewrite insertSorted_perm. constructor; [|done].
      unfold keyLe. rewrite Ha, Hb. lia.
    + apply Z.ltb_ge in Hc. unfold sortCompare, byKey in Hc.
      rewrite Hx, Hky in Hc. simpl in Hc.
      assert ((keyLe key) x y) as Hxy by (unfold keyLe; rewrite Hx, Hky; lia).
      constructor; [by constructor|].
      constructor; [done|].
      eapply Forall_impl; [exact Hy|]. intros z Hz.
      by eapply keyLe_trans.
Qed.

(** When every key is a number the sorted array is in ascending order. *)
Lemma arraySort_sorted l :
  Forall (λ a, is_Some (key a)) l → StronglySorted (keyLe key) (arraySort (byKey key) l).
Proof.
  induction l as [|x l IH]; simpl; intros Hl; [constructor|].
  apply Forall_cons in Hl as [Hx Hl].
  apply insertSorted_sorted; [done| |by apply IH].
  rewrite arraySort_perm. done.
Qed.

(** There is one ascending arrangement that keeps equal keys in their
    order: a stable sort has no freedom left. *)
Lemma stable_sorted_unique l1 l2 :
  StronglySorted (keyLe key) l1 → StronglySorted (keyLe key) l2 →
  (∀ k, filter (λ a, key a = k) l1 = filter (λ a, key a = k) l2) →
  l1 = l2.
Proof.
  intros H1. revert l2.
  induction H1 as [|x l1 H1 IH Hx]; intros l2 H2 Heq.
  - destruct l2 as [|y l2]; [done|].
    specialize (Heq (key y)). rewrite filter_cons in Heq.
    by destruct (decide (key y = key y)).
  - destruct H2 as [|y l2 H2 Hy].
    { specialize (Heq (key x)). rewrite filter_cons in Heq.
      by destruct (decide (key x = key x)). }
    assert (x ∈ y :: l2) as Hxin.
    { assert (x ∈ filter (λ a, key a = key x) (y :: l2)) as Hin.
      { rewrite <- Heq, filter_cons.
        destruct (decide (key x = key x)); [left | done]. }
      apply list_elem_of_filter in Hin as [_ ?]. done. }
    assert (y ∈ x :: l1) as Hyin.
    { assert (y ∈ filter (λ a, key a = key y) (x :: l1)) as Hin.
      { rewrite Heq, filter_cons.
        destruct (decide (key y = key y)); [left | done]. }
      apply list_elem_of_filter in Hin as [_ ?]. done. }
    assert (key x = key y) as Hk.
    { apply elem_of_cons in Hxin as [->|Hxin]; [done|].
      apply elem_of_cons in Hyin as [->|Hyin]; [done|].
      rewrite Forall_forall in Hx, Hy.
      specialize (Hx _ Hyin). specialize (Hy _ Hxin).
      unfold keyLe in Hx, Hy.
      destruct (key x), (key y); try done. f_equal. lia. }
    assert (x = y) as ->.
    { specialize (Heq (key y)). rewrite !filter_cons in Heq.
      rewrite Hk in Heq.
      destruct (decide (key y = key y)); [|done]. congruence. }
    f_equal. apply IH; [done|].
    intros k. specialize (Heq k). rewrite !filter_cons in Heq.
    destruct (decide (key y = k)); congruence.
Qed.
End SortFacts.

(** * Reasoning about procedures *)

Lemma bind_value_inv {A B} (m : Proc A) (k : A -> Proc B) s b s' :
  bind m k s = (Value b, s') →
  ∃ a s1, m s = (Value a, s1) ∧ k a s1 = (Value b, s').
Proof.
  unfold bind. destruct (m s) as [[a|e|c] s1]; [|done..]. eauto.
Qed.


Lemma bind_value {A B} (m : Proc A) (k : A -> Proc B) s a s' :
  m s = (Value a, s') → bind m k s = k a s'.
Proof. unfold bind. by intros ->. Qed.

Lemma bind_thrown {A B} (m : Proc A) (k : A -> Proc B) s e s' :
  m s = (Thrown e, s') → bind m k s = (Thrown e, s').
Proof. unfold bind. by intros ->. Qed.

Lemma bind_exited {A B} (m : Proc A) (k : A -> Proc B) s c s' :
  m s = (Exited c, s') → bind m k s = (Exited c, s').
Proof. unfold bind. by intros ->. Qed.

Section Steps.
Context (R : relation Store) `{!PreOrder R}.

Lemma steps_ret {A} (a : A) : steps R (ret a).
Proof. intros s. unfold after. simpl. reflexivity. Qed.

Lemma steps_throw {A} e : steps R (@throw A e).
Proof. intros s. unfold after. simpl. reflexivity. Qed.

Lemma steps_exit {A} c : steps R (@exit A c).
Proof. intros s. unfold after. simpl. reflexivity. Qed.

Lemma steps_lift {A} (r : Try A) : steps R (lift r).
Proof. destruct r; [apply steps_ret | apply steps_throw]. Qed.

Lemma steps_readArray a : steps R (readArray a).
Proof. intros s. unfold after. simpl. reflexivity. Qed.

Lemma steps_hasHash h : steps R (hasHash h).
Proof. intros s. unfold after. simpl. reflexivity. Qed.

Lemma steps_bind {A B} (m : Proc A) (k : A -> Proc B) :
  steps R m → (∀ a, steps R (k a)) → steps R (bind m k).
Proof.
  intros Hm Hk s. specialize (Hm s). unfold after, bind in *.
  destruct (m s) as [[a|e|c] s1]; simpl in *; [|done..].
  etrans; [exact Hm|]. apply Hk.
Qed.

Lemma steps_tryCatch {A} (m : Proc A) (h : string -> Proc A) :
  steps R m → (∀ e, steps R (h e)) → steps R (tryCatch m h).
Proof.
  intros Hm Hh s. specialize (Hm s). unfold after, tryCatch in *.
  destruct (m s) as [[a|e|c] s1]; simpl in *; [done| |done].
  etrans; [exact Hm|]. apply Hh.
Qed.

Lemma steps_call {A} e (r : Try A) : steps R (emit e) → steps R (call e r).
Proof. intros He. apply steps_bind; [done|]. intros _. apply steps_lift. Qed.

Lemma steps_forOf {A} (l : list A) (f : A -> Proc unit) :
  (∀ x, steps R (f x)) → steps R (forOf l f).
Proof.
  intros Hf. induction l as [|x l IH]; simpl; [apply steps_ret|].
  apply steps_bind; [apply Hf | done].
Qed.

Lemma steps_forEachFrom {A} i (l : list A) (f : nat -> A -> Proc unit) :
  (∀ j x, steps R (f j x)) → steps R (forEachFrom i l f).
Proof.
  intros Hf. revert i.
  induction l as [|x l IH]; intros i; simpl; [apply steps_ret|].
  apply steps_bind; [apply Hf | done].
Qed.
End Steps.

Global Instance emits_preorder P : PreOrder (emits P).
Proof.
  split.
  - intros s. exists []. by rewrite app_nil_r.
  - intros s1 s2 s3 (es1 & H1 & F1) (es2 & H2 & F2). exists (es1 ++ es2).
    split; [by rewrite H2, H1, app_assoc | by apply Forall_app].
Qed.

Global Instance untouched_preorder : PreOrder untouched.
Proof.
  split; [by intros s |].
  intros s1 s2 s3 [H1 H1'] [H2 H2']. unfold untouched in *.
  split; congruence.
Qed.

(** Decomposes a procedure into its primitive steps. *)
Ltac steps_split :=
  repeat first
    [ apply steps_ret; apply _
    | apply steps_throw; apply _
    | apply steps_exit; apply _
    | apply steps_lift; apply _
    | apply steps_readArray; apply _
    | apply steps_hasHash; apply _
    | apply steps_bind; [apply _ | | intros ?]
    | apply steps_tryCatch; [apply _ | | intros ?]
    | apply steps_forOf; [apply _ | intros ?]
    | apply steps_forEachFrom; [apply _ | intros ? ?]
    | apply steps_call; [apply _ |]
    | match goal with
      | |- steps _ (if ?b then _ else _) => destruct b
      | |- steps _ (match ?x with _ => _ end) => destruct x
      | |- steps _ (let _ := _ in _) => cbv zeta
      end ].

Lemma steps_emit_emits (P : Event -> Prop) e : P e → steps (emits P) (emit e).
Proof.
  intros He s. unfold emits, after. simpl. exists [e].
  split; [done|]. by constructor.
Qed.

Lemma steps_array_emits (P : Event -> Prop) a v s : emits P s (setArray a v s).
Proof. unfold emits. exists []. destruct a; simpl; by rewrite app_nil_r. Qed.

Lemma steps_addHash_emits (P : Event -> Prop) h s : emits P s (addHash h s).
Proof. unfold emits. exists []. simpl. by rewrite app_nil_r. Qed.

(** A procedure all of whose events satisfy [P]. *)
Ltac emits_solve :=
  steps_split;
  try (apply steps_emit_emits; simpl; try done);
  try (intros ?; first [apply steps_array_emits | apply steps_addHash_emits]).

Global Instance silent_preorder : PreOrder silent.
Proof.
  split; [by intros s |].
  intros s1 s2 s3 [H1 H1'] [H2 H2']. unfold silent in *.
  split; congruence.
Qed.

Lemma steps_emit_silent e : pickedHash e = None → steps silent (emit e).
Proof.
  intros He s. unfold silent, after, picked. simpl.
  rewrite omap_app. simpl. rewrite He. by rewrite app_nil_r.
Qed.

(** A procedure that picks nothing and leaves [allCommits] alone. *)
Ltac silent_solve := steps_split; try (apply steps_emit_silent; done).

Lemma steps_emit_untouched e : steps untouched (emit e).
Proof. by intros s. Qed.

(** A procedure that writes neither [allCommits] nor [commitHashes]. *)
Ltac untouched_solve := steps_split; try apply steps_emit_untouched.

(** * The stages and their events *)

Section Stages.
Context (env : Env) (options : Options).

(** Before the dry-run decision nothing is published. *)
Lemma plan_publishes_nothing :
  steps (emits (λ e, publishes e = false)) (plan env options).
Proof.
  unfold plan, resolveBranches, resolveFeatureBranch, rejectProtected,
    checkStatus, fetchLatest, checkBranchesExist, determineBranches,
    findSubBranches, assemble, collectCommits, getBranchCommits, addUnique,
    sortCommits, requireCommits, displayCommits.
  emits_solve.
Qed.

Lemma byDate_byKey : byDate env = byKey (getTime env).
Proof. reflexivity. Qed.

Lemma getBranchCommits_run b s :
  getBranchCommits env options b s
  = (match branchLog env options b with
     | Done branchCommits => Value branchCommits
     | Raised e => Thrown e
     end, record (logQuery options b) s).
Proof.
  unfold getBranchCommits, branchLog, logQuery.
  destruct (0 <? length (additionalArgs options)).
  - unfold call, bind, emit, lift. simpl.
    by destruct (raw env (gitArgs options b)).
  - unfold call, bind, emit, lift. simpl.
    by destruct (log env _ _).
Qed.

Lemma reports_branchLog b cs :
  reports env options b cs ↔ branchLog env options b = Done cs.
Proof.
  unfold reports, result. split.
  - intros H. specialize (H initial). rewrite getBranchCommits_run in H.
    simpl in H. destruct (branchLog env options b); congruence.
  - intros H s. rewrite getBranchCommits_run, H. done.
Qed.


Lemma addUnique_run branchCommits s :
  addUnique branchCommits s = (Value tt, mergeInto branchCommits s).
Proof.
  revert s. induction branchCommits as [|c cs IH]; intros s; [done|].
  unfold addUnique in *. simpl. unfold bind at 1. unfold bind at 1.
  unfold hasHash. simpl.
  destruct (bool_decide (hash c ∈ commitHashes s)); simpl; apply IH.
Qed.

Lemma collectCommits_run branchesToProcess s :
  collectCommits env options branchesToProcess s
  = (Value tt, collected env options branchesToProcess s).
Proof.
  revert s. induction branchesToProcess as [|b bs IH]; intros s; [done|].
  unfold collectCommits in *. simpl. unfold bind at 1, tryCatch.
  unfold bind at 1. rewrite getBranchCommits_run. unfold collectedFrom.
  destruct (branchLog env options b) as [cs|e].
  - rewrite addUnique_run. apply IH.
  - unfold emit. apply IH.
Qed.

(** ** What [mergeInto] does to the store *)

Lemma mergeInto_trace cs s : trace (mergeInto cs s) = trace s.
Proof.
  revert s. induction cs as [|c cs IH]; intros s; simpl; [done|].
  rewrite IH. by destruct (bool_decide _).
Qed.

Lemma mergeInto_hashes cs s h :
  h ∈ commitHashes (mergeInto cs s) ↔ h ∈ commitHashes s ∨ h ∈ hash <$> cs.
Proof.
  revert s. induction cs as [|c cs IH]; intros s; simpl.
  - rewrite elem_of_nil. tauto.
  - rewrite IH, elem_of_cons. case_bool_decide as Hc; simpl.
    + split; [tauto|]. intros [?|[->|?]]; auto.
    + rewrite elem_of_union, elem_of_singleton. tauto.
Qed.

Lemma mergeInto_agree cs s : hashesAgree s → hashesAgree (mergeInto cs s).
Proof.
  revert s. induction cs as [|c cs IH]; intros s Hs; simpl; [done|].
  apply IH. case_bool_decide as Hc; [done|].
  destruct Hs as [Hnd Hag]. split; simpl.
  - rewrite fmap_app. simpl. apply NoDup_app. split; [done|].
    split; [|apply NoDup_singleton].
    intros h Hh ->%list_elem_of_singleton. apply Hc, Hag, Hh.
  - intros h. rewrite fmap_app, elem_of_app, elem_of_union, Hag. simpl.
    rewrite list_elem_of_singleton, elem_of_singleton. tauto.
Qed.

(** A commit of the array after [mergeInto] was there before, or is one of
    the merged commits and its hash was new. *)
Lemma mergeInto_elem cs s c :
  c ∈ allCommits (mergeInto cs s) →
  c ∈ allCommits s ∨ (c ∈ cs ∧ (hash c ∉ commitHashes s)).
Proof.
  revert s. induction cs as [|x cs IH]; intros s; simpl; [auto|].
  intros [Hin|[Hin Hh]]%IH.
  - case_bool_decide as Hx; [auto|]. simpl in Hin.
    apply elem_of_app in Hin as [?| ->%list_elem_of_singleton]; [auto|].
    right. split; [left | done].
  - right. split; [by right|].
    case_bool_decide; [done|]. simpl in Hh. set_solver.
Qed.

(** ** What the loop over the branches does to the store *)

Lemma branchLog_branch b cs c :
  branchLog env options b = Done cs → c ∈ cs → branch c = b.
Proof.
  unfold branchLog. destruct (0 <? length (additionalArgs options)).
  - destruct (raw env _); [|done]. intros [= <-].
    unfold parseRawOutput. intros (l & -> & _)%list_elem_of_fmap. done.
  - destruct (log env _ _); [|done]. intros [= <-].
    intros (l & -> & _)%list_elem_of_fmap. done.
Qed.

Lemma collectedFrom_hashes_mono b s h :
  h ∈ commitHashes s → h ∈ commitHashes (collectedFrom env options b s).
Proof.
  unfold collectedFrom. destruct (branchLog env options b); [|done].
  intros Hh. apply mergeInto_hashes. by left.
Qed.

Lemma collected_hashes_mono bs s h :
  h ∈ commitHashes s → h ∈ commitHashes (collected env options bs s).
Proof.
  revert s. induction bs as [|b bs IH]; intros s Hh; simpl; [done|].
  by apply IH, collectedFrom_hashes_mono.
Qed.



Lemma collectedFrom_agree b s :
  hashesAgree s → hashesAgree (collectedFrom env options b s).
Proof.
  unfold collectedFrom. intros Hs.
  destruct (branchLog env options b); [by apply mergeInto_agree | done].
Qed.

Lemma collected_agree bs s :
  hashesAgree s → hashesAgree (collected env options bs s).
Proof.
  revert s. induction bs as [|b bs IH]; intros s Hs; simpl; [done|].
  by apply IH, collectedFrom_agree.
Qed.


(** The hashes a branch reports are collected, whatever happens to the
    other branches. *)
Lemma collected_includes bs s b cs c :
  b ∈ bs → branchLog env options b = Done cs → c ∈ cs →
  hash c ∈ commitHashes (collected env options bs s).
Proof.
  revert s. induction bs as [|x bs IH]; intros s Hb Hcs Hc; [by apply elem_of_nil in Hb|].
  simpl. apply elem_of_cons in Hb as [<-|Hb]; [|by eapply IH].
  apply collected_hashes_mono. unfold collectedFrom. rewrite Hcs.
  apply mergeInto_hashes. right. apply list_elem_of_fmap. eauto.
Qed.

(** A commit of the array after the loop was there before, or was first
    seen on the branch it is tagged with. *)
Lemma collected_first_seen bs s c :
  c ∈ allCommits (collected env options bs s) →
  c ∈ allCommits s
  ∨ ((hash c ∉ commitHashes s) ∧ firstSeen env options bs c).
Proof.
  revert s. induction bs as [|b bs IH]; intros s; simpl; [auto|].
  intros [Hin|[Hnew (before & later & cs & -> & Hlog & Hc & Hbefore)]]%IH.
  - unfold collectedFrom in Hin.
    destruct (branchLog env options b) as [cs|e] eqn:Hlog; [|by left].
    apply mergeInto_elem in Hin as [Hin|[Hc Hnew]]; [by left|].
    right. split; [done|]. exists [], bs, cs.
    rewrite (branchLog_branch b cs c Hlog Hc).
    split_and!; [done|by apply reports_branchLog|done|].
    intros ? ? []%elem_of_nil.
  - right. split.
    { intros Hh. by apply Hnew, collectedFrom_hashes_mono. }
    exists (b :: before), later, cs. split_and!; [done..|].
    intros x xs [->|Hx]%elem_of_cons Hxs; [|by eapply Hbefore].
    apply reports_branchLog in Hxs.
    intros Hh. apply Hnew. unfold collectedFrom. rewrite Hxs.
    apply mergeInto_hashes. by right.
Qed.

Lemma isLogQuery_logQuery b : isLogQuery (logQuery options b) = true.
Proof. unfold logQuery. by destruct (0 <? length (additionalArgs options)). Qed.

(** One query for each branch, in the order of the branches. *)
Lemma collected_queries bs s :
  filter (λ e, isLogQuery e = true) (trace (collected env options bs s))
  = filter (λ e, isLogQuery e = true) (trace s) ++ map (logQuery options) bs.
Proof.
  revert s. induction bs as [|b bs IH]; intros s; simpl.
  - by rewrite app_nil_r.
  - rewrite IH. unfold collectedFrom.
    assert (filter (λ e, isLogQuery e = true) [logQuery options b]
            = [logQuery options b]) as Hq.
    { rewrite filter_cons, isLogQuery_logQuery. done. }
    destruct (branchLog env options b); simpl.
    + rewrite mergeInto_trace. simpl. rewrite filter_app, Hq.
      by rewrite <- app_assoc.
    + rewrite !filter_app, Hq. simpl. by rewrite app_nil_r, <- app_assoc.
Qed.

(** ** The later stages *)

Lemma sortCommits_run s :
  sortCommits env s
  = (Value tt, setArray AllCommits (arraySort (byDate env) (allCommits s)) s).
Proof. reflexivity. Qed.

Lemma requireCommits_run feature s :
  requireCommits options feature s
  = match allCommits s with
    | [] => (Exited 1, record (emptyChangesetError options feature) s)
    | _ :: _ => (Value tt,
                 record (SpinnerSucceed
                           ("Found " +:+ pretty (length (allCommits s))
                            +:+ " commits to cherry-pick")) s)
    end.
Proof. unfold requireCommits, bind, readArray. simpl. by destruct (allCommits s). Qed.

Lemma logged_nil s : logged [] s = s.
Proof. destruct s. unfold logged. simpl. by rewrite app_nil_r. Qed.

Lemma logged_record e es s : logged es (record e s) = logged (e :: es) s.
Proof. unfold logged, record. simpl. by rewrite <- app_assoc. Qed.

Lemma forEachFrom_emit {A} (g : nat -> A -> Event) i (l : list A) s :
  forEachFrom i l (λ j x, emit (g j x)) s
  = (Value tt, logged (imap (λ j, g (i + j)) l) s).
Proof.
  revert i s. induction l as [|x l IH]; intros i s; simpl.
  - by rewrite logged_nil.
  - unfold bind at 1. unfold emit at 1. rewrite IH, logged_record.
    do 3 f_equal; [by rewrite Nat.add_0_r|].
    apply imap_ext. intros j y _. simpl. f_equal. lia.
Qed.

Lemma displayCommits_run feature s :
  displayCommits feature s
  = (Value tt,
     logged (display feature (allCommits s))
       (setArray SpreadCopy (rev (allCommits s)) s)).
Proof.
  unfold displayCommits, display, bind, emit, spreadArray, reverseArray,
    readArray. simpl.
  rewrite (forEachFrom_emit (displayLine feature)).
  unfold logged, record. simpl. by rewrite <- app_assoc.
Qed.

(** [assemble] in one step: the loop, the sort, the check, the display. *)
Lemma assemble_run feature bs s :
  assemble env options feature bs s
  = let s2 := sortedStore env (merged env options feature bs s) in
    match allCommits s2 with
    | [] => (Exited 1, record (emptyChangesetError options feature) s2)
    | _ :: _ =>
        (Value tt,
         logged (display feature (allCommits s2))
           (setArray SpreadCopy (rev (allCommits s2))
              (record (SpinnerSucceed
                         ("Found " +:+ pretty (length (allCommits s2))
                          +:+ " commits to cherry-pick")) s2)))
    end.
Proof.
  unfold assemble. unfold bind at 1. unfold emit at 1.
  unfold bind at 1. rewrite collectCommits_run.
  unfold bind at 1. rewrite sortCommits_run.
  unfold bind at 1. rewrite requireCommits_run.
  fold (merged env options feature bs s).
  fold (sortedStore env (merged env options feature bs s)).
  cbv zeta.
  destruct (allCommits (sortedStore env (merged env options feature bs s)))
    as [|c cs] eqn:Hall; [done|].
  rewrite displayCommits_run. cbn [allCommits record]. by rewrite Hall.
Qed.

Lemma resolveBranches_untouched : steps untouched (resolveBranches env options).
Proof.
  unfold resolveBranches, resolveFeatureBranch, rejectProtected, checkStatus,
    fetchLatest, checkBranchesExist, determineBranches, findSubBranches.
  untouched_solve.
Qed.

Lemma finish_untouched feature bs : steps untouched (finish env options feature bs).
Proof.
  unfold finish, publish, cherryPickAll, cherryPick, requestPR.
  untouched_solve.
Qed.

(** ** Cherry-picking *)

Lemma picked_app es1 es2 : picked (es1 ++ es2) = picked es1 ++ picked es2.
Proof. apply omap_app. Qed.

Lemma pickedHash_publishes e h : pickedHash e = Some h → publishes e = true.
Proof.
  destruct e as [| | |args| | | | | | | | | | |]; try done.
  destruct args as [|verb [|h' [|]]]; try done. simpl.
  unfold publishes. simpl. by destruct (String.eqb verb "cherry-pick").
Qed.

Lemma picked_quiet es : Forall (λ e, publishes e = false) es → picked es = [].
Proof.
  induction 1 as [|e es He _ IH]; [done|]. unfold picked in *. simpl.
  destruct (pickedHash e) as [h|] eqn:Hp; [|done].
  apply pickedHash_publishes in Hp. congruence.
Qed.





Lemma cherryPickAll_run s :
  cherryPickAll env s
  = match forOf (allCommits s) (cherryPick env)
            (logged [SpinnerStart "Cherry-picking commits...";
                     ConsoleLog
                       ("Cherry-picking " +:+ pretty (length (allCommits s))
                        +:+ " commits in chronological order...")] s) with
    | (Value _, s') =>
        (Value tt,
         record (SpinnerSucceed "All commits cherry-picked successfully") s')
    | r => r
    end.
Proof.
  unfold cherryPickAll, bind, emit, readArray. simpl.
  rewrite <- !logged_record, logged_nil.
  by destruct (forOf (allCommits s) (cherryPick env) _) as [[[]|e|c] s'].
Qed.





(** ** The run as a whole *)

Lemma initial_agree : hashesAgree initial.
Proof.
  split; simpl; [constructor|]. intros h.
  rewrite elem_of_empty, elem_of_nil. done.
Qed.

Lemma sortedStore_agree s : hashesAgree s → hashesAgree (sortedStore env s).
Proof.
  intros [Hnd Hag]. unfold hashesAgree, sortedStore. simpl.
  assert (hash <$> arraySort (byDate env) (allCommits s)
          ≡ₚ hash <$> allCommits s) as Hp
    by (apply fmap_Permutation, arraySort_perm).
  split; [by rewrite Hp|]. intros h. by rewrite Hp.
Qed.

(** After [createStagingPR] the array is as [plan] left it. *)
Lemma run_changeset :
  allCommits (after (createStagingPR env options) initial)
  = allCommits (after (plan env options) initial).
Proof.
  unfold createStagingPR, tryCatch, body, after. unfold bind at 1.
  destruct (plan env options initial) as [[[feature bs]|e|c] s1]; simpl; [|done..].
  pose proof (finish_untouched feature bs s1) as [Hall _].
  unfold after in Hall.
  by destruct (finish env options feature bs s1) as [[[]|e|c] s2].
Qed.

(** The array after [plan]: empty when the branches could not be resolved,
    the sorted merge of the branches otherwise. *)
Lemma plan_changeset :
  match resolveBranches env options initial with
  | (Value (feature, bs), s0) =>
      hashesAgree s0 ∧ allCommits s0 = []
      ∧ allCommits (after (plan env options) initial)
        = allCommits (sortedStore env (merged env options feature bs s0))
  | (_, _) => allCommits (after (plan env options) initial) = []
  end.
Proof.
  pose proof (resolveBranches_untouched initial) as [Hall Hset].
  unfold plan, after in *.
  destruct (resolveBranches env options initial)
    as [[[feature bs]|e|c] s0] eqn:Hres; simpl in Hall, Hset.
  - rewrite (bind_value _ _ _ _ _ Hres). split_and!; [|done|].
    { destruct initial_agree as [Hnd Hag]. split; rewrite Hall; [done|].
      intros h. rewrite Hset. apply Hag. }
    unfold bind. simpl. rewrite assemble_run. cbv zeta.
    by destruct (allCommits (sortedStore env (merged env options feature bs s0))).
  - by rewrite (bind_thrown _ _ _ _ _ Hres).
  - by rewrite (bind_exited _ _ _ _ _ Hres).
Qed.

Lemma plan_run s :
  plan env options s
  = match resolveBranches env options s with
    | (Value resolved, s0) =>
        match assemble env options (fst resolved) (snd resolved) s0 with
        | (Value _, s1) => (Value resolved, s1)
        | (Thrown e, s1) => (Thrown e, s1)
        | (Exited c, s1) => (Exited c, s1)
        end
    | (Thrown e, s0) => (Thrown e, s0)
    | (Exited c, s0) => (Exited c, s0)
    end.
Proof.
  unfold plan, bind.
  destruct (resolveBranches env options s) as [[resolved|e|c] s0]; [|done..].
  by destruct (assemble env options (fst resolved) (snd resolved) s0)
    as [[[]|e|c] s1].
Qed.

Lemma createStagingPR_run s :
  createStagingPR env options s
  = match plan env options s with
    | (Value planned, s1) =>
        match finish env options (fst planned) (snd planned) s1 with
        | (Thrown e, s2) => (Exited 1, record (SpinnerFail ("Error: " +:+ e)) s2)
        | r => r
        end
    | (Thrown e, s1) => (Exited 1, record (SpinnerFail ("Error: " +:+ e)) s1)
    | (Exited c, s1) => (Exited c, s1)
    end.
Proof.
  unfold createStagingPR, tryCatch, body, bind.
  destruct (plan env options s) as [[planned|e|c] s1]; [|done..].
  by destruct (finish env options (fst planned) (snd planned) s1)
    as [[[]|e|c] s2].
Qed.

Lemma merged_agree feature bs s :
  hashesAgree s → hashesAgree (merged env options feature bs s).
Proof. intros Hs. apply collected_agree. exact Hs. Qed.
End Stages.


(** * The properties of the specification *)

(** C1.  Whatever the options and whatever git answers, no hash occurs twice
    in the changeset the run ends with, also when several source branches
    report the same commit; and every commit of the changeset carries the
    tag of the branch on which its hash was first seen in the order in
    which the branches are processed. *)
Theorem changeset_hashes_unique (env : Env) (options : Options) :
  let final := after (createStagingPR env options) initial in
  NoDup (hash <$> allCommits final)
  ∧ ∀ c, c ∈ allCommits final →
      ∃ feature branchesToProcess s0,
        resolveBranches env options initial
        = (Value (feature, branchesToProcess), s0)
        ∧ firstSeen env options branchesToProcess c.
Proof.
  cbv zeta. rewrite run_changeset.
  pose proof (plan_changeset env options) as Hplan.
  destruct (resolveBranches env options initial) as [[[feature bs]|e|c] s0].
  - destruct Hplan as (Hag & Hnil & ->). split.
    + by apply sortedStore_agree, merged_agree.
    + intros c Hc. exists feature, bs, s0. split; [done|].
      unfold sortedStore in Hc. simpl in Hc.
      rewrite arraySort_perm in Hc. unfold merged in Hc.
      apply collected_first_seen in Hc as [Hc|[_ Hc]]; [|done].
      simpl in Hc. rewrite Hnil in Hc. by apply elem_of_nil in Hc.
  - rewrite Hplan. split; [constructor|]. intros ? []%elem_of_nil.
  - rewrite Hplan. split; [constructor|]. intros ? []%elem_of_nil.
Qed.

(** X20.  After the commits of all branches have been merged, the changeset
    is the merged array rearranged by [sort].  When the date of every
    commit denotes a time, the changeset is in ascending order of time,
    oldest first, and commits with one and the same time keep the order in
    which they were inserted; the order is then determined by the merged
    array alone, for it is the only ascending arrangement that keeps
    commits of equal time in their order. *)
Theorem changeset_sorted_by_date (env : Env) (options : Options)
    (branchesToProcess : list string) (s : Store) :
  let inserted :=
    allCommits (after (collectCommits env options branchesToProcess) s) in
  let changeset :=
    allCommits
      (after (collectCommits env options branchesToProcess ;; sortCommits env) s) in
  changeset ≡ₚ inserted
  ∧ ((∀ c, c ∈ inserted → is_Some (getTime env c)) →
     StronglySorted (keyLe (getTime env)) changeset
     ∧ (∀ t, filter (λ c, getTime env c = t) changeset
             = filter (λ c, getTime env c = t) inserted)
     ∧ ∀ l, StronglySorted (keyLe (getTime env)) l →
            (∀ t, filter (λ c, getTime env c = t) l
                  = filter (λ c, getTime env c = t) inserted) →
            l = changeset).
Proof.
  cbv zeta. unfold after. unfold bind.
  rewrite collectCommits_run. simpl.
  set (inserted := allCommits (collected env options branchesToProcess s)).
  rewrite byDate_byKey. split.
  - apply arraySort_perm.
  - intros Hvalid.
    assert (StronglySorted (keyLe (getTime env))
              (arraySort (byKey (getTime env)) inserted)) as Hsorted.
    { apply arraySort_sorted, Forall_forall. exact Hvalid. }
    split_and!; [exact Hsorted | intros t; apply arraySort_stable |].
    intros l Hl Hstable.
    apply (stable_sorted_unique (getTime env)); [done..|].
    intros t. by rewrite Hstable, arraySort_stable.
Qed.

(** X21.  For each source branch the command asks git once, in a query
    that names this branch and the staging branch only, and the queries are
    made in the order of the branches: the log of the two-dot range
    [origin/<staging>..origin/<branch>] with [--no-merges] unless merge
    commits are included and [--first-parent] when first-parent is set, or,
    when neither filter is in force, simple-git's [log] from
    [origin/<staging>] to [origin/<branch>].  The commits gathered for the
    branch are the entries of the answer to that query, whatever it is. *)
Theorem branch_ranges_are_queried_separately (env : Env) (options : Options) :
  (∀ b, logQuery options b
        = if negb (includeMerges options) || firstParent options then
            GitRaw
              (["log";
                "origin/" +:+ stagingBranch options +:+ "..origin/" +:+ b;
                "--oneline"; "--format=%H|%s|%an|%ad|%d"; "--date=iso"]
               ++ (if includeMerges options then [] else ["--no-merges"])
               ++ (if firstParent options then ["--first-parent"] else []))
          else GitLog ("origin/" +:+ stagingBranch options) ("origin/" +:+ b))
  ∧ (∀ b s, getBranchCommits env options b s
            = (match branchLog env options b with
               | Done branchCommits => Value branchCommits
               | Raised e => Thrown e
               end, record (logQuery options b) s))
  ∧ (∀ b, branchLog env options b
          = if negb (includeMerges options) || firstParent options then
              match raw env (gitArgs options b) with
              | Done rawOutput => Done (parseRawOutput b rawOutput)
              | Raised e => Raised e
              end
            else
              match log env ("origin/" +:+ stagingBranch options)
                      ("origin/" +:+ b) with
              | Done logResult => Done (map (tagBranch b) logResult)
              | Raised e => Raised e
              end)
  ∧ (∀ bs s,
       filter (λ e, isLogQuery e = true)
         (trace (after (collectCommits env options bs) s))
       = filter (λ e, isLogQuery e = true) (trace s)
         ++ map (logQuery options) bs).
Proof.
  assert ((0 <? length (additionalArgs options))
          = negb (includeMerges options) || firstParent options) as Hpath.
  { unfold additionalArgs.
    by destruct (includeMerges options), (firstParent options). }
  split_and!.
  - intros b. unfold logQuery. rewrite Hpath. unfold gitArgs, additionalArgs.
    by destruct (includeMerges options), (firstParent options).
  - intros b s. apply getBranchCommits_run.
  - intros b. unfold branchLog. by rewrite Hpath.
  - intros bs s. unfold after. rewrite collectCommits_run.
    apply collected_queries.
Qed.



(** C6.  In a dry run, whatever the other options and whatever the
    collaborators answer, the run never creates a branch, cherry-picks,
    pushes or requests a pull request; once the changeset has been
    displayed the run only reports that the dry run is complete and
    returns. *)
Theorem dry_run_never_publishes (env : Env) (options : Options) :
  dryRun options = true →
  Forall (λ e, publishes e = false)
    (trace (after (createStagingPR env options) initial))
  ∧ ∀ planned s, plan env options initial = (Value planned, s) →
      createStagingPR env options initial
      = (Value tt, record dryRunCompleted s).
Proof.
  intros Hdry. split.
  - assert (steps (emits (λ e, publishes e = false))
              (createStagingPR env options)) as Hsteps.
    { unfold createStagingPR, body, finish. rewrite Hdry.
      apply steps_tryCatch; [apply _ | | intros e; emits_solve].
      apply steps_bind; [apply _ | apply plan_publishes_nothing |].
      intros _. by apply steps_emit_emits. }
    destruct (Hsteps initial) as (es & -> & Hes). done.
  - intros planned s Hplan.
    unfold createStagingPR, tryCatch, body. rewrite (bind_value _ _ _ _ _ Hplan).
    unfold finish. by rewrite Hdry.
Qed.

(** C7.  When the primary feature branch is the staging branch or the
    develop branch the run prints the configuration error and exits with
    code 1; up to that point it has neither fetched nor pushed nor created a
    branch nor requested a pull request: all it may have done is to ask for
    the current branch and to write to the console. *)
Theorem protected_branch_rejected_first (env : Env) (options : Options)
    (feature : string) (s : Store) :
  resolveFeatureBranch env options initial = (Value feature, s) →
  feature = stagingBranch options ∨ feature = developBranch options →
  createStagingPR env options initial
  = (Exited 1, record (configurationError) s)
  ∧ Forall (λ e, usesNetwork e = false ∧ publishes e = false
                 ∧ (e = GitBranch [] ∨ (∃ t, e = ConsoleLog t)
                    ∨ e = configurationError))
      (trace (record configurationError s)).
Proof.
  intros Hres Heq. split.
  - unfold createStagingPR, tryCatch, body, plan, resolveBranches.
    rewrite (bind_exited _ _ initial 1%Z (record configurationError s)); [done|].
    apply bind_exited.
    rewrite (bind_value _ _ _ _ _ Hres). apply bind_exited.
    unfold rejectProtected.
    assert (String.eqb feature (stagingBranch options)
            || String.eqb feature (developBranch options) = true) as ->.
    { apply orb_true_iff. rewrite !String.eqb_eq. done. }
    done.
  - assert (steps (emits (λ e, usesNetwork e = false ∧ publishes e = false
                               ∧ (e = GitBranch [] ∨ (∃ t, e = ConsoleLog t)
                                  ∨ e = configurationError)))
              (resolveFeatureBranch env options)) as Hsteps.
    { unfold resolveFeatureBranch. steps_split;
        apply steps_emit_emits; split_and!; eauto. }
    destruct (Hsteps initial) as (es & Htr & Hes).
    unfold after in Htr. rewrite Hres in Htr. simpl in *. rewrite Htr.
    apply Forall_app. split; [done|]. constructor; [|done].
    split_and!; auto.
Qed.

(** C8.  The name of the new branch is [staging-pr-], the feature branch
    with its first [/] turned into [-], a [-] and the clock reading.  A
    feature branch with two slashes keeps the second one: for [feat/a/b]
    the name is [staging-pr-feat-a/b-] followed by the time. *)
Theorem branch_name_keeps_second_slash (env : Env) :
  stagingPRBranchName env "feat/a/b"
  = "staging-pr-feat-a/b-" +:+ pretty (now env)
  ∧ contains slash (stagingPRBranchName env "feat/a/b") = true.
Proof.
  assert (stagingPRBranchName env "feat/a/b"
          = "staging-pr-feat-a/b-" +:+ pretty (now env)) as ->; [done|].
  split; [done|]. unfold contains. apply bool_decide_eq_true.
  change ("staging-pr-feat-a/b-" +:+ pretty (now env))
    with ("staging-pr-feat-a" +:+ String slash ("b-" +:+ pretty (now env))).
  generalize ("b-" +:+ pretty (now env)). intros rest.
  cbv [String.append list_ascii_of_string].
  do 17 apply list_elem_of_further. apply list_elem_of_here.
Qed.

(** The part of the name that holds: the first [/] becomes [-]. *)
Lemma branch_name_first_slash (env : Env) (a b : string) :
  contains slash a = false →
  stagingPRBranchName env (a +:+ "/" +:+ b)
  = "staging-pr-" +:+ a +:+ "-" +:+ b +:+ "-" +:+ pretty (now env).
Proof.
  intros Ha. unfold stagingPRBranchName.
  change ("/" +:+ b) with (String slash b).
  change (replace "/" "-" (a +:+ String slash b))
    with (replace (str1 slash) "-" (a +:+ String slash b)).
  rewrite replace_first by done. by rewrite !append_assoc.
Qed.

(** Two runs at different readings of the clock create different names. *)
Lemma branch_name_differs_with_clock (env1 env2 : Env) (feature : string) :
  now env1 ≠ now env2 →
  stagingPRBranchName env1 feature ≠ stagingPRBranchName env2 feature.
Proof.
  intros Hnow Heq. unfold stagingPRBranchName in Heq.
  do 3 apply String.app_inj in Heq. by apply pretty_Z_inj in Heq.
Qed.

(** C9 as amended.  A branch list that is supplied is split at the commas,
    its entries are trimmed, and the result is the list of branches to
    process, whatever the feature branch and the sub-branch options say: the
    current branch is not asked for and no sub-branch is searched.  The
    primary feature branch is the feature branch option when there is one,
    and the first entry of the list only when there is none. *)
Theorem explicit_list_takes_priority (env : Env) (options : Options)
    (text : string) :
  branches options = Some text → truthy text = true →
  let entries := map trim (split comma text) in
  let primary :=
    if given (featureBranch options)
    then default EmptyString (featureBranch options)
    else default EmptyString (head entries) in
  (∀ feature s, result (determineBranches env options feature) s = Value entries)
  ∧ (∀ s, result (resolveFeatureBranch env options) s = Value primary)
  ∧ (∀ feature bs s0,
       resolveBranches env options initial = (Value (feature, bs), s0) →
       feature = primary ∧ bs = entries
       ∧ Forall (λ e, e ≠ GitBranch [] ∧ e ≠ GitBranch ["-r"]) (trace s0)).
Proof.
  intros Hb Ht. cbv zeta.
  assert (given (branches options) = true) as Hgiven by (by rewrite Hb).
  assert (∀ s, resolveFeatureBranch env options s
               = (Value (if given (featureBranch options)
                         then default EmptyString (featureBranch options)
                         else default EmptyString (head (map trim (split comma text)))),
                  record (ConsoleLog
                            ("Using manually specified branches: "
                             +:+ join ", " (map trim (split comma text)))) s))
    as Hresolve.
  { intros s. unfold resolveFeatureBranch. rewrite Hgiven, Hb. simpl.
    unfold bind, emit, manualBranches.
    by destruct (given (featureBranch options)). }
  assert (∀ feature s, determineBranches env options feature s
               = (Value (map trim (split comma text)),
                  record (ConsoleLog
                            ("Processing "
                             +:+ pretty (length (map trim (split comma text)))
                             +:+ " manually specified branches")) s))
    as Hdetermine.
  { intros feature s. unfold determineBranches. rewrite Hgiven, Hb. done. }
  split_and!.
  - intros feature s. unfold result. by rewrite Hdetermine.
  - intros s. unfold result. by rewrite Hresolve.
  - intros feature bs s0 Hres.
    assert (steps (emits (λ e, e ≠ GitBranch [] ∧ e ≠ GitBranch ["-r"]))
              (resolveBranches env options)) as Hsteps.
    { unfold resolveBranches, resolveFeatureBranch, rejectProtected,
        checkStatus, fetchLatest, checkBranchesExist, determineBranches.
      rewrite Hgiven. steps_split; by apply steps_emit_emits. }
    destruct (Hsteps initial) as (es & Htr & Hes).
    unfold after in Htr. rewrite Hres in Htr. simpl in Htr. rewrite Htr.
    split_and!; [| |done].
    + unfold resolveBranches in Hres.
      apply bind_value_inv in Hres as (f & s1 & Hf & Hres).
      rewrite Hresolve in Hf. injection Hf as <- _.
      repeat (apply bind_value_inv in Hres as (? & ? & _ & Hres)).
      by injection Hres as <- _.
    + unfold resolveBranches in Hres.
      apply bind_value_inv in Hres as (f & s1 & _ & Hres).
      do 4 (apply bind_value_inv in Hres as (? & ? & _ & Hres)).
      apply bind_value_inv in Hres as (bs' & s2 & Hd & Hres).
      rewrite Hdetermine in Hd. injection Hd as <- _.
      by injection Hres as _ <-.
Qed.


(** * Exit codes *)

Lemma exitsWithOne_bind {A B} (m : Proc A) (k : A -> Proc B) :
  exitsWithOne m → (∀ a, exitsWithOne (k a)) → exitsWithOne (bind m k).
Proof.
  intros Hm Hk s c. specialize (Hm s). unfold result, after, bind in *.
  destruct (m s) as [[a|e|c'] s1]; simpl in *; [apply Hk|done|].
  intros [= <-]. by apply Hm.
Qed.

Lemma exitsWithOne_tryCatch {A} (m : Proc A) (h : string -> Proc A) :
  exitsWithOne m → (∀ e, exitsWithOne (h e)) → exitsWithOne (tryCatch m h).
Proof.
  intros Hm Hh s c. specialize (Hm s). unfold result, after, tryCatch in *.
  destruct (m s) as [[a|e|c'] s1]; simpl in *; [done|apply Hh|].
  intros [= <-]. by apply Hm.
Qed.

Lemma exitsWithOne_forOf {A} (l : list A) (f : A -> Proc unit) :
  (∀ x, exitsWithOne (f x)) → exitsWithOne (forOf l f).
Proof.
  intros Hf. induction l as [|x l IH]; [by intros s c|].
  simpl. apply exitsWithOne_bind; [apply Hf | done].
Qed.

Lemma exitsWithOne_forEachFrom {A} i (l : list A) (f : nat -> A -> Proc unit) :
  (∀ j x, exitsWithOne (f j x)) → exitsWithOne (forEachFrom i l f).
Proof.
  intros Hf. revert i. induction l as [|x l IH]; intros i; [by intros s c|].
  simpl. apply exitsWithOne_bind; [apply Hf | done].
Qed.

Lemma exitsWithOne_lift {A} (r : Try A) : exitsWithOne (lift r).
Proof. by destruct r; intros s c. Qed.

(** [report; process.exit(1)] *)
Lemma exitsWithOne_report {A} (e : Event) :
  isFailure e = true → exitsWithOne (emit e ;; @exit A 1).
Proof.
  intros He s c [= <-]. split; [done|]. by exists (trace s), e, [].
Qed.

(** The same with lines printed between the report and the exit. *)
Lemma exitsWithOne_report_hints {A} (e : Event) (a b c d : string) :
  isFailure e = true →
  exitsWithOne (emit e ;; emit (ConsoleLog a) ;; emit (ConsoleLog b) ;;
                emit (ConsoleLog c) ;; emit (ConsoleLog d) ;; @exit A 1).
Proof.
  intros He s x [= <-]. split; [done|].
  exists (trace s), e, [ConsoleLog a; ConsoleLog b; ConsoleLog c; ConsoleLog d].
  split_and!; [|done|by repeat constructor].
  unfold after. simpl. by rewrite <- !app_assoc.
Qed.

(** Decomposes a procedure and closes the steps that do not exit. *)
Ltac exits_solve :=
  repeat first
    [ apply exitsWithOne_report; reflexivity
    | apply exitsWithOne_report_hints; reflexivity
    | apply exitsWithOne_lift
    | apply exitsWithOne_bind; [|intros ?]
    | apply exitsWithOne_tryCatch; [|intros ?]
    | apply exitsWithOne_forOf; intros ?
    | apply exitsWithOne_forEachFrom; intros ? ?
    | match goal with
      | |- exitsWithOne (if ?b then _ else _) => destruct b
      | |- exitsWithOne (match ?x with _ => _ end) => destruct x
      | |- exitsWithOne (let _ := _ in _) => cbv zeta
      end
    | (intros ? ? ?; discriminate) ].

Lemma createStagingPR_exitsWithOne env options :
  exitsWithOne (createStagingPR env options).
Proof.
  unfold createStagingPR, body, plan, resolveBranches, resolveFeatureBranch,
    rejectProtected, checkStatus, fetchLatest, checkBranchesExist,
    determineBranches, findSubBranches, assemble, collectCommits,
    getBranchCommits, addUnique, sortCommits, requireCommits, displayCommits,
    finish, publish, cherryPickAll, cherryPick, requestPR, call.
  exits_solve.
Qed.

(** X1.  The function never lets an exception escape: a run returns, or ends the
    process with code 1 after it has reported a failure; between that report
    and the exit it only prints to the console. *)
Theorem run_returns_or_exits_with_one (env : Env) (options : Options)
    (s : Store) :
  result (createStagingPR env options) s = Value tt
  ∨ (result (createStagingPR env options) s = Exited 1
     ∧ endsWithReport (trace (after (createStagingPR env options) s))).
Proof.
  pose proof (createStagingPR_exitsWithOne env options s) as Hexit.
  assert (∀ e, result (createStagingPR env options) s ≠ Thrown e) as Hcaught.
  { intros e. unfold createStagingPR, tryCatch, result.
    by destruct (body env options s) as [[[]|e'|c] s1]. }
  destruct (result (createStagingPR env options) s) as [[]|e|c] eqn:Hres.
  - by left.
  - by destruct (Hcaught e).
  - destruct (Hexit c eq_refl) as [-> Hreport]. by right.
Qed.

(** * What a run has checked before it publishes *)

Section Checks.
Context (env : Env) (options : Options).

(** A run gets past lines 70-177 only when every check of these lines has
    passed. *)
Lemma resolveBranches_value s feature bs s' :
  resolveBranches env options s = (Value (feature, bs), s') →
  feature ≠ stagingBranch options ∧ feature ≠ developBranch options
  ∧ statusIsClean env = Done true
  ∧ fetch env = Done tt
  ∧ ∃ all, branchAll env = Done all
      ∧ hasBranch all feature = true
      ∧ hasBranch all (stagingBranch options) = true
      ∧ hasBranch all (developBranch options) = true.
Proof.
  unfold resolveBranches. intros H.
  apply bind_value_inv in H as (f & s1 & _ & H).
  apply bind_value_inv in H as ([] & s2 & Hrej & H).
  apply bind_value_inv in H as ([] & s3 & Hst & H).
  apply bind_value_inv in H as ([] & s4 & Hfe & H).
  apply bind_value_inv in H as ([] & s5 & Hex & H).
  apply bind_value_inv in H as (bs' & s6 & _ & H).
  injection H as -> -> ->.
  unfold rejectProtected in Hrej.
  destruct (String.eqb feature (stagingBranch options)) eqn:Hs; [done|].
  destruct (String.eqb feature (developBranch options)) eqn:Hd; [done|].
  apply String.eqb_neq in Hs, Hd.
  unfold checkStatus, call, bind, emit, lift in Hst.
  destruct (statusIsClean env) as [[]|]; simpl in Hst; try done.
  unfold fetchLatest, call, bind, emit, lift in Hfe.
  destruct (fetch env) as [[]|]; simpl in Hfe; try done.
  unfold checkBranchesExist, call, bind, emit, lift in Hex.
  destruct (branchAll env) as [all|]; simpl in Hex; try done.
  destruct (hasBranch all feature) eqn:H1; simpl in Hex; try done.
  destruct (hasBranch all (stagingBranch options)) eqn:H2; simpl in Hex;
    try done.
  destruct (hasBranch all (developBranch options)) eqn:H3; simpl in Hex;
    try done.
  split_and!; try done. by exists all.
Qed.

End Checks.

(** X2.  Whenever a run creates the branch, cherry-picks, pushes or requests the
    pull request, the feature branch is neither the staging nor the develop
    branch, the working tree was reported clean, the fetch succeeded, the
    three branches were found in the branch list, the run is not a dry run,
    and the changeset is not empty. *)
Theorem publication_requires_checks (env : Env) (options : Options) :
  let final := after (createStagingPR env options) initial in
  (∃ e, e ∈ trace final ∧ publishes e = true) →
  ∃ feature branchesToProcess s0 all,
    resolveBranches env options initial
    = (Value (feature, branchesToProcess), s0)
    ∧ feature ≠ stagingBranch options ∧ feature ≠ developBranch options
    ∧ statusIsClean env = Done true
    ∧ fetch env = Done tt
    ∧ branchAll env = Done all
    ∧ hasBranch all feature = true
    ∧ hasBranch all (stagingBranch options) = true
    ∧ hasBranch all (developBranch options) = true
    ∧ dryRun options = false
    ∧ allCommits final ≠ [].
Proof.
  intros final (e & He & Hp). subst final.
  rewrite (run_changeset env options).
  destruct (plan_publishes_nothing env options initial) as (es & Htr & Hes).
  unfold after in *. rewrite createStagingPR_run in He.
  rewrite plan_run in Htr, He |- *.
  assert (∀ x, x ∈ es → publishes x = false) as Hquiet
    by (by apply Forall_forall).
  assert (∀ es', e ∈ es ++ es' → Forall (λ x, publishes x = false) es' →
            False) as Hno.
  { intros es' [Hin|Hin]%elem_of_app Hes'; [apply Hquiet in Hin|];
      [|apply (proj1 (Forall_forall _ _) Hes') in Hin]; congruence. }
  destruct (resolveBranches env options initial)
    as [[[feature bs]|err|c] s0] eqn:Hres; simpl in *.
  2: { rewrite Htr in He. by destruct (Hno _ He); repeat constructor. }
  2: { rewrite Htr, <- (app_nil_r es) in He.
       by destruct (Hno _ He); repeat constructor. }
  rewrite assemble_run in Htr, He |- *. cbv zeta in *.
  destruct (allCommits (sortedStore env (merged env options feature bs s0)))
    as [|c cs] eqn:Hall; simpl in *.
  { rewrite Htr, <- (app_nil_r es) in He.
    by destruct (Hno _ He); repeat constructor. }
  unfold finish in He. destruct (dryRun options) eqn:Hdry.
  { simpl in He. rewrite Htr in He.
    by destruct (Hno _ He); repeat constructor. }
  destruct (resolveBranches_value env options _ _ _ _ Hres)
    as (H1 & H2 & H3 & H4 & all & H5 & H6 & H7 & H8).
  exists feature, bs, s0, all. split_and!; try done.
  by rewrite Hall.
Qed.

(** * The cherry-pick loop *)

Lemma published_app es1 es2 :
  published (es1 ++ es2) = published es1 ++ published es2.
Proof. apply filter_app. Qed.

Lemma published_quiet es :
  Forall (λ e, publishes e = false) es → published es = [].
Proof.
  induction 1 as [|e es He _ IH]; [done|].
  unfold published in *. rewrite filter_cons, IH.
  destruct (decide (publishes e = true)); [congruence|done].
Qed.

Lemma published_picks (l : list Commit) :
  published (pickEvent <$> l) = pickEvent <$> l.
Proof.
  induction l as [|c l IH]; [done|].
  unfold published in *. rewrite fmap_cons, filter_cons, IH. done.
Qed.

Lemma logged_logged es1 es2 s :
  logged es2 (logged es1 s) = logged (es1 ++ es2) s.
Proof. unfold logged. simpl. by rewrite app_assoc. Qed.

Lemma record_logged e s : record e s = logged [e] s.
Proof. done. Qed.

Section Picking.
Context (env : Env).

(** Lines 310-323, one round. *)
Lemma cherryPick_cases c s :
  cherryPick env c s
  = match raw env ["cherry-pick"; hash c] with
    | Done _ => (Value tt, logged [pickEvent c] s)
    | Raised e => (Exited 1, logged (pickEvent c :: conflictReport c e) s)
    end.
Proof.
  unfold cherryPick, tryCatch, call, bind, emit, lift.
  destruct (raw env ["cherry-pick"; hash c]) as [out|e]; simpl; [done|].
  unfold logged, record. simpl. by rewrite <- !app_assoc.
Qed.

(** The loop applies the commits it is given, one after the other. *)
Lemma cherryPick_loop_applies (l : list Commit) s :
  Forall (applies env) l →
  forOf l (cherryPick env) s = (Value tt, logged (pickEvent <$> l) s).
Proof.
  intros Hl. revert s. induction Hl as [|c l [out Hc] _ IH]; intros s.
  - by rewrite logged_nil.
  - simpl. unfold bind. rewrite cherryPick_cases, Hc, IH.
    by rewrite logged_logged.
Qed.

(** It stops at the first commit that git does not apply. *)
Lemma cherryPick_loop_fails (before later : list Commit) c e s :
  Forall (applies env) before →
  raw env ["cherry-pick"; hash c] = Raised e →
  forOf (before ++ c :: later) (cherryPick env) s
  = (Exited 1,
     logged ((pickEvent <$> before ++ [c]) ++ conflictReport c e) s).
Proof.
  intros Hl Hc. revert s. induction Hl as [|b l [out Hb] _ IH]; intros s.
  - simpl. unfold bind. by rewrite cherryPick_cases, Hc.
  - simpl. unfold bind. rewrite cherryPick_cases, Hb. simpl in IH.
    by rewrite IH, logged_logged.
Qed.

(** Either git applies every commit, or there is a first one it does not
    apply. *)
Lemma applies_or_fails (l : list Commit) :
  Forall (applies env) l
  ∨ ∃ before c later e,
      l = before ++ c :: later ∧ Forall (applies env) before
      ∧ raw env ["cherry-pick"; hash c] = Raised e.
Proof.
  induction l as [|c l [IH|(before & c' & later & e' & -> & Hb & Hc')]].
  - by left.
  - destruct (raw env ["cherry-pick"; hash c]) as [out|e] eqn:Hc.
    + left. constructor; [by exists out | done].
    + right. by exists [], c, l, e.
  - destruct (raw env ["cherry-pick"; hash c]) as [out|e] eqn:Hc.
    + right. exists (c :: before), c', later, e'.
      split_and!; [done| |done]. constructor; [by exists out | done].
    + right. by exists [], c, (before ++ c' :: later), e.
Qed.

End Picking.

(** * The publication *)

Lemma quiet_published es : quiet es → published es = [].
Proof.
  intros Hes. apply published_quiet.
  eapply Forall_impl; [exact Hes|]. by intros e [He _].
Qed.

Lemma quiet_manualInstructions env options feature :
  quiet (manualInstructions env options feature).
Proof. by repeat constructor. Qed.

Lemma quiet_unparsedRemote env options feature :
  quiet (unparsedRemote env options feature).
Proof. by repeat constructor. Qed.

Lemma published_cons_quiet e es :
  publishes e = false → published (e :: es) = published es.
Proof.
  intros He. unfold published. rewrite filter_cons.
  destruct (decide (publishes e = true)); [congruence|done].
Qed.

Lemma published_cons_loud e es :
  publishes e = true → published (e :: es) = e :: published es.
Proof.
  intros He. unfold published. rewrite filter_cons.
  destruct (decide (publishes e = true)); [done|congruence].
Qed.

(** Computes the published events of a list made of quiet and of publishing
    events. *)
Ltac publ :=
  repeat match goal with
         | |- context [published (?a ++ ?b)] => rewrite (published_app a b)
         | |- context [published (pickEvent <$> ?l)] =>
             rewrite (published_picks l)
         | H : quiet ?es |- context [published ?es] =>
             rewrite (quiet_published es H)
         | H : ∀ x, quiet (?es x) |- context [published (?es ?y)] =>
             rewrite (quiet_published (es y) (H y))
         | |- context [published (manualInstructions ?env ?options ?f)] =>
             rewrite (quiet_published _
                        (quiet_manualInstructions env options f))
         | |- context [published (unparsedRemote ?env ?options ?f)] =>
             rewrite (quiet_published _
                        (quiet_unparsedRemote env options f))
         | |- context [published (conflictReport ?c ?e)] =>
             change (published (conflictReport c e)) with (@nil Event)
         | |- context [published (?e :: ?l)] =>
             first [ rewrite (published_cons_quiet e l) by reflexivity
                   | rewrite (published_cons_loud e l) by reflexivity ]
         | |- context [published []] =>
             change (published []) with (@nil Event)
         end.

Section Publishing.
Context (env : Env) (options : Options).

(** Lines 332-398. *)
Lemma requestPR_run feature bs s :
  ∃ es3,
    requestPR env options feature bs (stagingPRBranchName env feature) s
      = (if negb (given (githubToken env))
         then (Value tt, logged (manualInstructions env options feature) s)
        else
          match getConfig env "remote.origin.url" with
          | Raised e => (Thrown e, logged [GitGetConfig "remote.origin.url"] s)
          | Done remoteUrl =>
              match remoteUrl ≫= matchRemote with
              | None =>
                  (Value tt,
                   logged (GitGetConfig "remote.origin.url"
                           :: unparsedRemote env options feature) s)
              | Some (owner, repo) =>
                  let request :=
                    pullRequest env options feature bs owner repo
                      (allCommits s) in
                  match pullsCreate env request with
                  | Raised e =>
                      (Thrown e,
                       logged [GitGetConfig "remote.origin.url";
                               SpinnerStart "Creating GitHub PR...";
                               PullsCreate request] s)
                  | Done pr =>
                      (Value tt,
                       logged ([GitGetConfig "remote.origin.url";
                                SpinnerStart "Creating GitHub PR...";
                                PullsCreate request] ++ es3 pr) s)
                  end
              end
          end)
    ∧ ∀ pr, quiet (es3 pr).
Proof.
  unfold requestPR.
  eexists _. split.
  - unfold call, bind, emit, lift.
    destruct (negb (given (githubToken env))).
    { rewrite !record_logged, !logged_logged. simpl app. reflexivity. }
    destruct (getConfig env "remote.origin.url") as [url|e]; [|done].
    simpl. destruct (url ≫= matchRemote) as [[owner repo]|].
    2: { rewrite !record_logged, !logged_logged. simpl app. reflexivity. }
    simpl. fold (pullRequest env options feature bs owner repo (allCommits s)).
    destruct (pullsCreate env _) as [pr|e]; simpl.
    + rewrite !record_logged, !logged_logged. simpl app.
      instantiate (1 := λ pr, [_; _; _]). reflexivity.
    + rewrite !record_logged, !logged_logged. simpl app. reflexivity.
  - intros pr. by repeat constructor.
Qed.

(** Lines 292-330, up to the request. *)
Lemma publish_run feature bs s :
  ∃ es1 es2 es3 es4,
    publish env options feature bs s
    = (match checkout env ["-b"; stagingPRBranchName env feature;
                            "origin/" +:+ stagingBranch options] with
       | Raised e => (Thrown e, logged (es1 ++ [branchCreation env options feature]) s)
       | Done _ =>
           match forOf (allCommits s) (cherryPick env)
                   (logged (es1 ++ [branchCreation env options feature] ++ es2) s)
           with
           | (Value _, s') =>
               match push env "origin" (stagingPRBranchName env feature) with
               | Raised e =>
                   (Thrown e, logged (es3 ++ [branchPush env feature]) s')
               | Done _ =>
                   requestPR env options feature bs
                     (stagingPRBranchName env feature)
                     (logged (es3 ++ [branchPush env feature] ++ es4) s')
               end
           | r => r
           end
       end)
    ∧ quiet es1 ∧ quiet es2 ∧ quiet es3 ∧ quiet es4.
Proof.
  unfold publish. cbv zeta.
  eexists [_], [_; _; _], [_; _], [_]. split.
  - unfold call. unfold bind at 1 2 3. unfold emit at 1 2, lift at 1.
    destruct (checkout env _) as [[]|e]; unfold throw, ret; cbv beta iota.
    2: { by rewrite !record_logged, !logged_logged. }
    unfold bind at 1 2. unfold emit at 1. rewrite cherryPickAll_run.
    rewrite !record_logged, !logged_logged. simpl app.
    change (allCommits (logged ?x s)) with (allCommits s).
    match goal with
    | |- ?lhs = ?rhs =>
        match lhs with
        | context [forOf _ _ ?a] =>
            match rhs with context [forOf _ _ ?b] => unify a b end
        end
    end.
    destruct (forOf _ _ _) as [[[]|e|c] s']; [|done..].
    unfold bind, emit, lift.
    destruct (push env _ _) as [[]|e]; unfold throw, ret; cbv beta iota;
      by rewrite !record_logged, !logged_logged.
  - split_and!; by repeat constructor.
Qed.

(** The branch is created, the commits are applied in the order of the
    array, the branch is pushed and the pull request is requested, in this
    order, up to the first step that fails. *)
Lemma publish_protocol feature bs s :
  let seq := publication env options feature (allCommits s) in
  ∃ out es,
    publish env options feature bs s = (out, logged es s)
    ∧ ((published es `prefix_of` seq ∧ (out = Value tt → published es = seq))
       ∨ ∃ url owner repo,
           given (githubToken env) = true
           ∧ getConfig env "remote.origin.url" = Done (Some url)
           ∧ matchRemote url = Some (owner, repo)
           ∧ published es
             = seq ++ [PullsCreate (pullRequest env options feature bs owner
                                      repo (allCommits s))]).
Proof.
  intros seq. subst seq. unfold publication.
  destruct (publish_run feature bs s)
    as (es1 & es2 & es3 & es4 & -> & Hq1 & Hq2 & Hq3 & Hq4).
  destruct (checkout env _) as [[]|e].
  2: { eexists _, _. split; [done|]. left. publ.
       split; [|done]. by eexists. }
  destruct (applies_or_fails env (allCommits s))
    as [Hall|(before & c & later & e & Hall & Hbefore & Hc)].
  2: { rewrite Hall, (cherryPick_loop_fails env _ _ _ _ _ Hbefore Hc).
       rewrite ?logged_logged. eexists _, _. split; [done|]. left. publ.
       split; [|done]. simpl. rewrite !fmap_app. simpl.
       exists ((pickEvent <$> later) ++ [branchPush env feature]).
       rewrite app_nil_r. simpl. f_equal. by rewrite <- !app_assoc. }
  rewrite (cherryPick_loop_applies env _ _ Hall), ?logged_logged.
  destruct (push env _ _) as [[]|e].
  2: { rewrite ?logged_logged. eexists _, _. split; [done|]. left. publ. simpl.
       rewrite ?app_nil_r. by split. }
  rewrite ?logged_logged.
  match goal with
  | |- context [requestPR _ _ _ _ _ ?st] =>
      destruct (requestPR_run feature bs st) as (r3 & -> & Hr3)
  end.
  destruct (given (githubToken env)); simpl negb; cbv iota.
  2: { rewrite ?logged_logged. eexists _, _. split; [done|]. left. publ. simpl.
       rewrite ?app_nil_r. by split. }
  destruct (getConfig env _) as [url|e].
  2: { rewrite ?logged_logged. eexists _, _. split; [done|]. left. publ. simpl.
       rewrite ?app_nil_r. by split. }
  destruct (url ≫= matchRemote) as [[owner repo]|] eqn:Hurl.
  2: { rewrite ?logged_logged. eexists _, _. split; [done|]. left. publ. simpl.
       rewrite ?app_nil_r. by split. }
  destruct url as [url|]; [simpl in Hurl|done].
  cbv zeta. change (allCommits (logged ?x s)) with (allCommits s).
  destruct (pullsCreate env _) as [pr|e]; rewrite ?logged_logged;
    eexists _, _; (split; [done|]); right; exists url, owner, repo;
    (split_and!; [done..|]); publ;
    simpl; by rewrite ?app_nil_r, <- ?app_assoc.
Qed.

End Publishing.

Section Runs.
Context (env : Env) (options : Options).

Lemma plan_published r s1 :
  plan env options initial = (r, s1) → published (trace s1) = [].
Proof.
  intros Hplan.
  destruct (plan_publishes_nothing env options initial) as (es & Htr & Hes).
  unfold after in Htr. rewrite Hplan in Htr. simpl in Htr. rewrite Htr.
  by apply published_quiet.
Qed.

(** What a run publishes is what [publish] publishes after the plan. *)
Lemma run_published :
  let final := after (createStagingPR env options) initial in
  match plan env options initial with
  | (Value (feature, bs), s1) =>
      if dryRun options then published (trace final) = []
      else
        ∃ out es,
          publish env options feature bs s1 = (out, logged es s1)
          ∧ published (trace final) = published es
          ∧ allCommits final = allCommits s1
          ∧ result (createStagingPR env options) initial
            = match out with Thrown _ => Exited 1 | o => o end
  | (_, _) => published (trace final) = []
  end.
Proof.
  unfold after, result. rewrite createStagingPR_run.
  destruct (plan env options initial) as [[[feature bs]|e|c] s1] eqn:Hplan;
    pose proof (plan_published _ _ Hplan) as Hquiet; simpl.
  2: { by rewrite published_app, Hquiet. }
  2: { done. }
  unfold finish. destruct (dryRun options).
  { simpl. by rewrite published_app, Hquiet. }
  destruct (publish_protocol env options feature bs s1)
    as (out & es & Hpub & _).
  exists out, es. rewrite Hpub.
  destruct out as [[]|e|c]; simpl; rewrite ?published_app, Hquiet; simpl;
    by rewrite ?app_nil_r.
Qed.

End Runs.

(** X10.  A run that has resolved its branches and assembled a changeset creates
    the branch, applies the commits in the order of the changeset, pushes
    the branch and requests the pull request from it to the staging branch,
    in this order and up to the first step that fails; a run that returns
    and is not a dry run has got as far as the push. *)
Theorem publication_follows_protocol (env : Env) (options : Options)
    (feature : string) (branchesToProcess : list string) (s1 : Store) :
  plan env options initial = (Value (feature, branchesToProcess), s1) →
  let final := after (createStagingPR env options) initial in
  let seq := publication env options feature (allCommits final) in
  (∃ owner repo,
     published (trace final)
     `prefix_of` seq ++ [PullsCreate
                           (pullRequest env options feature branchesToProcess
                              owner repo (allCommits final))])
  ∧ (dryRun options = false →
     result (createStagingPR env options) initial = Value tt →
     seq `prefix_of` published (trace final)).
Proof.
  intros Hplan final seq. subst final seq.
  pose proof (run_published env options) as Hrun. cbv zeta in Hrun.
  rewrite Hplan in Hrun. destruct (dryRun options).
  { rewrite Hrun. split; [|done]. exists EmptyString, EmptyString.
    apply prefix_nil. }
  destruct Hrun as (out & es & Hpub & -> & -> & ->).
  destruct (publish_protocol env options feature branchesToProcess s1)
    as (out' & es' & Hpub' & Hcases).
  rewrite Hpub in Hpub'. injection Hpub' as <- Hes.
  apply app_inv_head in Hes as <-. cbv zeta in Hcases.
  destruct Hcases as [[Hpre Hall]|(url & owner & repo & _ & _ & _ & ->)].
  - split.
    + exists EmptyString, EmptyString. etrans; [exact Hpre|].
      by apply prefix_app_r.
    + intros _ Hout. rewrite Hall; [done|]. by destruct out.
  - split; [by exists owner, repo|]. intros _ _. by eexists.
Qed.

(** X14.  A pull request is requested only when a token is set and the URL of
    [origin] names a repository of GitHub; it goes from the branch the run
    has pushed to the staging branch and lists the changeset. *)
Theorem pull_request_requires_token_and_remote (env : Env) (options : Options)
    (pr : PullRequest) :
  let final := after (createStagingPR env options) initial in
  PullsCreate pr ∈ trace final →
  given (githubToken env) = true
  ∧ dryRun options = false
  ∧ ∃ url owner repo feature branchesToProcess s1,
      plan env options initial = (Value (feature, branchesToProcess), s1)
      ∧ getConfig env "remote.origin.url" = Done (Some url)
      ∧ matchRemote url = Some (owner, repo)
      ∧ pr = pullRequest env options feature branchesToProcess owner repo
               (allCommits final)
      ∧ branchPush env feature ∈ trace final.
Proof.
  intros final Hin. subst final.
  assert (PullsCreate pr
          ∈ published (trace (after (createStagingPR env options) initial)))
    as Hpub by (by apply list_elem_of_filter).
  pose proof (run_published env options) as Hrun. cbv zeta in Hrun.
  destruct (plan env options initial) as [[[feature bs]|e|c] s1] eqn:Hplan.
  2,3: rewrite Hrun in Hpub; by apply elem_of_nil in Hpub.
  destruct (dryRun options).
  { rewrite Hrun in Hpub. by apply elem_of_nil in Hpub. }
  destruct Hrun as (out & es & Hrun & Hes & Hall & _).
  destruct (publish_protocol env options feature bs s1)
    as (out' & es' & Hpub' & Hcases).
  rewrite Hrun in Hpub'. injection Hpub' as <- Heq.
  apply app_inv_head in Heq as <-. cbv zeta in Hcases.
  assert (∀ all, PullsCreate pr ∉ publication env options feature all)
    as Hseq.
  { intros all [|[(c & ? & _)%list_elem_of_fmap|?%list_elem_of_singleton]
                  %elem_of_app]%elem_of_cons; done. }
  destruct Hcases as [[[k Hpre] _]|(url & owner & repo & ? & ? & ? & Hpr)].
  { destruct (Hseq (allCommits s1)). rewrite Hpre. apply elem_of_app. left.
    by rewrite <- Hes. }
  rewrite Hes, Hpr in Hpub.
  apply elem_of_app in Hpub as [Hpub|Hpub]; [by destruct (Hseq _ Hpub)|].
  apply list_elem_of_singleton in Hpub as [= ->].
  split_and!; [done..|]. exists url, owner, repo, feature, bs, s1.
  rewrite Hall. split_and!; [done..|].
  assert (branchPush env feature
          ∈ published (trace (after (createStagingPR env options) initial)))
    as Hpush.
  { rewrite Hes, Hpr. apply elem_of_app. left. unfold publication.
    apply list_elem_of_further, elem_of_app. right. apply list_elem_of_here. }
  by apply list_elem_of_filter in Hpush as [_ ?].
Qed.

(** X11.  When git does not apply a commit, the run ends there with code 1: the
    commits after it are not tried, the branch is not pushed and no pull
    request is requested; the last thing printed is how to continue or
    abort the cherry-pick. *)
Theorem failed_cherry_pick_stops_the_run (env : Env) (options : Options)
    (feature : string) (branchesToProcess : list string) (s1 : Store)
    (before later : list Commit) (commit : Commit) (error : string) :
  plan env options initial = (Value (feature, branchesToProcess), s1) →
  dryRun options = false →
  checkout env ["-b"; stagingPRBranchName env feature;
                "origin/" +:+ stagingBranch options] = Done tt →
  allCommits s1 = before ++ commit :: later →
  Forall (applies env) before →
  raw env ["cherry-pick"; hash commit] = Raised error →
  let run := createStagingPR env options in
  result run initial = Exited 1
  ∧ published (trace (after run initial))
    = branchCreation env options feature
      :: (pickEvent <$> before ++ [commit])
  ∧ ∃ es, trace (after run initial) = es ++ conflictReport commit error.
Proof.
  intros Hplan Hdry Hcheckout Hall Hbefore Hfails run. subst run.
  pose proof (plan_published _ _ _ _ Hplan) as Hquiet.
  unfold result, after. rewrite createStagingPR_run, Hplan. simpl.
  unfold finish. rewrite Hdry.
  destruct (publish_run env options feature branchesToProcess s1)
    as (es1 & es2 & es3 & es4 & -> & Hq1 & Hq2 & Hq3 & Hq4).
  rewrite Hcheckout, Hall, (cherryPick_loop_fails env _ _ _ _ _ Hbefore Hfails).
  rewrite logged_logged. simpl. split_and!; [done| |].
  - publ. rewrite Hquiet. simpl. by rewrite app_nil_r.
  - eexists. by rewrite !app_assoc.
Qed.

(** X13.  Without a token the run neither reads the URL of [origin] nor calls the
    API of GitHub, whatever else happens. *)
Theorem no_token_no_request (env : Env) (options : Options) :
  given (githubToken env) = false →
  Forall (λ e, requestsPR e = false ∧ ∀ key, e ≠ GitGetConfig key)
    (trace (after (createStagingPR env options) initial)).
Proof.
  intros Htoken.
  assert (steps (emits (λ e, requestsPR e = false
                             ∧ ∀ key, e ≠ GitGetConfig key))
            (createStagingPR env options)) as Hsteps.
  { unfold createStagingPR, body, plan, resolveBranches, resolveFeatureBranch,
      rejectProtected, checkStatus, fetchLatest, checkBranchesExist,
      determineBranches, findSubBranches, assemble, collectCommits,
      getBranchCommits, addUnique, sortCommits, sortArray, requireCommits,
      displayCommits, finish, publish, cherryPickAll, cherryPick, requestPR.
    rewrite Htoken. emits_solve. }
  destruct (Hsteps initial) as (es & -> & Hes). done.
Qed.

(** X12.  A run that has pushed the branch but has no token, or cannot read a
    repository of GitHub from the URL of [origin], still returns normally:
    everything up to the push has been done, no pull request is requested,
    and the last thing printed tells how to create it by hand. *)
Theorem pushed_branch_without_pull_request (env : Env) (options : Options)
    (feature : string) (branchesToProcess : list string) (s1 : Store) :
  plan env options initial = (Value (feature, branchesToProcess), s1) →
  dryRun options = false →
  checkout env ["-b"; stagingPRBranchName env feature;
                "origin/" +:+ stagingBranch options] = Done tt →
  Forall (applies env) (allCommits s1) →
  push env "origin" (stagingPRBranchName env feature) = Done tt →
  given (githubToken env) = false
  ∨ (∃ url, getConfig env "remote.origin.url" = Done url
            ∧ url ≫= matchRemote = None) →
  let run := createStagingPR env options in
  result run initial = Value tt
  ∧ published (trace (after run initial))
    = publication env options feature (allCommits s1)
  ∧ ∃ es,
      trace (after run initial)
      = es ++ (if given (githubToken env)
               then unparsedRemote env options feature
               else manualInstructions env options feature).
Proof.
  intros Hplan Hdry Hcheckout Hall Hpush Hcase run. subst run.
  pose proof (plan_published _ _ _ _ Hplan) as Hquiet.
  unfold result, after. rewrite createStagingPR_run, Hplan. simpl.
  unfold finish. rewrite Hdry.
  destruct (publish_run env options feature branchesToProcess s1)
    as (es1 & es2 & es3 & es4 & -> & Hq1 & Hq2 & Hq3 & Hq4).
  rewrite Hcheckout, (cherryPick_loop_applies env _ _ Hall), Hpush.
  rewrite !logged_logged.
  match goal with
  | |- context [requestPR _ _ _ _ _ ?st] =>
      destruct (requestPR_run env options feature branchesToProcess st)
        as (r3 & -> & Hr3)
  end.
  destruct (given (githubToken env)) eqn:Htoken; simpl negb; cbv iota.
  - destruct Hcase as [?|(url & -> & ->)]; [done|].
    rewrite logged_logged. simpl. split_and!; [done| |].
    + publ. rewrite Hquiet. simpl. by rewrite ?app_nil_r.
    + exists (trace s1
              ++ (((es1 ++ branchCreation env options feature :: es2)
                   ++ (pickEvent <$> allCommits s1))
                  ++ es3 ++ branchPush env feature :: es4)
              ++ [GitGetConfig "remote.origin.url"]).
      by rewrite <- !app_assoc.
  - rewrite logged_logged. simpl. split_and!; [done| |].
    + publ. rewrite Hquiet. simpl. by rewrite ?app_nil_r.
    + eexists. by rewrite !app_assoc.
Qed.

(** * The checks before the collection *)

Section Failing.
Context (env : Env) (options : Options).

Lemma run_stops_with_resolveBranches s c s' :
  resolveBranches env options s = (Exited c, s') →
  createStagingPR env options s = (Exited c, s').
Proof.
  intros Hres. rewrite createStagingPR_run, plan_run. by rewrite Hres.
Qed.

Lemma rejectProtected_passes feature s :
  feature ≠ stagingBranch options → feature ≠ developBranch options →
  rejectProtected options feature s = (Value tt, s).
Proof.
  intros Hs%String.eqb_neq Hd%String.eqb_neq. unfold rejectProtected.
  by rewrite Hs, Hd.
Qed.

(** Up to the branch list a run asks for the current branch at most, and
    prints. *)
Lemma resolveFeatureBranch_local :
  steps (emits (λ e, usesNetwork e = false ∧ publishes e = false
                     ∧ isLogQuery e = false))
    (resolveFeatureBranch env options).
Proof. unfold resolveFeatureBranch. emits_solve. Qed.

End Failing.

(** X3.  A working tree with changes stops the run with code 1 right after the
    status has been read: nothing is fetched, no log is asked for and
    nothing is published. *)
Theorem dirty_tree_stops_before_fetch (env : Env) (options : Options)
    (feature : string) (s : Store) :
  resolveFeatureBranch env options initial = (Value feature, s) →
  feature ≠ stagingBranch options → feature ≠ developBranch options →
  statusIsClean env = Done false →
  createStagingPR env options initial
  = (Exited 1,
     logged [SpinnerStart "Checking repository status..."; GitStatus;
             SpinnerFail
               "Working directory is not clean. Please commit or stash your changes."]
       s)
  ∧ Forall (λ e, usesNetwork e = false ∧ publishes e = false
                 ∧ isLogQuery e = false)
      (trace (after (createStagingPR env options) initial)).
Proof.
  intros Hres Hs Hd Hstatus.
  assert (createStagingPR env options initial
          = (Exited 1,
             logged [SpinnerStart "Checking repository status..."; GitStatus;
                     SpinnerFail
                       "Working directory is not clean. Please commit or stash your changes."]
               s)) as Hrun.
  { apply run_stops_with_resolveBranches. unfold resolveBranches.
    rewrite (bind_value _ _ _ _ _ Hres).
    rewrite (bind_value _ _ _ _ _ (rejectProtected_passes options _ s Hs Hd)).
    apply bind_exited. unfold checkStatus, call, bind, emit, lift.
    rewrite Hstatus. simpl. by rewrite !record_logged, !logged_logged. }
  split; [done|]. unfold after. rewrite Hrun. simpl.
  destruct (resolveFeatureBranch_local env options initial) as (es & Htr & Hes).
  unfold after in Htr. rewrite Hres in Htr. simpl in Htr. rewrite Htr.
  apply Forall_app. split; [done|]. by repeat constructor.
Qed.

(** X4.  The three branches are looked up in the list of [git branch -a], the
    feature branch first, then the staging and the develop branch, each
    under its own name or as [remotes/origin/] followed by its name.  The
    first one that is missing stops the run with code 1 and is named in the
    report; no log has been asked for and nothing is published. *)
Theorem missing_branch_stops_the_run (env : Env) (options : Options)
    (feature : string) (s : Store) (all : list string) (kind name : string) :
  resolveFeatureBranch env options initial = (Value feature, s) →
  feature ≠ stagingBranch options → feature ≠ developBranch options →
  statusIsClean env = Done true →
  fetch env = Done tt →
  branchAll env = Done all →
  List.find (λ b, negb (hasBranch all b.2))
    (requiredBranches options feature) = Some (kind, name) →
  let run := createStagingPR env options in
  result run initial = Exited 1
  ∧ last (trace (after run initial)) = Some (notFound kind name)
  ∧ Forall (λ e, publishes e = false ∧ isLogQuery e = false)
      (trace (after run initial)).
Proof.
  intros Hres Hs Hd Hstatus Hfetch Hall Hfind run. subst run.
  assert (∃ es, createStagingPR env options initial
                = (Exited 1, logged (es ++ [notFound kind name]) s)
                ∧ Forall (λ e, publishes e = false ∧ isLogQuery e = false) es)
    as (es & Hrun & Hes).
  { eexists. split.
    - apply run_stops_with_resolveBranches. unfold resolveBranches.
      rewrite (bind_value _ _ _ _ _ Hres).
      rewrite (bind_value _ _ _ _ _ (rejectProtected_passes options _ s Hs Hd)).
      unfold checkStatus, fetchLatest, checkBranchesExist, call, bind, emit,
        lift, hasBranch, includes.
      rewrite Hstatus, Hfetch, Hall. simpl.
      unfold requiredBranches, hasBranch, includes in Hfind. simpl in Hfind.
      destruct (bool_decide (feature ∈ all)
                || bool_decide ("remotes/origin/" +:+ feature ∈ all));
        simpl in *.
      2: { injection Hfind as <- <-.
           rewrite !record_logged, !logged_logged. simpl app.
           by instantiate (1 := [_; _; _; _; _; _; _; _]). }
      destruct (bool_decide (stagingBranch options ∈ all)
                || bool_decide ("remotes/origin/" +:+ stagingBranch options
                                ∈ all)); simpl in *.
      2: { injection Hfind as <- <-.
           by rewrite !record_logged, !logged_logged. }
      destruct (bool_decide (developBranch options ∈ all)
                || bool_decide ("remotes/origin/" +:+ developBranch options
                                ∈ all)); simpl in *; [done|].
      injection Hfind as <- <-. by rewrite !record_logged, !logged_logged.
    - by repeat constructor. }
  unfold result, after. rewrite Hrun. simpl. split_and!; [done| |].
  - by rewrite app_assoc, last_snoc.
  - destruct (resolveFeatureBranch_local env options initial)
      as (es' & Htr & Hes').
    unfold after in Htr. rewrite Hres in Htr. simpl in Htr. rewrite Htr.
    apply Forall_app. split.
    + eapply Forall_impl; [exact Hes'|]. by intros e (_ & ? & ?).
    + apply Forall_app. split; [done|]. by repeat constructor.
Qed.

(** * The URL of the remote *)

Lemma contains_nil c : contains c EmptyString = false.
Proof. done. Qed.

Lemma contains_cons_false c d s :
  d ≠ c → contains c s = false → contains c (String d s) = false.
Proof.
  unfold contains. rewrite !bool_decide_eq_false. simpl.
  intros Hd Hs [?|?]%elem_of_cons; [by subst|done].
Qed.

Lemma span_not_sound c s a b :
  span (λ x, negb (Ascii.eqb x c)) s = (a, b) → contains c a = false.
Proof.
  revert a b. induction s as [|d s IH]; intros a b; simpl.
  - by intros [= <- <-].
  - destruct (Ascii.eqb d c) eqn:Hd; simpl; [by intros [= <- <-]|].
    destruct (span _ s) as [a' b'] eqn:Hspan. intros [= <- <-].
    apply contains_cons_false; [by apply Ascii.eqb_neq | by eapply IH].
Qed.

Lemma span_not_stop c a b :
  contains c a = false →
  span (λ x, negb (Ascii.eqb x c)) (a +:+ String c b) = (a, String c b).
Proof.
  induction a as [|d a IH]; simpl.
  - intros _. by rewrite Ascii.eqb_refl.
  - intros [Hd Ha]%contains_cons. apply Ascii.eqb_neq in Hd.
    by rewrite Hd, (IH Ha).
Qed.

Lemma span_not_end c a :
  contains c a = false →
  span (λ x, negb (Ascii.eqb x c)) a = (a, EmptyString).
Proof.
  induction a as [|d a IH]; simpl; [done|].
  intros [Hd Ha]%contains_cons. apply Ascii.eqb_neq in Hd.
  by rewrite Hd, (IH Ha).
Qed.

(** A pattern that starts with a character the text does not have is not
    replaced. *)
Lemma replace_absent c pat rep s :
  contains c s = false → replace (String c pat) rep s = s.
Proof.
  induction s as [|d s IH]; [done|].
  intros [Hd Hs]%contains_cons. simpl.
  destruct (ascii_dec c d) as [->|_]; [done|]. by rewrite (IH Hs).
Qed.

Lemma append_nil_r (a : string) : a +:+ EmptyString = a.
Proof.
  induction a as [|x a IH]; [done|].
  change (String x (a +:+ EmptyString) = String x a). by rewrite IH.
Qed.

Lemma matchRemoteHere_sound s owner repo :
  matchRemoteHere s = Some (owner, repo) →
  owner ≠ EmptyString ∧ contains slash owner = false
  ∧ repo ≠ EmptyString ∧ contains dot repo = false.
Proof.
  unfold matchRemoteHere. destruct (String.prefix "github.com" s); [|done].
  destruct (drop 10 s) as [|c r]; [done|].
  destruct (Ascii.eqb c (chr 58) || Ascii.eqb c slash); [|done].
  destruct (span _ r) as [[|o os] [|x r2]] eqn:Howner; try done.
  destruct (span _ r2) as [[|p ps] rest] eqn:Hrepo; [done|].
  intros [= <- <-]. apply span_not_sound in Howner, Hrepo. done.
Qed.

(** X15.  What the pattern captures: an owner without [/] and a repository name
    without [.], both not empty.  There is no [.git] left to remove from
    the name: the replacement of line 361 changes nothing. *)
Theorem remote_pattern_captures (url owner repo : string) :
  matchRemote url = Some (owner, repo) →
  owner ≠ EmptyString ∧ contains slash owner = false
  ∧ repo ≠ EmptyString ∧ contains dot repo = false
  ∧ replace ".git" EmptyString repo = repo.
Proof.
  intros Hmatch.
  assert (owner ≠ EmptyString ∧ contains slash owner = false
          ∧ repo ≠ EmptyString ∧ contains dot repo = false)
    as (Ho & Hslash & Hr & Hdot).
  { induction url as [|c url IH]; [done|].
    change (matchRemote (String c url))
      with (match matchRemoteHere (String c url) with
            | Some r => Some r
            | None => matchRemote url
            end) in Hmatch.
    destruct (matchRemoteHere (String c url)) as [r|] eqn:Hhere; [|auto].
    injection Hmatch as ->. by apply matchRemoteHere_sound in Hhere. }
  split_and!; try done. by apply replace_absent.
Qed.

Lemma matchRemoteHere_github (sep : ascii) (owner repo rest : string) :
  sep = chr 58 ∨ sep = slash →
  owner ≠ EmptyString → contains slash owner = false →
  repo ≠ EmptyString → contains dot repo = false →
  rest = EmptyString ∨ (∃ r, rest = String dot r) →
  matchRemoteHere
    ("github.com" +:+ String sep (owner +:+ String slash (repo +:+ rest)))
  = Some (owner, repo).
Proof.
  intros Hsep Ho Hslash Hr Hdot Hrest. unfold matchRemoteHere.
  change (String.prefix "github.com" ("github.com" +:+ ?x)) with true.
  cbv iota. change (drop 10 ("github.com" +:+ ?x)) with x. cbv iota.
  assert (Ascii.eqb sep (chr 58) || Ascii.eqb sep slash = true) as ->
    by (by destruct Hsep as [->| ->]).
  rewrite (span_not_stop slash owner _ Hslash).
  destruct owner as [|o os]; [done|].
  assert (span (λ x, negb (Ascii.eqb x (chr 46))) (repo +:+ rest)
          = (repo, rest)) as ->.
  { destruct Hrest as [->|[r ->]].
    - rewrite append_nil_r. by apply (span_not_end dot).
    - by apply (span_not_stop dot). }
  by destruct repo.
Qed.

Lemma matchRemote_here s r :
  matchRemoteHere s = Some r → matchRemote s = Some r.
Proof.
  intros Hs. destruct s as [|c s].
  - change (matchRemote EmptyString)
      with (match matchRemoteHere EmptyString with
            | Some r => Some r
            | None => None
            end).
    by rewrite Hs.
  - change (matchRemote (String c s))
      with (match matchRemoteHere (String c s) with
            | Some r => Some r
            | None => matchRemote s
            end).
    by rewrite Hs.
Qed.

Lemma matchRemote_skip c s :
  matchRemoteHere (String c s) = None →
  matchRemote (String c s) = matchRemote s.
Proof.
  intros Hs.
  change (matchRemote (String c s))
    with (match matchRemoteHere (String c s) with
          | Some r => Some r
          | None => matchRemote s
          end).
  by rewrite Hs.
Qed.

(** X16.  The pattern reads the owner and the repository from the URLs that
    GitHub gives out, with or without the [.git] at the end.  The name of
    the repository is read up to its first [.]: what follows a dot in the
    name itself is lost. *)
Theorem remote_pattern_reads_github_urls (owner repo rest : string) :
  owner ≠ EmptyString → contains slash owner = false →
  repo ≠ EmptyString → contains dot repo = false →
  rest = EmptyString ∨ (∃ r, rest = String dot r) →
  matchRemote ("git@github.com:" +:+ owner +:+ "/" +:+ repo +:+ rest)
  = Some (owner, repo)
  ∧ matchRemote ("https://github.com/" +:+ owner +:+ "/" +:+ repo +:+ rest)
    = Some (owner, repo).
Proof.
  intros Ho Hslash Hr Hdot Hrest.
  pose proof (matchRemoteHere_github (chr 58) owner repo rest
                (or_introl eq_refl) Ho Hslash Hr Hdot Hrest) as Hssh.
  pose proof (matchRemoteHere_github slash owner repo rest
                (or_intror eq_refl) Ho Hslash Hr Hdot Hrest) as Hhttps.
  split.
  - change (matchRemote
              (String "g" (String "i" (String "t" (String "@"
                 ("github.com"
                  +:+ String (chr 58)
                        (owner +:+ String slash (repo +:+ rest)))))))
            = Some (owner, repo)).
    do 4 (rewrite matchRemote_skip by reflexivity).
    by apply matchRemote_here.
  - change (matchRemote
              (String "h" (String "t" (String "t" (String "p"
                 (String "s" (String ":" (String "/" (String "/"
                    ("github.com"
                     +:+ String slash
                           (owner +:+ String slash (repo +:+ rest)))))))))))
            = Some (owner, repo)).
    do 8 (rewrite matchRemote_skip by reflexivity).
    by apply matchRemote_here.
Qed.

(** * The branches to process *)

Lemma filterTry_elem {A} (p : A -> Try bool) (l r : list A) x :
  filterTry p l = Done r → (x ∈ r ↔ x ∈ l ∧ p x = Done true).
Proof.
  revert r. induction l as [|y l IH]; intros r; simpl.
  - intros [= <-]. split; [by intros ?%elem_of_nil|by intros [?%elem_of_nil _]].
  - destruct (p y) as [keep|e] eqn:Hy; [|done].
    destruct (filterTry p l) as [r'|e]; [|done]. intros [= <-].
    specialize (IH r' eq_refl). destruct keep.
    + rewrite !elem_of_cons, IH. split.
      * intros [->|[? ?]]; auto.
      * intros [[->|?] ?]; auto.
    + rewrite elem_of_cons, IH. split.
      * intros [? ?]; auto.
      * intros [[->|?] ?]; [congruence|auto].
Qed.

Lemma filterTry_sublist {A} (p : A -> Try bool) (l r : list A) :
  filterTry p l = Done r → r `sublist_of` l.
Proof.
  revert r. induction l as [|y l IH]; intros r; simpl.
  - by intros [= <-].
  - destruct (p y) as [keep|e]; [|done].
    destruct (filterTry p l) as [r'|e]; [|done]. intros [= <-].
    specialize (IH r' eq_refl).
    destruct keep; [by apply sublist_skip | by apply sublist_cons].
Qed.

Lemma prefix_drop (p s : string) :
  String.prefix p s = true → s = p +:+ drop (String.length p) s.
Proof.
  revert s. induction p as [|c p IH]; intros s; [done|].
  destruct s as [|d s]; [done|]. simpl.
  destruct (ascii_dec c d) as [->|]; [|done].
  intros Hp. change (String d s = String d (p +:+ drop (String.length p) s)).
  by rewrite <- (IH s Hp).
Qed.

Lemma replace_unfold pat rep s :
  replace pat rep s
  = if String.prefix pat s then rep +:+ drop (String.length pat) s
    else match s with
         | EmptyString => EmptyString
         | String c s' => String c (replace pat rep s')
         end.
Proof. by destruct s. Qed.

Lemma prefix_app (p s : string) : String.prefix p (p +:+ s) = true.
Proof.
  induction p as [|c p IH]; [by destruct s|]. simpl.
  by destruct (ascii_dec c c).
Qed.

Lemma drop_app (p s : string) : drop (String.length p) (p +:+ s) = s.
Proof. induction p as [|c p IH]; [done|]. exact IH. Qed.

Lemma replace_prefix pat rep s : replace pat rep (pat +:+ s) = rep +:+ s.
Proof. by rewrite replace_unfold, prefix_app, drop_app. Qed.

(** Removing the first [origin/] of a name that starts with it removes this
    prefix. *)
Lemma replace_origin (b : string) :
  startsWith b "origin/" = true →
  b = "origin/" +:+ replace "origin/" EmptyString b.
Proof.
  intros Hb. unfold startsWith in Hb.
  destruct b as [|c b]; [done|]. unfold replace. rewrite Hb.
  by apply prefix_drop in Hb.
Qed.

Section Branches.
Context (env : Env) (options : Options).

(** Lines 150-174, when the list of remote branches can be read. *)
Lemma findSubBranches_value feature subs s s' :
  findSubBranches env options feature s = (Value subs, s') →
  if includeSubBranches options then
    ∃ all,
      branchRemote env = Done all
      ∧ filterTry
          (isSubBranch env feature
             (if given (subBranchPattern options)
              then default EmptyString (subBranchPattern options)
              else feature +:+ "*"))
          (map (replace "origin/" EmptyString)
             (filter (λ b, startsWith b "origin/" = true) all))
        = Done subs
  else subs = [].
Proof.
  unfold findSubBranches. destruct (includeSubBranches options).
  2: { by intros [= <- _]. }
  cbv zeta. unfold call, bind, emit, lift.
  destruct (branchRemote env) as [all|e]; simpl; [|done].
  destruct (filterTry _ _) as [r|e] eqn:Hfilter; simpl; [|done].
  intros Hrun. exists all. split; [done|].
  by destruct (0 <? length r); simpl in Hrun; injection Hrun as <- _.
Qed.

End Branches.

(** X6.  Without an explicit list the branches to process are the feature branch
    followed by the sub-branches.  The feature branch is not among the
    sub-branches; they are names that [git branch -r] lists under
    [origin/], in the order of that list; and when that list has no
    duplicates, neither have the branches to process. *)
Theorem sub_branches_follow_the_feature_branch (env : Env) (options : Options)
    (feature : string) (branchesToProcess : list string) (s s' : Store) :
  given (branches options) = false →
  determineBranches env options feature s = (Value branchesToProcess, s') →
  ∃ subBranches,
    branchesToProcess = feature :: subBranches
    ∧ (feature ∉ subBranches)
    ∧ (includeSubBranches options = false → subBranches = [])
    ∧ ∀ all, branchRemote env = Done all →
        subBranches
        `sublist_of` (replace "origin/" EmptyString
                        <$> filter (λ b, startsWith b "origin/" = true) all)
        ∧ (NoDup all → NoDup branchesToProcess).
Proof.
  intros Hlist. unfold determineBranches. rewrite Hlist. intros Hrun.
  apply bind_value_inv in Hrun as (subs & s1 & Hsubs & [= <- <-]).
  exists subs. apply findSubBranches_value in Hsubs.
  destruct (includeSubBranches options).
  2: { subst subs. split_and!; [done|set_solver|done|].
       intros all _. split; [apply sublist_nil_l|]. intros _.
       apply NoDup_singleton. }
  destruct Hsubs as (all & Hall & Hfilter).
  assert (feature ∉ subs) as Hfeature.
  { intros [_ Hp]%(filterTry_elem _ _ _ _ Hfilter). unfold isSubBranch in Hp.
    by rewrite String.eqb_refl in Hp. }
  split_and!; [done..|]. intros all' Hall'. rewrite Hall in Hall'.
  injection Hall' as <-. pose proof (filterTry_sublist _ _ _ Hfilter) as Hsub.
  split; [done|]. intros Hnodup. apply NoDup_cons. split; [done|].
  refine (sublist_NoDup _ _ _ Hsub).
  apply NoDup_fmap_2_strong; [|by apply NoDup_filter].
  intros x y [Hx _]%list_elem_of_filter [Hy _]%list_elem_of_filter Heq.
  rewrite (replace_origin x Hx), (replace_origin y Hy). by rewrite Heq.
Qed.

(** X7.  With the default pattern every other branch of [origin] whose name
    starts with the name of the feature branch is a sub-branch, whatever
    the regular expression says. *)
Theorem default_pattern_takes_prefixed_branches (env : Env)
    (options : Options) (feature : string) (branchesToProcess : list string)
    (s s' : Store) (all : list string) (b : string) :
  given (branches options) = false →
  includeSubBranches options = true →
  given (subBranchPattern options) = false →
  contains (chr 42) feature = false →
  determineBranches env options feature s = (Value branchesToProcess, s') →
  branchRemote env = Done all →
  "origin/" +:+ b ∈ all → b ≠ feature → startsWith b feature = true →
  b ∈ branchesToProcess.
Proof.
  intros Hlist Hsub Hpattern Hstar Hrun Hall Hb Hne Hprefix.
  unfold determineBranches in Hrun. rewrite Hlist in Hrun.
  apply bind_value_inv in Hrun as (subs & s1 & Hsubs & [= <- <-]).
  apply findSubBranches_value in Hsubs. rewrite Hsub, Hpattern in Hsubs.
  destruct Hsubs as (all' & Hall' & Hfilter). rewrite Hall in Hall'.
  injection Hall' as <-. apply list_elem_of_further.
  apply (filterTry_elem _ _ _ _ Hfilter). split.
  - apply list_elem_of_fmap. exists ("origin/" +:+ b).
    split; [by rewrite replace_prefix|].
    apply list_elem_of_filter. split; [apply prefix_app|done].
  - unfold isSubBranch. apply String.eqb_neq in Hne. rewrite Hne. simpl.
    change (replace "*" EmptyString (feature +:+ "*"))
      with (replace (str1 (chr 42)) EmptyString
              (feature +:+ String (chr 42) EmptyString)).
    rewrite (replace_first _ _ _ _ Hstar).
    change (EmptyString +:+ EmptyString) with EmptyString.
    rewrite append_nil_r. by rewrite Hprefix.
Qed.

(** * Reading the formatted log *)

Lemma split_none sep s : contains sep s = false → split sep s = [s].
Proof.
  induction s as [|c s IH]; [done|].
  intros [Hc Hs]%contains_cons. simpl.
  destruct (Ascii.eqb_spec c sep) as [->|_]; [done|]. by rewrite (IH Hs).
Qed.

Lemma contains_app c a b :
  contains c (a +:+ b) = false ↔ contains c a = false ∧ contains c b = false.
Proof.
  induction a as [|d a IH].
  { change (EmptyString +:+ b) with b. split; [by intros ?|by intros [_ ?]]. }
  change (String d a +:+ b) with (String d (a +:+ b)). split.
  - intros [Hd [Ha Hb]%IH]%contains_cons. split; [|done].
    by apply contains_cons_false.
  - intros [[Hd Ha]%contains_cons Hb]. apply contains_cons_false; [done|].
    by apply IH.
Qed.

Lemma trimEnd_unfold c s :
  trimEnd (String c s)
  = match trimEnd s with
    | EmptyString => if isSpace c then EmptyString else str1 c
    | t => String c t
    end.
Proof. done. Qed.

Lemma trimEnd_app a b :
  trimEnd b ≠ EmptyString → trimEnd (a +:+ b) = a +:+ trimEnd b.
Proof.
  intros Hb. induction a as [|c a IH]; [done|].
  change (String c a +:+ b) with (String c (a +:+ b)).
  rewrite trimEnd_unfold, IH.
  change (String c a +:+ trimEnd b) with (String c (a +:+ trimEnd b)).
  destruct (a +:+ trimEnd b) as [|x y] eqn:Hab; [|done].
  destruct a; [by simpl in Hab|done].
Qed.

Lemma trimEnd_app_blank a b :
  trimEnd b = EmptyString → trimEnd (a +:+ b) = trimEnd a.
Proof.
  intros Hb. induction a as [|c a IH]; [done|].
  change (String c a +:+ b) with (String c (a +:+ b)).
  by rewrite !trimEnd_unfold, IH.
Qed.

Lemma trimEnd_cons_fixed c s :
  trimEnd s = s → isSpace c = false → trimEnd (String c s) = String c s.
Proof. intros Hs Hc. rewrite trimEnd_unfold, Hs, Hc. by destruct s. Qed.

Lemma trimEnd_app_cons a c b :
  isSpace c = false → trimEnd b = b →
  trimEnd (a +:+ String c b) = a +:+ String c b.
Proof.
  intros Hc Hb. rewrite trimEnd_app; by rewrite trimEnd_cons_fixed.
Qed.

Lemma filter_keeps_all {A} (P : A → Prop) `{!∀ x, Decision (P x)} (l : list A) :
  Forall P l → filter P l = l.
Proof.
  induction 1 as [|x l Hx _ IH]; [done|].
  by rewrite filter_cons_True, IH.
Qed.

Section Reading.
Context (b : string).

Lemma formatCommit_line (c : Commit) :
  readable c →
  contains nl (formatCommit c) = false
  ∧ trimStart (formatCommit c) = formatCommit c
  ∧ trimEnd (formatCommit c) = formatCommit c
  ∧ formatCommit c ≠ EmptyString.
Proof.
  intros ([_ Hh] & [_ Hm] & [_ Ha] & [_ Hd] & [_ Hr] & (x & h & Hx & Hsp)
          & Hend & _).
  unfold formatCommit. split_and!.
  - rewrite !contains_app. split_and!; done.
  - rewrite Hx. change (String x h +:+ ?y) with (String x (h +:+ y)).
    simpl. by rewrite Hsp.
  - rewrite !append_pipe. by repeat apply trimEnd_app_cons.
  - by rewrite Hx.
Qed.

(** Lines 217-227 on one line of the log. *)
Lemma parseLine_formatCommit (c : Commit) :
  readable c → branch c = b → parseLine b (formatCommit c) = c.
Proof.
  intros ([Hh _] & [Hm _] & [Ha _] & [Hd _] & [Hr _] & _ & _ & Hdate) Hb.
  unfold parseLine, formatCommit. rewrite !append_pipe.
  rewrite !split_app, split_none by done. simpl.
  destruct c. simpl in *. by subst.
Qed.

Lemma trimEnd_formatLog (c : Commit) (cs : list Commit) :
  Forall readable (c :: cs) →
  trimEnd (formatLog (c :: cs))
  = join (str1 nl) (formatCommit <$> c :: cs).
Proof.
  revert c. induction cs as [|c' cs IH]; intros c Hcs.
  - apply Forall_cons in Hcs as [Hc _].
    destruct (formatCommit_line c Hc) as (_ & _ & Hend & _). simpl.
    by rewrite trimEnd_app_blank.
  - apply Forall_cons in Hcs as [Hc Hcs]. specialize (IH c' Hcs).
    change (formatLog (c :: c' :: cs))
      with (formatCommit c +:+ String nl (formatLog (c' :: cs))).
    change (String nl ?x) with (str1 nl +:+ x).
    rewrite <- append_assoc, trimEnd_app; rewrite IH.
    + by rewrite append_assoc.
    + apply Forall_cons in Hcs as [Hc' _].
      destruct (formatCommit_line c' Hc') as (_ & _ & _ & Hne).
      simpl. destruct cs; [done|]. by destruct (formatCommit c').
Qed.

Lemma split_join_lines (ls : list string) :
  ls ≠ [] → Forall (λ l, contains nl l = false) ls →
  split nl (join (str1 nl) ls) = ls.
Proof.
  intros Hne Hls. induction Hls as [|l ls Hl Hls IH]; [done|].
  destruct ls as [|l' ls]; [by apply split_none|].
  change (join (str1 nl) (l :: l' :: ls))
    with (l +:+ String nl (join (str1 nl) (l' :: ls))).
  rewrite split_app by done. by rewrite IH.
Qed.

End Reading.

(** X8.  Reading back what git prints: the raw output for a list of commits whose
    fields have no [|] and no line break gives these commits again, in the
    same order, tagged with the branch; an output made of white space only
    gives no commit at all. *)
Theorem raw_log_round_trip (b : string) (commits : list Commit) :
  Forall readable commits →
  Forall (λ commit, branch commit = b) commits →
  parseRawOutput b (formatLog commits) = commits
  ∧ ∀ blank, trim blank = EmptyString → parseRawOutput b blank = [].
Proof.
  intros Hread Hbranch. split.
  2: { intros blank Hblank. unfold parseRawOutput. by rewrite Hblank. }
  destruct commits as [|c cs]; [done|]. unfold parseRawOutput, trim.
  assert (trimStart (formatLog (c :: cs)) = formatLog (c :: cs)) as ->.
  { apply Forall_cons in Hread as [(_ & _ & _ & _ & _ & (x & h & Hx & Hsp) & _)
                                     _].
    simpl. unfold formatCommit. rewrite Hx.
    change (String x h +:+ ?y) with (String x (h +:+ y)).
    change ((String x ?u) +:+ ?y) with (String x (u +:+ y)).
    simpl. by rewrite Hsp. }
  rewrite trimEnd_formatLog by done.
  rewrite split_join_lines; [|done|].
  2: { apply Forall_fmap. eapply Forall_impl; [exact Hread|].
       intros c' Hc'. by destruct (formatCommit_line c' Hc'). }
  rewrite filter_keeps_all.
  - rewrite <- list_fmap_compose.
    rewrite <- (list_fmap_id (c :: cs)) at 2. apply Forall_fmap_ext_1.
    apply Forall_forall. intros c' Hin. simpl.
    apply (parseLine_formatCommit b c').
    + by apply (proj1 (Forall_forall _ _) Hread).
    + by apply (proj1 (Forall_forall _ _) Hbranch).
  - apply Forall_fmap. eapply Forall_impl; [exact Hread|].
    intros c' Hc'. simpl.
    destruct (formatCommit_line c' Hc') as (_ & -> & -> & Hne).
    by destruct (formatCommit c').
Qed.

(** * The explicit list of branches *)

Lemma trimStart_solid s :
  trimStart s = EmptyString
  ∨ ∃ c t, trimStart s = String c t ∧ isSpace c = false.
Proof.
  induction s as [|c s IH]; [by left|]. simpl.
  destruct (isSpace c) eqn:Hc; [done|]. right. by exists c, s.
Qed.

Lemma trimEnd_solid c t :
  isSpace c = false → trimEnd (String c t) = String c (trimEnd t).
Proof. intros Hc. rewrite trimEnd_unfold, Hc. by destruct (trimEnd t). Qed.

Lemma trimEnd_idempotent s : trimEnd (trimEnd s) = trimEnd s.
Proof.
  induction s as [|c s IH]; [done|]. rewrite trimEnd_unfold.
  destruct (trimEnd s) as [|x y] eqn:Hs.
  - destruct (isSpace c) eqn:Hc; [done|]. simpl. by rewrite Hc.
  - by rewrite trimEnd_unfold, IH.
Qed.

Lemma trim_idempotent s : trim (trim s) = trim s.
Proof.
  unfold trim. destruct (trimStart_solid s) as [->|(c & t & -> & Hc)]; [done|].
  rewrite (trimEnd_solid _ _ Hc). simpl trimStart. rewrite Hc.
  by rewrite <- (trimEnd_solid _ _ Hc), trimEnd_idempotent.
Qed.

Lemma contains_trimStart c s :
  contains c s = false → contains c (trimStart s) = false.
Proof.
  induction s as [|d s IH]; [done|]. intros Hs. simpl.
  destruct (isSpace d); [|done]. by apply contains_cons in Hs as [_ ?%IH].
Qed.

Lemma contains_trimEnd c s :
  contains c s = false → contains c (trimEnd s) = false.
Proof.
  induction s as [|d s IH]; [done|].
  intros [Hd Hs%IH]%contains_cons. rewrite trimEnd_unfold.
  destruct (trimEnd s) as [|x y].
  - destruct (isSpace d); [done|]. by apply contains_cons_false.
  - by apply contains_cons_false.
Qed.

Lemma split_pieces sep s :
  Forall (λ p, contains sep p = false) (split sep s).
Proof.
  induction s as [|c s IH]; [by repeat constructor|]. simpl.
  destruct (Ascii.eqb_spec c sep) as [->|Hc]; [by constructor|].
  pose proof (split_nonempty sep s) as Hne.
  destruct (split sep s) as [|p ps]; [done|].
  apply Forall_cons in IH as [Hp Hps]. constructor; [|done].
  by apply contains_cons_false.
Qed.

(** X5.  The list given with [--branches] always has a first entry; its entries
    are free of commas and of white space at both ends, so that trimming
    them again changes nothing; and there is one entry more than there are
    commas in the text, empty entries included. *)
Theorem manual_branches_are_trimmed (text : string) :
  manualBranches text ≠ []
  ∧ Forall (λ entry, trim entry = entry ∧ contains comma entry = false)
      (manualBranches text)
  ∧ length (manualBranches text)
    = S (length (filter (λ c, c = comma) (list_ascii_of_string text))).
Proof.
  unfold manualBranches. split_and!.
  - pose proof (split_nonempty comma text). by destruct (split comma text).
  - apply Forall_fmap. eapply Forall_impl; [apply split_pieces|].
    intros p Hp. simpl. split; [apply trim_idempotent|].
    by apply contains_trimEnd, contains_trimStart.
  - rewrite length_map. induction text as [|c text IH]; [done|]. simpl.
    rewrite filter_cons.
    destruct (Ascii.eqb_spec c comma) as [->|Hc].
    + rewrite decide_True by done. simpl. by rewrite IH.
    + rewrite decide_False by done.
      pose proof (split_nonempty comma text).
      by destruct (split comma text).
Qed.

(** * The earlier revision *)

Lemma picksPrefix_after_silent {A} hashes (m : Proc A) (k : A -> Proc unit) :
  steps silent m →
  (∀ a s s', m s = (Value a, s') → picksPrefix hashes (k a)) →
  picksPrefix hashes (bind m k).
Proof.
  intros Hm Hk s. destruct (Hm s) as [Hp _].
  unfold after, result, bind in *.
  destruct (m s) as [[a|e|c] s1] eqn:Hms; simpl in *.
  - destruct (Hk a s s1 Hms s1) as (n & Hn & Hlen). exists n.
    unfold after, result in *. by rewrite Hn, Hp.
  - exists 0. by rewrite take_0, app_nil_r.
  - exists 0. by rewrite take_0, app_nil_r.
Qed.

Lemma picksPrefix_then_silent hashes (m : Proc unit) (k : unit -> Proc unit) :
  picksPrefix hashes m → (∀ a, steps silent (k a)) →
  picksPrefix hashes (bind m k).
Proof.
  intros Hm Hk s. destruct (Hm s) as (n & Hn & Hlen). exists n.
  unfold after, result, bind in *.
  destruct (m s) as [[[]|e|c] s1]; simpl in *; [|done..].
  destruct (Hk tt s1) as [Hp _]. unfold after in *.
  split; [by rewrite Hp, Hn | intros _; by apply Hlen].
Qed.

Lemma rev_fmap {A B} (f : A -> B) (l : list A) : rev (f <$> l) = f <$> rev l.
Proof.
  induction l as [|x l IH]; [done|].
  change (rev (f x :: (f <$> l)) = f <$> (rev l ++ [x])).
  change (rev (f <$> l) ++ [f x] = f <$> (rev l ++ [x])).
  by rewrite IH, fmap_app.
Qed.

Section Earlier.
Context (env : Env) (options : Options).

Lemma first_cherryPick_run (c : LogLine) s :
  ∃ es, FirstRevision.cherryPick env c s
        = (match raw env ["cherry-pick"; ll_hash c] with
           | Done _ => Value tt
           | Raised _ => Exited 1
           end, logged (GitRaw ["cherry-pick"; ll_hash c] :: es) s)
        ∧ picked es = [].
Proof.
  unfold FirstRevision.cherryPick, tryCatch, call, bind, emit, lift.
  destruct (raw env ["cherry-pick"; ll_hash c]) as [out|e]; simpl.
  - exists []. by rewrite <- logged_record, logged_nil.
  - eexists [_; _; _; _; _].
    split; [unfold logged, record; simpl; by rewrite <- !app_assoc | done].
Qed.

(** Lines 127-142 of the earlier revision. *)
Lemma first_cherryPick_loop (l : list LogLine) :
  picksPrefix (ll_hash <$> l) (forOf l (FirstRevision.cherryPick env)).
Proof.
  induction l as [|c l IH]; intros s.
  - exists 0. unfold after, result. simpl. by rewrite app_nil_r.
  - simpl forOf. unfold after, result in *. unfold bind.
    destruct (first_cherryPick_run c s) as (es & -> & Hes).
    destruct (raw env ["cherry-pick"; ll_hash c]) as [out|e].
    + destruct (IH (logged (GitRaw ["cherry-pick"; ll_hash c] :: es) s))
        as (n & Hn & Hlen).
      exists (S n). unfold after, result in *. simpl in Hn.
      rewrite picked_app in Hn.
      change (picked (GitRaw ["cherry-pick"; ll_hash c] :: es))
        with (ll_hash c :: picked es) in Hn.
      rewrite Hes, <- app_assoc in Hn. split; [done|].
      intros Hv. simpl. f_equal. by apply Hlen.
    + exists 1. simpl. split; [|done]. rewrite picked_app.
      change (picked (GitRaw ["cherry-pick"; ll_hash c] :: es))
        with (ll_hash c :: picked es).
      by rewrite Hes, take_0.
Qed.

Lemma first_publish_picks feature (all : list LogLine) :
  picksPrefix (rev (ll_hash <$> all))
    (FirstRevision.publish env options feature all).
Proof.
  unfold FirstRevision.publish. cbv zeta.
  apply picksPrefix_after_silent; [silent_solve|]. intros _ _ _ _.
  apply picksPrefix_after_silent; [silent_solve|]. intros _ _ _ _.
  apply picksPrefix_after_silent; [silent_solve|]. intros _ _ _ _.
  apply picksPrefix_after_silent; [silent_solve|]. intros _ _ _ _.
  apply picksPrefix_then_silent.
  - rewrite rev_fmap. apply first_cherryPick_loop.
  - intros _. unfold FirstRevision.requestPR. silent_solve.
Qed.

End Earlier.

(** X17.  The earlier revision asks for one log, from the develop branch to the
    feature branch, and applies its commits in the reverse of the order in
    which git lists them, up to the first one that fails; a dry run
    publishes nothing. *)
Theorem first_revision_applies_oldest_first (env : Env) (options : Options)
    (feature : string) (s : Store) (all : list LogLine) :
  FirstRevision.resolveFeatureBranch env options initial = (Value feature, s) →
  log env ("origin/" +:+ developBranch options) ("origin/" +:+ feature)
  = Done all →
  let run := FirstRevision.createStagingPR env options in
  (∃ n, picked (trace (after run initial)) = take n (rev (ll_hash <$> all))
        ∧ (dryRun options = false → result run initial = Value tt →
           n = length all))
  ∧ Forall (λ e, isLogQuery e = true →
                 e = GitLog ("origin/" +:+ developBranch options)
                       ("origin/" +:+ feature))
      (trace (after run initial))
  ∧ (dryRun options = true →
     Forall (λ e, publishes e = false) (trace (after run initial))).
Proof.
  intros Hres Hlog run. subst run.
  set (tail := (rejectProtected options feature ;;
                checkStatus env ;;
                fetchLatest env ;;
                checkBranchesExist env options feature ;;
                FirstRevision.proceed env options feature)).
  assert (FirstRevision.createStagingPR env options initial
          = match tail s with
            | (Thrown e, s') =>
                (Exited 1, record (SpinnerFail ("Error: " +:+ e)) s')
            | r => r
            end) as Hrun.
  { unfold FirstRevision.createStagingPR, tryCatch.
    rewrite (bind_value _ _ _ _ _ Hres). fold tail.
    by destruct (tail s) as [[[]|e|c] s']. }
  assert (∀ P : Event → Prop, P (GitBranch []) → (∀ t, P (ConsoleLog t)) →
            Forall P (trace s)) as Hfirst.
  { intros P Hb Hc.
    assert (steps (emits P) (FirstRevision.resolveFeatureBranch env options))
      as Hsteps by (unfold FirstRevision.resolveFeatureBranch; emits_solve).
    destruct (Hsteps initial) as (es & Htr & Hes). unfold after in Htr.
    rewrite Hres in Htr. simpl in Htr. by rewrite Htr. }
  split_and!.
  - assert (picked (trace s) = []) as Hs.
    { apply picked_quiet. by apply Hfirst. }
    destruct (dryRun options) eqn:Hdry.
    + exists 0. split; [|done]. rewrite take_0.
      assert (steps silent tail) as Htail.
      { unfold tail, rejectProtected, checkStatus, fetchLatest,
          checkBranchesExist, FirstRevision.proceed,
          Legacy.getFeatureCommits, FirstRevision.requireCommits,
          FirstRevision.displayCommits.
        rewrite Hdry. silent_solve. }
      destruct (Htail s) as [Hp _]. unfold after in *. rewrite Hrun.
      destruct (tail s) as [[[]|e|c] s']; simpl in *; try congruence.
      rewrite picked_app. simpl. by rewrite app_nil_r, Hp.
    + assert (picksPrefix (rev (ll_hash <$> all)) tail) as Htail.
      { unfold tail.
        apply picksPrefix_after_silent;
          [unfold rejectProtected; silent_solve|]. intros _ _ _ _.
        apply picksPrefix_after_silent;
          [unfold checkStatus; silent_solve|]. intros _ _ _ _.
        apply picksPrefix_after_silent;
          [unfold fetchLatest; silent_solve|]. intros _ _ _ _.
        apply picksPrefix_after_silent;
          [unfold checkBranchesExist; silent_solve|]. intros _ _ _ _.
        unfold FirstRevision.proceed. rewrite Hdry.
        apply picksPrefix_after_silent; [silent_solve|]. intros _ _ _ _.
        apply picksPrefix_after_silent;
          [unfold Legacy.getFeatureCommits; silent_solve|].
        intros all' s1 s2 Hall'.
        assert (all' = all) as ->.
        { unfold Legacy.getFeatureCommits, call, bind, emit, lift in Hall'.
          rewrite Hlog in Hall'. unfold ret in Hall'. congruence. }
        apply picksPrefix_after_silent;
          [unfold FirstRevision.requireCommits; silent_solve|].
        intros _ _ _ _.
        apply picksPrefix_after_silent;
          [unfold FirstRevision.displayCommits; silent_solve|].
        intros _ _ _ _. apply first_publish_picks. }
      destruct (Htail s) as (n & Hn & Hlen). exists n.
      unfold after, result in *. rewrite Hrun. rewrite Hs in Hn.
      destruct (tail s) as [[[]|e|c] s']; simpl in *; try done.
      * split; [done|]. intros _ _.
        rewrite Hlen by done. by rewrite length_rev, length_fmap.
      * split; [|done]. rewrite picked_app. simpl. by rewrite app_nil_r.
  - set (P := λ e, isLogQuery e = true →
                   e = GitLog ("origin/" +:+ developBranch options)
                         ("origin/" +:+ feature)).
    assert (steps (emits P) tail) as Htail.
    { unfold tail, rejectProtected, checkStatus, fetchLatest,
        checkBranchesExist, FirstRevision.proceed, Legacy.getFeatureCommits,
        FirstRevision.requireCommits, FirstRevision.displayCommits,
        FirstRevision.publish, FirstRevision.cherryPick,
        FirstRevision.requestPR.
      subst P. emits_solve. }
    destruct (Htail s) as (es & Htr & Hes). unfold after in *. rewrite Hrun.
    assert (Forall P (trace s)) as Hs by (by apply Hfirst).
    destruct (tail s) as [[[]|e|c] s']; simpl in *; rewrite Htr;
      rewrite ?Forall_app; split_and!; try done.
    by repeat constructor.
  - intros Hdry.
    assert (steps (emits (λ e, publishes e = false)) tail) as Htail.
    { unfold tail, rejectProtected, checkStatus, fetchLatest,
        checkBranchesExist, FirstRevision.proceed, Legacy.getFeatureCommits,
        FirstRevision.requireCommits, FirstRevision.displayCommits.
      rewrite Hdry. emits_solve. }
    destruct (Htail s) as (es & Htr & Hes). unfold after in *. rewrite Hrun.
    assert (Forall (λ e, publishes e = false) (trace s)) as Hs
      by (by apply Hfirst).
    destruct (tail s) as [[[]|e|c] s']; simpl in *; rewrite Htr;
      rewrite ?Forall_app; split_and!; try done.
    by repeat constructor.
Qed.

(** * Branches that bring nothing new *)

Section Repeated.
Context (env : Env) (options : Options).

Lemma mergeInto_same cs s1 s2 :
  sameChangeset s1 s2 → sameChangeset (mergeInto cs s1) (mergeInto cs s2).
Proof.
  revert s1 s2. induction cs as [|c cs IH]; intros s1 s2 [Hall Hset]; [done|].
  simpl. apply IH. rewrite Hset.
  destruct (bool_decide (hash c ∈ commitHashes s2)); [done|].
  split; simpl; by rewrite ?Hall, ?Hset.
Qed.

Lemma collectedFrom_same b s1 s2 :
  sameChangeset s1 s2 →
  sameChangeset (collectedFrom env options b s1)
    (collectedFrom env options b s2).
Proof.
  intros Hs. unfold collectedFrom.
  destruct (branchLog env options b) as [cs|e]; [|done].
  by apply mergeInto_same.
Qed.

Lemma collected_same bs s1 s2 :
  sameChangeset s1 s2 →
  sameChangeset (collected env options bs s1) (collected env options bs s2).
Proof.
  revert s1 s2. induction bs as [|b bs IH]; intros s1 s2 Hs; [done|].
  simpl. by apply IH, collectedFrom_same.
Qed.

Lemma collected_app bs1 bs2 s :
  collected env options (bs1 ++ bs2) s
  = collected env options bs2 (collected env options bs1 s).
Proof. revert s. induction bs1 as [|b bs1 IH]; intros s; [done|]. apply IH. Qed.

(** Commits whose hashes are all in the set are skipped. *)
Lemma mergeInto_known cs s :
  (∀ c, c ∈ cs → hash c ∈ commitHashes s) → sameChangeset (mergeInto cs s) s.
Proof.
  induction cs as [|c cs IH]; intros Hcs; [done|]. simpl.
  rewrite bool_decide_eq_true_2 by (apply Hcs, list_elem_of_here).
  apply IH. intros c' Hc'. by apply Hcs, list_elem_of_further.
Qed.

End Repeated.

(** X9.  A branch that is listed a second time brings nothing: the changeset and
    the set of hashes are what they would be without the second entry. *)
Theorem repeated_branch_adds_nothing (env : Env) (options : Options)
    (before later : list string) (b : string) (s : Store) :
  b ∈ before →
  sameChangeset
    (after (collectCommits env options (before ++ b :: later)) s)
    (after (collectCommits env options (before ++ later)) s).
Proof.
  intros Hb. unfold after. rewrite !collectCommits_run. simpl.
  rewrite !collected_app. simpl. apply collected_same.
  unfold collectedFrom.
  destruct (branchLog env options b) as [cs|e] eqn:Hlog; [|done].
  assert (sameChangeset
            (mergeInto cs (record (logQuery options b)
                             (collected env options before s)))
            (record (logQuery options b) (collected env options before s)))
    as [Hall Hset].
  { apply mergeInto_known. intros c Hc. simpl. by eapply collected_includes. }
  split; [by rewrite Hall|by rewrite Hset].
Qed.

(** * The dry run as a preview *)

Lemma plan_withDryRun env options flag s :
  plan env (withDryRun flag options) s = plan env options s.
Proof. reflexivity. Qed.

(** X19.  A dry run is a faithful preview: with the same answers from git,
    the run without [--dry-run] starts with exactly the events of the dry
    run up to its closing line, and both end with the same changeset.  When
    the changeset cannot be assembled the two runs are the same. *)
Theorem dry_run_previews_the_real_run (env : Env) (options : Options) :
  let dry := createStagingPR env (withDryRun true options) in
  let real := createStagingPR env (withDryRun false options) in
  allCommits (after dry initial) = allCommits (after real initial)
  ∧ match plan env options initial with
    | (Value _, s1) =>
        dry initial = (Value tt, record dryRunCompleted s1)
        ∧ trace s1 `prefix_of` trace (after real initial)
    | (_, _) => dry initial = real initial
    end.
Proof.
  cbv zeta. split.
  - rewrite !run_changeset. unfold after. by rewrite !plan_withDryRun.
  - unfold after. rewrite !createStagingPR_run, !plan_withDryRun.
    destruct (plan env options initial) as [[planned|e|c] s1]; [|done..].
    split; [done|].
    assert (steps (emits (λ _, True))
              (finish env (withDryRun false options) planned.1 planned.2))
      as Hsteps.
    { unfold finish, publish, cherryPickAll, cherryPick, requestPR.
      emits_solve. }
    destruct (Hsteps s1) as (es & Htr & _). unfold after in Htr.
    destruct (finish env (withDryRun false options) planned.1 planned.2 s1)
      as [[[]|e|c] s2]; simpl in *; rewrite Htr.
    + by exists es.
    + exists (es ++ [SpinnerFail ("Error: " +:+ e)]). by rewrite app_assoc.
    + by exists es.
Qed.

(** * The name of the new branch *)

Lemma pretty_N_go_no_dash (x : N) (s : string) :
  contains dash s = false → contains dash (pretty_N_go x s) = false.
Proof.
  revert s. induction (N.lt_wf_0 x) as [x _ IH]; intros s Hs.
  destruct (decide (0 < x)%N) as [Hx|Hx].
  - rewrite pretty_N_go_step by done. apply IH; [by apply N.div_lt|].
    apply contains_cons_false; [|done].
    unfold pretty_N_char. by repeat case_match.
  - assert (x = 0%N) as -> by lia. by rewrite pretty_N_go_0.
Qed.

(** The decimal text of a number that is not negative has no [-]. *)
Lemma pretty_Z_no_dash (z : Z) :
  (0 ≤ z)%Z → contains dash (pretty z) = false.
Proof.
  destruct z as [|p|p]; [done| |lia]. intros _.
  unfold pretty, pretty_Z, pretty, pretty_positive, pretty, pretty_N.
  destruct (decide (N.pos p = 0%N)); [done|].
  by apply pretty_N_go_no_dash.
Qed.

(** What follows the last [-] of a text. *)
Lemma after_last_dash (a b c d : string) :
  contains dash c = false → contains dash d = false →
  a +:+ String dash c = b +:+ String dash d → c = d.
Proof.
  intros Hc Hd. revert b. induction a as [|x a IH]; intros [|y b] Heq.
  - by injection Heq.
  - injection Heq as <- ->. apply contains_app in Hc as [_ Hc].
    by apply contains_cons in Hc as [? _].
  - injection Heq as -> <-. apply contains_app in Hd as [_ Hd].
    by apply contains_cons in Hd as [? _].
  - injection Heq as _ Heq. by apply (IH b).
Qed.

(** X18.  Two runs that read different times from the clock create branches
    with different names, whatever their feature branches are. *)
Theorem branch_names_differ_over_time (env1 env2 : Env)
    (feature1 feature2 : string) :
  (0 ≤ now env1)%Z → (0 ≤ now env2)%Z → now env1 ≠ now env2 →
  stagingPRBranchName env1 feature1 ≠ stagingPRBranchName env2 feature2.
Proof.
  intros H1 H2 Hnow Heq. unfold stagingPRBranchName in Heq.
  apply String.app_inj in Heq.
  change ("-" +:+ ?x) with (String dash x) in Heq.
  apply after_last_dash in Heq; [|by apply pretty_Z_no_dash..].
  by apply pretty_Z_inj in Heq.
Qed.

(** * The properties on the sample repositories *)

Import Samples.

(** ** Where the command departs from the specification *)

(** Elements that cannot be compared with one another stay where they
    are: every comparison is [NaN], the sort reads it as [+0], and a stable
    sort moves no element past an equal one. *)
Lemma arraySort_incomparable {A} (compareFn : A -> A -> option Z) (l : list A) :
  (∀ x y, x ∈ l → y ∈ l → sortCompare compareFn x y = 0%Z) →
  arraySort compareFn l = l.
Proof.
  induction l as [|x l IH]; intros Hl; [done|]. simpl.
  rewrite IH by (intros y z Hy Hz; apply Hl; by apply list_elem_of_further).
  destruct l as [|y l]; [done|]. simpl.
  by rewrite (Hl x y) by (repeat constructor).
Qed.

(** C2.  The changeset is not always in ascending order of authored time.
    On [withPipe] the newest commit of the feature branch, [P], has a [|]
    in its subject.  A default invocation reads the formatted log, takes
    the author name for the date of [P], and so has no time for
    it: both comparisons of [P] with its parent [B] are [NaN].  The sort
    leaves the two in the order of the log, newest first, and the run
    cherry-picks the child before its parent, although [P] was authored a
    day after [B]. *)
Theorem changeset_out_of_order_for_pipe_subject :
  let env := Git.env withPipe None clock in
  let final := after (createStagingPR env defaults) initial in
  Git.subject commitP = "parse a|b alternatives"
  ∧ hash <$> allCommits final = ["f5f5f5f5f5f5"; "b1b1b1b1b1b1"]
  ∧ authoredTime withPipe "f5f5f5f5f5f5" = Some 1704268800000%Z
  ∧ authoredTime withPipe "b1b1b1b1b1b1" = Some 1704186000000%Z
  ∧ ¬ StronglySorted (keyLe (authoredTime withPipe)) (hash <$> allCommits final)
  ∧ getTime env <$> allCommits final = [None; Some 1704186000000%Z]
  ∧ (∀ a b, a ∈ allCommits final → b ∈ allCommits final →
            sortCompare (byDate env) a b = 0%Z)
  ∧ picked (trace final) = ["f5f5f5f5f5f5"; "b1b1b1b1b1b1"].
Proof.
  cbv zeta.
  assert (allCommits (after (createStagingPR (Git.env withPipe None clock)
                               defaults) initial)
          = [parseLine "feat/x" "f5f5f5f5f5f5|parse a|b alternatives|Dev|2024-01-03 08:00:00 +0000|";
             Faults.read commitB "feat/x"]) as Hall
    by (vm_compute; reflexivity).
  rewrite Hall.
  split_and!; [reflexivity | reflexivity | by vm_compute | by vm_compute
              | | by vm_compute | | by vm_compute].
  - intros Hsorted. apply StronglySorted_inv in Hsorted as [_ Hle].
    apply Forall_cons in Hle as [Hle _]. vm_compute in Hle. by apply Hle.
  - intros a b Ha Hb.
    apply elem_of_cons in Ha as [->|Ha]; apply elem_of_cons in Hb as [->|Hb];
      repeat match goal with
             | H : _ ∈ [_] |- _ => apply list_elem_of_singleton in H as ->
             end; by vm_compute.
Qed.

(** C3.  The commits collected for a branch are not always those that are
    reachable from the branch and not from staging.  In [diverged] staging
    has moved on to the commit [S], which the feature branch does not
    have.  With merge commits included and first-parent not set the
    command does not ask for the two-dot range as it does on its other
    path: it calls simple-git's [log] with [from] and [to], whose range is
    symmetric, and collects [S] with the commit [B] of the branch.  With
    the default options, on the other path, the same repository gives
    [B] alone. *)
Theorem unfiltered_log_collects_staging_commit :
  let env := Git.env diverged None clock in
  includeMerges withMerges = true ∧ firstParent withMerges = false
  ∧ logQuery withMerges "feat/x" = GitLog "origin/staging" "origin/feat/x"
  ∧ Git.revParse diverged "origin/staging" = Some "5a5a5a5a5a5a"
  ∧ Git.revParse diverged "origin/feat/x" = Some "b1b1b1b1b1b1"
  ∧ Git.oid <$> Git.logRange diverged false false "5a5a5a5a5a5a" "b1b1b1b1b1b1"
    = ["b1b1b1b1b1b1"]
  ∧ "5a5a5a5a5a5a" ∈ Git.reachable diverged false "5a5a5a5a5a5a"
  ∧ ¬ ("5a5a5a5a5a5a" ∈ Git.reachable diverged false "b1b1b1b1b1b1")
  ∧ (∃ cs, result (getBranchCommits env withMerges "feat/x") initial = Value cs
           ∧ "5a5a5a5a5a5a" ∈ hash <$> cs)
  ∧ hash <$> allCommits (after (createStagingPR env withMerges) initial)
    = ["b1b1b1b1b1b1"; "5a5a5a5a5a5a"]
  ∧ hash <$> allCommits (after (createStagingPR env dry) initial)
    = ["b1b1b1b1b1b1"].
Proof.
  cbv zeta.
  split_and!; try reflexivity; try (by vm_compute).
  - apply (bool_decide_unpack _). by vm_compute.
  - apply (bool_decide_unpack _). by vm_compute.
  - eexists. split; [vm_compute; reflexivity|].
    apply (bool_decide_unpack _). by vm_compute.
Qed.

(** On [shared] with the list [featX, featY]: the shared commit is in the
    changeset and was first seen on [featX]. *)
Lemma changeset_hashes_unique_witness :
  let env := Git.env shared None clock in
  let c := {| hash := "1111111111aa"; message := "shared work";
              author_name := "Dev"; date := "2024-02-01 10:00:00 +0700";
              refs := EmptyString; author_date := None; branch := "featX" |} in
  c ∈ allCommits (after (createStagingPR env explicitXY) initial)
  ∧ ∃ feature branchesToProcess s0,
      resolveBranches env explicitXY initial
      = (Value (feature, branchesToProcess), s0)
      ∧ firstSeen env explicitXY branchesToProcess c.
Proof.
  cbv zeta.
  assert ({| hash := "1111111111aa"; message := "shared work";
             author_name := "Dev"; date := "2024-02-01 10:00:00 +0700";
             refs := EmptyString; author_date := None; branch := "featX" |}
          ∈ allCommits
              (after (createStagingPR (Git.env shared None clock) explicitXY)
                 initial)) as Hin.
  { vm_compute. apply list_elem_of_here. }
  split; [exact Hin|].
  exact (proj2 (changeset_hashes_unique (Git.env shared None clock) explicitXY)
           _ Hin).
Defined.

(** On [shared] every date denotes a time and the changeset is in
    ascending order. *)
Lemma changeset_sorted_by_date_witness :
  let env := Git.env shared None clock in
  StronglySorted (keyLe (getTime env))
    (allCommits
       (after (collectCommits env explicitXY ["featX"; "featY"] ;; sortCommits env)
          initial)).
Proof.
  cbv zeta.
  apply (proj2 (changeset_sorted_by_date (Git.env shared None clock)
                  explicitXY ["featX"; "featY"] initial)).
  intros c Hc. vm_compute in Hc.
  apply elem_of_cons in Hc as [-> | Hc]; [vm_compute; eauto|].
  apply elem_of_cons in Hc as [-> | Hc]; [vm_compute; eauto|].
  by apply elem_of_nil in Hc.
Defined.



(** A dry run on [withPipe]. *)
Lemma dry_run_never_publishes_witness :
  dryRun dry = true
  ∧ Forall (λ e, publishes e = false)
      (trace (after (createStagingPR (Git.env withPipe None clock) dry) initial)).
Proof.
  split; [reflexivity|].
  exact (proj1 (dry_run_never_publishes (Git.env withPipe None clock) dry
                  eq_refl)).
Defined.

(** The feature branch option names the staging branch. *)
Lemma protected_branch_rejected_first_witness :
  let env := Git.env linear None clock in
  resolveFeatureBranch env onStaging initial = (Value "staging", initial)
  ∧ createStagingPR env onStaging initial
    = (Exited 1, record configurationError initial).
Proof.
  cbv zeta.
  assert (resolveFeatureBranch (Git.env linear None clock) onStaging initial
          = (Value "staging", initial)) as Hres by reflexivity.
  split; [exact Hres|].
  exact (proj1 (protected_branch_rejected_first (Git.env linear None clock)
                  onStaging "staging" initial Hres (or_introl eq_refl))).
Defined.

(** The list [featX, featY] with and without a feature branch option. *)
Lemma explicit_list_takes_priority_witness :
  let env := Git.env shared None clock in
  branches explicitWithFeature = Some "featX, featY"
  ∧ result (determineBranches env explicitWithFeature "featY") initial
    = Value ["featX"; "featY"]
  ∧ result (resolveFeatureBranch env explicitWithFeature) initial
    = Value "featY"
  ∧ result (resolveFeatureBranch env explicitXY) initial = Value "featX".
Proof.
  cbv zeta. split_and!; [reflexivity | | |].
  - exact (proj1 (explicit_list_takes_priority (Git.env shared None clock)
                    explicitWithFeature "featX, featY" eq_refl eq_refl)
             "featY" initial).
  - exact (proj1 (proj2 (explicit_list_takes_priority
                           (Git.env shared None clock) explicitWithFeature
                           "featX, featY" eq_refl eq_refl)) initial).
  - exact (proj1 (proj2 (explicit_list_takes_priority
                           (Git.env shared None clock) explicitXY
                           "featX, featY" eq_refl eq_refl)) initial).
Defined.


(** In the repository [withMerge] the merge commit [e4e4e4e4e4e4] is
    reachable from the feature branch and not from staging; a default
    invocation leaves it out, as the command line documents: the query
    carries [--no-merges]. *)
Lemma merge_commit_is_not_collected :
  let env := Git.env withMerge None clock in
  let inRange :=
    Git.oid <$> Git.logRange withMerge false false "a0a0a0a0a0a0" "e4e4e4e4e4e4" in
  Git.revParse withMerge "origin/staging" = Some "a0a0a0a0a0a0"
  ∧ Git.revParse withMerge "origin/feat/x" = Some "e4e4e4e4e4e4"
  ∧ inRange = ["e4e4e4e4e4e4"; "d3d3d3d3d3d3"; "b1b1b1b1b1b1"]
  ∧ ∃ cs, result (getBranchCommits env defaults "feat/x") initial = Value cs
          ∧ hash <$> cs = ["d3d3d3d3d3d3"; "b1b1b1b1b1b1"]
          ∧ hash <$> cs ≠ inRange.
Proof.
  cbv zeta. split_and!; [reflexivity | reflexivity | by vm_compute |].
  eexists. split; [vm_compute; reflexivity|].
  split; [reflexivity|]. vm_compute. discriminate.
Qed.

(** C9 as stated fails.  With the list [featX, featY] and the feature
    branch option [featY], the first entry of the list is [featX] and the
    primary feature branch is [featY]. *)
Lemma explicit_list_first_entry_not_primary :
  let env := Git.env shared None clock in
  branches explicitWithFeature = Some "featX, featY"
  ∧ head (manualBranches "featX, featY") = Some "featX"
  ∧ result (resolveFeatureBranch env explicitWithFeature) initial
    = Value "featY"
  ∧ result (resolveFeatureBranch env explicitWithFeature) initial
    ≠ Value "featX".
Proof. cbv zeta. split_and!; [reflexivity..|]. vm_compute. discriminate. Qed.

(** ** The examples of the specification *)

(** Staging holds [A], the feature branch [A], [B], [C] with [B] older than
    [C]: the changeset is [B], [C], applied in that order and displayed as
    [C], [B]. *)
Example linear_history :
  let final := after (createStagingPR (Git.env linear None clock) defaults) initial in
  hash <$> allCommits final = ["b1b1b1b1b1b1"; "c2c2c2c2c2c2"]
  ∧ hash <$> spreadCopy final = ["c2c2c2c2c2c2"; "b1b1b1b1b1b1"]
  ∧ picked (trace final) = ["b1b1b1b1b1b1"; "c2c2c2c2c2c2"]
  ∧ filter (λ e, publishes e = true) (trace final)
    = [GitCheckout ["-b"; "staging-pr-feat-x-1700000000000"; "origin/staging"];
       GitRaw ["cherry-pick"; "b1b1b1b1b1b1"];
       GitRaw ["cherry-pick"; "c2c2c2c2c2c2"];
       GitPush "origin" "staging-pr-feat-x-1700000000000"].
Proof. by vm_compute. Qed.

(** The branches [featX] with [H1] and [featY] with [H1] and [H2]: the
    changeset is [H1] tagged [featX] and [H2] tagged [featY]. *)
Example shared_commit :
  let final := after (createStagingPR (Git.env shared None clock) explicitXY) initial in
  (λ c, (hash c, branch c)) <$> allCommits final
  = [("1111111111aa", "featX"); ("2222222222bb", "featY")].
Proof. by vm_compute. Qed.

(** A branch of the list that does not exist: the run goes on with the
    commits of the other branches. *)
Example missing_branch :
  let final :=
    after (createStagingPR (Git.env shared None clock) explicitMissing) initial in
  result (createStagingPR (Git.env shared None clock) explicitMissing) initial
  = Value tt
  ∧ hash <$> allCommits final = ["1111111111aa"; "2222222222bb"]
  ∧ filter (λ e, isWarning e = true) (trace final)
    = [warning "gone" (Git.badRevision "origin/staging..origin/gone")].
Proof. by vm_compute. Qed.

(** No commit of the feature branch is missing from staging: the run fails
    and creates nothing. *)
Example nothing_to_pick :
  let run := createStagingPR (Git.env upToDate None clock) defaults in
  result run initial = Exited 1
  ∧ last (trace (after run initial))
    = Some (SpinnerFail "No commits found in feat/x that are not in staging")
  ∧ filter (λ e, publishes e = true) (trace (after run initial)) = [].
Proof. by vm_compute. Qed.

(** The commit [P] has a [|] in its subject and is the child of [B]: its
    date field holds the author name, its time is not a number, and it
    stays in front of its parent in the changeset. *)
Example pipe_breaks_order :
  let env := Git.env withPipe None clock in
  let final := after (createStagingPR env dry) initial in
  (λ c, (hash c, message c, date c, getTime env c)) <$> allCommits final
  = [("f5f5f5f5f5f5", "parse a", "Dev", None);
     ("b1b1b1b1b1b1", "add parser", "2024-01-02 09:00:00 +0000",
      Some 1704186000000%Z)]
  ∧ Git.parseDate (Git.authorDate commitP) = Some 1704268800000%Z.
Proof. by vm_compute. Qed.

(** With merge commits included and first-parent not set the command calls
    simple-git's [log], whose range is symmetric: the commit [S], which is
    on staging and not on the feature branch, is collected. *)
Example symmetric_range :
  let env := Git.env diverged None clock in
  logQuery withMerges "feat/x" = GitLog "origin/staging" "origin/feat/x"
  ∧ hash <$> allCommits (after (createStagingPR env withMerges) initial)
    = ["b1b1b1b1b1b1"; "5a5a5a5a5a5a"].
Proof. by vm_compute. Qed.

(** The earlier revision asked for the commits of the feature branch that
    are not on the develop branch. *)
Lemma legacy_range_is_relative_to_develop env options feature s :
  trace (after (Legacy.getFeatureCommits env options feature) s)
  = trace s
    ++ [GitLog ("origin/" +:+ developBranch options) ("origin/" +:+ feature)].
Proof.
  unfold Legacy.getFeatureCommits, call, after, bind, emit, lift. simpl.
  by destruct (log env _ _).
Qed.
(** ** Checks of the string operations *)

Example split_ex : split comma "a, b,,c" = ["a"; " b"; EmptyString; "c"].
Proof. reflexivity. Qed.
Example split_empty_ex : split comma EmptyString = [EmptyString].
Proof. reflexivity. Qed.
Example trim_ex : trim "  feat/x  " = "feat/x".
Proof. reflexivity. Qed.
Example replace_ex : replace "/" "-" "feat/a/b" = "feat-a/b".
Proof. reflexivity. Qed.
Example replace_ex2 : replace "origin/" EmptyString "origin/feat/x" = "feat/x".
Proof. reflexivity. Qed.
Example replace_ex3 : replace "*" ".*" "feat*" = "feat.*".
Proof. reflexivity. Qed.
Example matchRemote_ssh :
  matchRemote "git@github.com:gifaeriyanto/pr-utils.git"
  = Some ("gifaeriyanto", "pr-utils").
Proof. reflexivity. Qed.
Example matchRemote_https :
  matchRemote "https://github.com/gifaeriyanto/pr-utils"
  = Some ("gifaeriyanto", "pr-utils").
Proof. reflexivity. Qed.
Example matchRemote_other : matchRemote "https://gitlab.com/a/b.git" = None.
Proof. reflexivity. Qed.

(** Reversing [allCommits] itself, without the copy, would change the order
    of application. *)
Example reverse_in_place (s : Store) :
  allCommits (after (reverseArray AllCommits) s) = rev (allCommits s)
  ∧ allCommits (after (spreadArray AllCommits) s) = allCommits s.
Proof. by destruct s. Qed.

(** The sub-branches of [feat/x] are the remote branches that start with its
    name, the feature branch itself left out. *)
Example sub_branches_found :
  result (resolveBranches (Git.env withSubBranches None clock) subBranches) initial
  = Value ("feat/x", ["feat/x"; "feat/x-ui"]).
Proof. by vm_compute. Qed.

(** * The further properties on the sample repositories *)

Import Faults.

(** On [linear] the branch is pushed, so every check has passed. *)
Lemma publication_requires_checks_witness :
  let env := Git.env linear None clock in
  let final := after (createStagingPR env defaults) initial in
  (∃ e, e ∈ trace final ∧ publishes e = true)
  ∧ statusIsClean env = Done true ∧ fetch env = Done tt
  ∧ dryRun defaults = false ∧ allCommits final ≠ [].
Proof.
  cbv zeta.
  assert (∃ e, e ∈ trace (after (createStagingPR (Git.env linear None clock)
                                   defaults) initial)
               ∧ publishes e = true) as Hpub.
  { exists (GitPush "origin" "staging-pr-feat-x-1700000000000").
    split; [|reflexivity].
    apply (list_elem_of_lookup_2 _ 26). vm_compute. reflexivity. }
  split; [exact Hpub|].
  destruct (publication_requires_checks (Git.env linear None clock) defaults
              Hpub)
    as (feature & bs & s0 & all & _ & _ & _ & Hclean & Hfetch & _ & _ & _ & _
        & Hdry & Hall).
  split_and!; assumption.
Defined.

(** On [linear] with a token the four steps are all there, in order. *)
Lemma publication_follows_protocol_witness :
  let env := Git.env linear (Some "token") clock in
  let final := after (createStagingPR env defaults) initial in
  plan env defaults initial
  = (Value ("feat/x", ["feat/x"]), after (plan env defaults) initial)
  ∧ dryRun defaults = false
  ∧ result (createStagingPR env defaults) initial = Value tt
  ∧ publication env defaults "feat/x" (allCommits final)
    `prefix_of` published (trace final).
Proof.
  cbv zeta.
  assert (plan (Git.env linear (Some "token") clock) defaults initial
          = (Value ("feat/x", ["feat/x"]),
             after (plan (Git.env linear (Some "token") clock) defaults)
               initial)) as Hplan
    by (vm_compute; reflexivity).
  assert (result (createStagingPR (Git.env linear (Some "token") clock)
                    defaults) initial = Value tt) as Hresult
    by (vm_compute; reflexivity).
  split_and!; [exact Hplan | reflexivity | exact Hresult |].
  exact (proj2 (publication_follows_protocol _ _ _ _ _ Hplan) eq_refl Hresult).
Defined.

(** On [linear] with a token the request names the repository of the
    remote. *)
Lemma pull_request_requires_token_and_remote_witness :
  let env := Git.env linear (Some "token") clock in
  let final := after (createStagingPR env defaults) initial in
  let pr := pullRequest env defaults "feat/x" ["feat/x"] "gifaeriyanto"
              "pr-utils" (allCommits final) in
  PullsCreate pr ∈ trace final
  ∧ given (githubToken env) = true
  ∧ dryRun defaults = false.
Proof.
  cbv zeta.
  assert (PullsCreate
            (pullRequest (Git.env linear (Some "token") clock) defaults
               "feat/x" ["feat/x"] "gifaeriyanto" "pr-utils"
               (allCommits
                  (after (createStagingPR (Git.env linear (Some "token") clock)
                            defaults) initial)))
          ∈ trace (after (createStagingPR (Git.env linear (Some "token") clock)
                            defaults) initial)) as Hin.
  { apply (list_elem_of_lookup_2 _ 30). vm_compute. reflexivity. }
  split; [exact Hin|].
  destruct (pull_request_requires_token_and_remote _ _ _ Hin)
    as (Htoken & Hdry & _).
  split; assumption.
Defined.

(** On [linear], when git does not apply the first commit, the second one is
    not tried. *)
Lemma failed_cherry_pick_stops_the_run_witness :
  let env := conflictAt "b1b1b1b1b1b1" (Git.env linear None clock) in
  let run := createStagingPR env defaults in
  plan env defaults initial
  = (Value ("feat/x", ["feat/x"]), after (plan env defaults) initial)
  ∧ allCommits (after (plan env defaults) initial)
    = [] ++ read commitB "feat/x" :: [read commitC "feat/x"]
  ∧ raw env ["cherry-pick"; hash (read commitB "feat/x")]
    = Raised "Error: CONFLICT (content): Merge conflict in parser.ts"
  ∧ result run initial = Exited 1
  ∧ published (trace (after run initial))
    = [branchCreation env defaults "feat/x";
       pickEvent (read commitB "feat/x")].
Proof.
  cbv zeta.
  assert (plan (conflictAt "b1b1b1b1b1b1" (Git.env linear None clock))
            defaults initial
          = (Value ("feat/x", ["feat/x"]),
             after (plan (conflictAt "b1b1b1b1b1b1"
                            (Git.env linear None clock)) defaults) initial))
    as Hplan by (vm_compute; reflexivity).
  assert (allCommits
            (after (plan (conflictAt "b1b1b1b1b1b1"
                            (Git.env linear None clock)) defaults) initial)
          = [] ++ read commitB "feat/x" :: [read commitC "feat/x"]) as Hall
    by (vm_compute; reflexivity).
  assert (raw (conflictAt "b1b1b1b1b1b1" (Git.env linear None clock))
            ["cherry-pick"; hash (read commitB "feat/x")]
          = Raised "Error: CONFLICT (content): Merge conflict in parser.ts")
    as Hfails by reflexivity.
  split_and!; [exact Hplan | exact Hall | exact Hfails | |].
  - exact (proj1 (failed_cherry_pick_stops_the_run _ _ _ _ _ _ _ _ _
                    Hplan eq_refl eq_refl Hall (List.Forall_nil _) Hfails)).
  - exact (proj1 (proj2 (failed_cherry_pick_stops_the_run _ _ _ _ _ _ _ _ _
                           Hplan eq_refl eq_refl Hall (List.Forall_nil _) Hfails))).
Defined.

(** On [linear] without a token. *)
Lemma no_token_no_request_witness :
  let env := Git.env linear None clock in
  given (githubToken env) = false
  ∧ Forall (λ e, requestsPR e = false ∧ ∀ key, e ≠ GitGetConfig key)
      (trace (after (createStagingPR env defaults) initial)).
Proof.
  split; [reflexivity|].
  exact (no_token_no_request (Git.env linear None clock) defaults eq_refl).
Defined.

(** On [linear] without a token the run returns after the push. *)
Lemma pushed_branch_without_pull_request_witness :
  let env := Git.env linear None clock in
  let run := createStagingPR env defaults in
  plan env defaults initial
  = (Value ("feat/x", ["feat/x"]), after (plan env defaults) initial)
  ∧ Forall (applies env) (allCommits (after (plan env defaults) initial))
  ∧ given (githubToken env) = false
  ∧ result run initial = Value tt
  ∧ published (trace (after run initial))
    = publication env defaults "feat/x"
        (allCommits (after (plan env defaults) initial)).
Proof.
  cbv zeta.
  assert (plan (Git.env linear None clock) defaults initial
          = (Value ("feat/x", ["feat/x"]),
             after (plan (Git.env linear None clock) defaults) initial))
    as Hplan by (vm_compute; reflexivity).
  assert (Forall (applies (Git.env linear None clock))
            (allCommits (after (plan (Git.env linear None clock) defaults)
                           initial))) as Hall.
  { assert (allCommits (after (plan (Git.env linear None clock) defaults)
                          initial)
            = [read commitB "feat/x"; read commitC "feat/x"]) as ->
      by (vm_compute; reflexivity).
    repeat constructor; by exists EmptyString. }
  split_and!; [exact Hplan | exact Hall | reflexivity | |].
  - exact (proj1 (pushed_branch_without_pull_request _ _ _ _ _ Hplan eq_refl
                    eq_refl Hall eq_refl (or_introl eq_refl))).
  - exact (proj1 (proj2 (pushed_branch_without_pull_request _ _ _ _ _ Hplan
                           eq_refl eq_refl Hall eq_refl (or_introl eq_refl)))).
Defined.

(** On [dirty] the run stops after the status. *)
Lemma dirty_tree_stops_before_fetch_witness :
  let env := Git.env dirty None clock in
  statusIsClean env = Done false
  ∧ result (createStagingPR env defaults) initial = Exited 1
  ∧ Forall (λ e, usesNetwork e = false ∧ publishes e = false
                 ∧ isLogQuery e = false)
      (trace (after (createStagingPR env defaults) initial)).
Proof.
  cbv zeta. split; [reflexivity|].
  assert (resolveFeatureBranch (Git.env dirty None clock) defaults initial
          = (Value "feat/x",
             after (resolveFeatureBranch (Git.env dirty None clock) defaults)
               initial)) as Hres by reflexivity.
  assert ("feat/x" ≠ stagingBranch defaults) as Hs by discriminate.
  assert ("feat/x" ≠ developBranch defaults) as Hd by discriminate.
  destruct (dirty_tree_stops_before_fetch _ _ _ _ Hres Hs Hd eq_refl)
    as [Hrun Hquiet].
  split; [|exact Hquiet]. unfold result. by rewrite Hrun.
Defined.

(** On [linear] there is no branch [release]. *)
Lemma missing_branch_stops_the_run_witness :
  let env := Git.env linear None clock in
  let run := createStagingPR env toRelease in
  List.find (λ b, negb (hasBranch
                          ["feat/x"; "remotes/origin/staging";
                           "remotes/origin/develop"; "remotes/origin/feat/x"]
                          b.2))
    (requiredBranches toRelease "feat/x") = Some ("Staging", "release")
  ∧ result run initial = Exited 1
  ∧ last (trace (after run initial)) = Some (notFound "Staging" "release").
Proof.
  cbv zeta.
  assert (List.find
            (λ b, negb (hasBranch
                          ["feat/x"; "remotes/origin/staging";
                           "remotes/origin/develop"; "remotes/origin/feat/x"]
                          b.2))
            (requiredBranches toRelease "feat/x")
          = Some ("Staging", "release")) as Hfind by (vm_compute; reflexivity).
  split; [exact Hfind|].
  assert (resolveFeatureBranch (Git.env linear None clock) toRelease initial
          = (Value "feat/x",
             after (resolveFeatureBranch (Git.env linear None clock) toRelease)
               initial)) as Hres by reflexivity.
  assert ("feat/x" ≠ stagingBranch toRelease) as Hs by discriminate.
  assert ("feat/x" ≠ developBranch toRelease) as Hd by discriminate.
  destruct (missing_branch_stops_the_run (Git.env linear None clock) toRelease
              _ _ _ _ _ Hres Hs Hd eq_refl eq_refl eq_refl Hfind)
    as (Hrun & Hlast & _).
  split; assumption.
Defined.

(** The URL of [linear]. *)
Lemma remote_pattern_captures_witness :
  matchRemote "git@github.com:gifaeriyanto/pr-utils.git"
  = Some ("gifaeriyanto", "pr-utils")
  ∧ replace ".git" EmptyString "pr-utils" = "pr-utils".
Proof.
  assert (matchRemote "git@github.com:gifaeriyanto/pr-utils.git"
          = Some ("gifaeriyanto", "pr-utils")) as Hmatch by reflexivity.
  split; [exact Hmatch|].
  exact (proj2 (proj2 (proj2 (proj2 (remote_pattern_captures _ _ _ Hmatch))))).
Defined.

(** A repository called [my.repo] is read as [my]. *)
Lemma remote_pattern_reads_github_urls_witness :
  contains slash "octo" = false ∧ contains dot "my" = false
  ∧ matchRemote "https://github.com/octo/my.repo.git" = Some ("octo", "my").
Proof.
  split_and!; [reflexivity..|].
  assert ("octo" ≠ EmptyString) as Ho by discriminate.
  assert ("my" ≠ EmptyString) as Hr by discriminate.
  exact (proj2 (remote_pattern_reads_github_urls "octo" "my" ".repo.git"
                  Ho eq_refl Hr eq_refl
                  (or_intror (ex_intro _ "repo.git" eq_refl)))).
Defined.

(** On [withSubBranches] the branch [feat/x-ui] follows [feat/x]. *)
Lemma sub_branches_follow_the_feature_branch_witness :
  let env := Git.env withSubBranches None clock in
  given (branches subBranches) = false
  ∧ determineBranches env subBranches "feat/x" initial
    = (Value ["feat/x"; "feat/x-ui"],
       after (determineBranches env subBranches "feat/x") initial)
  ∧ ∃ subs, ["feat/x"; "feat/x-ui"] = "feat/x" :: subs ∧ ("feat/x" ∉ subs).
Proof.
  cbv zeta.
  assert (determineBranches (Git.env withSubBranches None clock) subBranches
            "feat/x" initial
          = (Value ["feat/x"; "feat/x-ui"],
             after (determineBranches (Git.env withSubBranches None clock)
                      subBranches "feat/x") initial)) as Hrun
    by (vm_compute; reflexivity).
  split_and!; [reflexivity | exact Hrun |].
  destruct (sub_branches_follow_the_feature_branch
              (Git.env withSubBranches None clock) subBranches _ _ _ _ eq_refl
              Hrun)
    as (subs & Heq & Hnot & _).
  by exists subs.
Defined.

Lemma default_pattern_takes_prefixed_branches_witness :
  let env := Git.env withSubBranches None clock in
  determineBranches env subBranches "feat/x" initial
  = (Value ["feat/x"; "feat/x-ui"],
     after (determineBranches env subBranches "feat/x") initial)
  ∧ startsWith "feat/x-ui" "feat/x" = true
  ∧ "feat/x-ui" ∈ ["feat/x"; "feat/x-ui"].
Proof.
  cbv zeta.
  assert (determineBranches (Git.env withSubBranches None clock) subBranches
            "feat/x" initial
          = (Value ["feat/x"; "feat/x-ui"],
             after (determineBranches (Git.env withSubBranches None clock)
                      subBranches "feat/x") initial)) as Hrun
    by (vm_compute; reflexivity).
  split_and!; [exact Hrun | reflexivity |].
  assert ("origin/" +:+ "feat/x-ui"
          ∈ ["origin/staging"; "origin/develop"; "origin/feat/x";
             "origin/feat/x-ui"; "origin/fix/y"]) as Hin
    by (apply (list_elem_of_lookup_2 _ 3); reflexivity).
  assert ("feat/x-ui" ≠ "feat/x") as Hne by discriminate.
  exact (default_pattern_takes_prefixed_branches
           (Git.env withSubBranches None clock) subBranches "feat/x" _ _ _ _
           "feat/x-ui" eq_refl eq_refl eq_refl eq_refl Hrun eq_refl Hin Hne
           eq_refl).
Defined.

(** The two commits of [linear], as git prints them. *)
Lemma raw_log_round_trip_witness :
  let commits := [read commitC "feat/x"; read commitB "feat/x"] in
  Forall readable commits
  ∧ parseRawOutput "feat/x" (formatLog commits) = commits.
Proof.
  cbv zeta.
  assert (Forall readable [read commitC "feat/x"; read commitB "feat/x"])
    as Hread.
  { repeat constructor; try reflexivity; by eexists _, _. }
  assert (Forall (λ commit, branch commit = "feat/x")
            [read commitC "feat/x"; read commitB "feat/x"]) as Hbranch
    by (repeat constructor).
  split; [exact Hread|].
  exact (proj1 (raw_log_round_trip "feat/x" _ Hread Hbranch)).
Defined.

(** On [linear] the earlier revision applies [commitB] before [commitC]. *)
Lemma first_revision_applies_oldest_first_witness :
  let env := Git.env linear None clock in
  let run := FirstRevision.createStagingPR env defaults in
  log env "origin/develop" "origin/feat/x"
  = Done [Git.logLine commitC; Git.logLine commitB]
  ∧ ∃ n, picked (trace (after run initial))
         = take n ["b1b1b1b1b1b1"; "c2c2c2c2c2c2"].
Proof.
  cbv zeta.
  assert (log (Git.env linear None clock) ("origin/" +:+ developBranch defaults)
            ("origin/" +:+ "feat/x")
          = Done [Git.logLine commitC; Git.logLine commitB]) as Hlog
    by (vm_compute; reflexivity).
  split; [exact Hlog|].
  assert (FirstRevision.resolveFeatureBranch (Git.env linear None clock)
            defaults initial
          = (Value "feat/x",
             after (FirstRevision.resolveFeatureBranch
                      (Git.env linear None clock) defaults) initial)) as Hres
    by reflexivity.
  destruct (proj1 (first_revision_applies_oldest_first _ _ _ _ _ Hres Hlog))
    as (n & Hn & _).
  by exists n.
Defined.

(** On [shared], the branch [featX] listed twice. *)
Lemma repeated_branch_adds_nothing_witness :
  let env := Git.env shared None clock in
  "featX" ∈ ["featX"; "featY"]
  ∧ sameChangeset
      (after (collectCommits env explicitXY ["featX"; "featY"; "featX"]) initial)
      (after (collectCommits env explicitXY ["featX"; "featY"]) initial).
Proof.
  cbv zeta.
  assert ("featX" ∈ ["featX"; "featY"]) as Hin by apply list_elem_of_here.
  split; [exact Hin|].
  exact (repeated_branch_adds_nothing (Git.env shared None clock) explicitXY
           ["featX"; "featY"] [] "featX" initial Hin).
Defined.

(** A run on [feat/x] and a run on [featX], one millisecond apart. *)
Lemma branch_names_differ_over_time_witness :
  let env1 := Git.env linear None clock in
  let env2 := Git.env shared None (clock + 1) in
  (0 ≤ now env1)%Z ∧ (0 ≤ now env2)%Z ∧ now env1 ≠ now env2
  ∧ stagingPRBranchName env1 "feat/x" ≠ stagingPRBranchName env2 "featX".
Proof.
  cbv zeta.
  assert (0 ≤ now (Git.env linear None clock))%Z as H1 by discriminate.
  assert (0 ≤ now (Git.env shared None (clock + 1)))%Z as H2 by discriminate.
  assert (now (Git.env linear None clock)
          ≠ now (Git.env shared None (clock + 1))) as Hnow by discriminate.
  split_and!; [exact H1 | exact H2 | exact Hnow |].
  exact (branch_names_differ_over_time _ _ "feat/x" "featX" H1 H2 Hnow).
Defined.
